(** * Kodi add-on XML formatter: a shallow embedding of [format_xml.py]

    Python [str] values are modelled as lists of characters ([list ascii],
    one [ascii] per code point below 256) and [bytes] values as lists of
    bytes (one [ascii] per byte), the storage as a finite map from paths to
    the bytes of the files, and the process-wide logger as a list of records
    threaded through every call.  The two XML libraries the script imports
    ([xml.etree.ElementTree] and [xml.dom.minidom]) and the codecs behind
    [open] are interfaces: the results about the script hold for every
    implementation of them, and small executable models instantiate them on
    concrete documents. *)

From Stdlib Require Import Ascii String DecimalString DecimalNat.
From stdpp Require Import base option list gmap strings.

Set Default Proof Using "Type".

Abbreviation str := (list ascii).

Coercion list_ascii_of_string : string >-> list.

#[local] Open Scope string_scope.
#[local] Open Scope list_scope.

(** ** Python string primitives *)

Module PyStr.

(** [s.startswith(p)], also the test the scanning loops of [replace] and
    [find] perform at each position. *)
Fixpoint startswith (p s : str) : bool :=
  match p, s with
  | [], _ => true
  | a :: p', b :: s' => Ascii.eqb a b && startswith p' s'
  | _ :: _, [] => false
  end.

(** [s.partition(sep)] when [sep] occurs: the text before the first
    occurrence and the text after it. *)
Fixpoint partition (sep s : str) : option (str * str) :=
  if startswith sep s then Some ([], drop (length sep) s)
  else match s with
       | [] => None
       | c :: s' =>
           match partition sep s' with
           | Some (before, after) => Some (c :: before, after)
           | None => None
           end
       end.

(** [sub in s] *)
Definition contains (sub s : str) : bool :=
  match partition sub s with Some _ => true | None => false end.

(** The scanning loop of [str.replace] for a non-empty [old]: [skip] counts
    the characters of the occurrence just replaced that are still to be
    passed over. *)
Fixpoint replace_scan (old new : str) (skip : nat) (s : str) : str :=
  match s with
  | [] => []
  | c :: s' =>
      match skip with
      | S k => replace_scan old new k s'
      | O =>
          if startswith old s
          then new ++ replace_scan old new (length old - 1) s'
          else c :: replace_scan old new 0 s'
      end
  end.

(** [s.replace(old, new)]: every non-overlapping occurrence, left to right.
    An empty [old] matches between all characters. *)
Definition replace (old new s : str) : str :=
  match old with
  | [] => new ++ flat_map (fun c => c :: new) s
  | _ :: _ => replace_scan old new 0 s
  end.

(** [s.count(sub)] for a non-empty [sub]: the occurrences [replace] visits. *)
Fixpoint count_scan (sub : str) (skip : nat) (s : str) : nat :=
  match s with
  | [] => 0
  | c :: s' =>
      match skip with
      | S k => count_scan sub k s'
      | O =>
          if startswith sub s
          then S (count_scan sub (length sub - 1) s')
          else count_scan sub 0 s'
      end
  end.

Definition count (sub s : str) : nat :=
  match sub with
  | [] => S (length s)
  | _ :: _ => count_scan sub 0 s
  end.

(** [c.isspace()] on the code points below 256. *)
Definition isspace (c : ascii) : bool :=
  let n := nat_of_ascii c in
  (((9 <=? n) && (n <=? 13)) || ((28 <=? n) && (n <=? 32))
  || (n =? 133) || (n =? 160))%nat.

(** [s.lstrip()], [s.rstrip()], [s.strip()] *)
Fixpoint lstrip (s : str) : str :=
  match s with
  | [] => []
  | c :: s' => if isspace c then lstrip s' else s
  end.

Fixpoint rstrip (s : str) : str :=
  match s with
  | [] => []
  | c :: s' =>
      match rstrip s' with
      | [] => if isspace c then [] else [c]
      | r => c :: r
      end
  end.

Definition strip (s : str) : str := rstrip (lstrip s).

(** [s.split(sep)] for a one-character separator. *)
Fixpoint split (sep : ascii) (s : str) : list str :=
  match s with
  | [] => [[]]
  | c :: s' =>
      if Ascii.eqb c sep then [] :: split sep s'
      else match split sep s' with
           | [] => [[c]]
           | l :: ls => (c :: l) :: ls
           end
  end.

(** [sep.join(parts)] *)
Fixpoint join (sep : str) (parts : list str) : str :=
  match parts with
  | [] => []
  | [p] => p
  | p :: ps => p ++ sep ++ join sep ps
  end.

(** [str(n)] for a non-negative integer. *)
Definition of_nat (n : nat) : str :=
  list_ascii_of_string (NilEmpty.string_of_uint (Nat.to_uint n)).

(** The line feed and the double quote. *)
Definition LF : ascii := "010"%char.
Definition CR : ascii := "013"%char.
Definition DQ : ascii := "034"%char.

End PyStr.

Import PyStr.

(** ** The CDATA vault of [pretty_print_xml] *)

Definition cdata_open : str := "<![CDATA[".
Definition cdata_close : str := "]]>".

(** A match object of [re]: its span and [match.group(0)]. *)
Record Match := { m_start : nat; m_end : nat; group0 : str }.

(** [cdata_pattern.finditer(s)] for the pattern [<!\[CDATA\[(.*?)\]\]>] with
    [re.DOTALL].  The engine tries the start positions from left to right; at
    a start the opener must match literally, the lazy [.*?] (any character,
    line breaks included) stops at the nearest closer, and the search resumes
    right after a match.  [pos] is the index of the head of [s] in the
    subject and [skip] the number of characters of the last match still to
    be passed over. *)
Fixpoint finditer_scan (pos skip : nat) (s : str) : list Match :=
  match s with
  | [] => []
  | _ :: s' =>
      match skip with
      | S k => finditer_scan (S pos) k s'
      | O =>
          if startswith cdata_open s then
            match partition cdata_close (drop (length cdata_open) s) with
            | Some (body, _) =>
                let m := cdata_open ++ body ++ cdata_close in
                {| m_start := pos; m_end := pos + length m; group0 := m |}
                  :: finditer_scan (S pos) (length m - 1) s'
            | None => finditer_scan (S pos) 0 s'
            end
          else finditer_scan (S pos) 0 s'
      end
  end.

Definition finditer (s : str) : list Match := finditer_scan 0 0 s.

(** [f"__CDATA_PLACEHOLDER_{i}__"] *)
Definition placeholder_prefix : str := "__CDATA_PLACEHOLDER_".
Definition placeholder (i : nat) : str := placeholder_prefix ++ of_nat i ++ "__".

(** The loop [for i, match in enumerate(matches)]: the state is the list
    [cdata_sections] and the text [rough_string]. *)
Fixpoint extract_loop (i : nat) (matches : list Match)
    (cdata_sections : list (str * str)) (rough_string : str)
    : list (str * str) * str :=
  match matches with
  | [] => (cdata_sections, rough_string)
  | m :: matches' =>
      extract_loop (S i) matches'
        (cdata_sections ++ [(placeholder i, group0 m)])
        (replace (group0 m) (placeholder i) rough_string)
  end.

Definition extract (rough_string : str) : list (str * str) * str :=
  extract_loop 0 (finditer rough_string) [] rough_string.

(** The loop [for placeholder, original in cdata_sections]. *)
Definition restore (cdata_sections : list (str * str)) (pretty_xml : str) : str :=
  fold_left (fun acc po => replace po.1 po.2 acc) cdata_sections pretty_xml.

(** ** The XML libraries *)

(** The part of [xml.etree.ElementTree.Element] the script reads. *)
Record Element := { tag : str; attrib : list (str * str) }.

(** What the script asks of the two XML libraries.  A raised exception is the
    left injection, carrying [str(e)].  [toprettyxml] stands for
    [dom.toprettyxml(indent=..., encoding=...)] followed by the decoding of
    the bytes it returns; whatever the document, the text it writes begins
    with the XML declaration. *)
Class XmlLibrary := {
  ET_fromstring : str -> str + Element;
  Document : Type;
  parseString : str -> str + Document;
  toprettyxml : Document -> str -> str -> str + str;
  toprettyxml_declaration :
    forall dom indent encoding pretty_xml,
      toprettyxml dom indent encoding = inr pretty_xml ->
      exists rest, pretty_xml = "<?xml " ++ rest
}.

(** ** Storage and logging *)

(** [logging] levels that pass the [level=logging.INFO] filter of
    [basicConfig]; a [logger.debug] call emits nothing. *)
Inductive Level := INFO | WARNING | ERROR.

Record LogRecord := { levelname : Level; message : str }.

(** What [Path(directory)] designates: nothing, something that is not a
    directory, or a directory, given with the paths [rglob("*.xml")] yields
    in traversal order. *)
Inductive PathKind :=
  | Missing
  | NotADirectory
  | Directory (rglob_xml : list str).

(** The world a run acts on: the bytes of the files by path, the paths that
    cannot be opened for writing, the directory walker, and the log written
    so far. *)
Record World := {
  files : gmap str str;
  readonly : gset str;
  walk : str -> PathKind;
  log : list LogRecord
}.

Definition IO (A : Type) : Type := World -> A * World.

#[export] Instance IO_ret : MRet IO := fun A x w => (x, w).
#[export] Instance IO_bind : MBind IO :=
  fun A B f m w => let '(a, w') := m w in f a w'.

Definition emit (lv : Level) (msg : str) : IO unit := fun w =>
  (tt, {| files := files w; readonly := readonly w; walk := walk w;
          log := log w ++ [{| levelname := lv; message := msg |}] |}).

Definition logger_info : str -> IO unit := emit INFO.
Definition logger_warning : str -> IO unit := emit WARNING.
Definition logger_error : str -> IO unit := emit ERROR.
Definition logger_debug (msg : str) : IO unit := mret tt.

(** Text-mode reading translates line endings ([newline=None]): [\r\n] and a
    lone [\r] become [\n]. *)
Fixpoint universal_newlines (s : str) : str :=
  match s with
  | [] => []
  | c :: s' =>
      if Ascii.eqb c CR then
        LF :: match s' with
              | d :: s'' =>
                  if Ascii.eqb d LF then universal_newlines s''
                  else universal_newlines s'
              | [] => []
              end
      else c :: universal_newlines s'
  end.

(** [repr] of a string without quotes, backslashes or control characters. *)
Definition repr_str (s : str) : str := "'" ++ s ++ "'".

(** [repr] of a list of such strings. *)
Definition repr_list (l : list str) : str :=
  "[" ++ join ", " (map repr_str l) ++ "]".

Definition errno_ENOENT (path : str) : str :=
  "[Errno 2] No such file or directory: " ++ repr_str path.
Definition errno_EACCES (path : str) : str :=
  "[Errno 13] Permission denied: " ++ repr_str path.

(** Python's codecs, as the script uses them: [data.decode(encoding)] and
    [text.encode(encoding)] under the error handler [strict].  A raised
    exception ([LookupError] for an encoding that is not known,
    [UnicodeDecodeError], [UnicodeEncodeError]) is the left injection,
    carrying [str(e)]. *)
Class Codecs := {
  decode : str -> str -> str + str;
  encode : str -> str -> str + str
}.

(** [open(path, "r", encoding=encoding)] and [f.read()]: the file is opened,
    its bytes are decoded, and the line endings of the text translated. *)
Definition read_text `{Codecs} (path encoding : str) : IO (str + str) := fun w =>
  (match files w !! path with
   | Some data =>
       match decode encoding data with
       | inr text => inr (universal_newlines text)
       | inl e => inl e
       end
   | None => inl (errno_ENOENT path)
   end, w).

(** [path.read_bytes()] *)
Definition read_bytes (path : str) : IO (str + str) := fun w =>
  (match files w !! path with
   | Some data => inr data
   | None => inl (errno_ENOENT path)
   end, w).

(** [path.write_bytes(data)] *)
Definition write_file (path data : str) : IO (str + unit) := fun w =>
  if decide (path ∈ readonly w) then (inl (errno_EACCES path), w)
  else (inr tt, {| files := <[path := data]> (files w); readonly := readonly w;
                   walk := walk w; log := log w |}).

(** [open(path, "w", encoding=encoding)] and [f.write(text)]: opening the
    file for writing empties it; the text is then encoded and its bytes
    written, line feeds as they are.  When the text cannot be encoded
    nothing is written and the file stays empty. *)
Definition write_text `{Codecs} (path encoding text : str) : IO (str + unit) := fun w =>
  if decide (path ∈ readonly w) then (inl (errno_EACCES path), w)
  else match encode encoding text with
       | inr data =>
           (inr tt, {| files := <[path := data]> (files w); readonly := readonly w;
                       walk := walk w; log := log w |})
       | inl e =>
           (inl e, {| files := <[path := []]> (files w); readonly := readonly w;
                      walk := walk w; log := log w |})
       end.

(** The UTF-8 bytes of the ballot X and of the check mark that head the log
    messages. *)
Definition ballot_x : str := ["226"; "156"; "151"]%char.
Definition check_mark : str := ["226"; "156"; "147"]%char.

(** ** pretty_print_xml *)

Section Script.
Context {lib : XmlLibrary} {codecs : Codecs}.

(** The list comprehension [[line for line in lines if line.strip()]]. *)
Definition non_empty_lines (lines : list str) : list str :=
  filter (fun line => strip line <> []) lines.

(** The body of [pretty_print_xml(element, encoding, indent, preserve_cdata)]
    for a [str] argument, the only way the script calls it: the text it
    returns, or [str(e)] of the exception raised inside its [try] block. *)
Definition pretty_print_xml_try (element encoding indent : str)
    (preserve_cdata : bool) : str + str :=
  let '(cdata_sections, rough_string) :=
    if preserve_cdata then extract element else ([], element) in
  match parseString rough_string with
  | inl e => inl e
  | inr dom =>
      match toprettyxml dom indent encoding with
      | inl e => inl e
      | inr pretty_xml =>
          let lines := split LF pretty_xml in
          let pretty_xml := join [LF] (non_empty_lines lines) in
          let pretty_xml := restore cdata_sections pretty_xml in
          inr (rstrip pretty_xml ++ [LF])
      end
  end.

(** [pretty_print_xml] with its exception handler: the failure is logged and
    [None] returned. *)
Definition pretty_print_xml (element encoding indent : str)
    (preserve_cdata : bool) : IO (option str) :=
  match pretty_print_xml_try element encoding indent preserve_cdata with
  | inr pretty_xml => mret (Some pretty_xml)
  | inl e => logger_error ("Error in pretty printing: " ++ e);; mret None
  end.

(** ** format_xml_file *)

(** The comparison [formatted_content.strip() == original_content.strip()]
    that decides whether the file is rewritten. *)
Definition needs_write (original_content formatted_content : str) : bool :=
  bool_decide (strip formatted_content <> strip original_content).

(** [format_xml_file(file_path, dry_run, indent, encoding)]; the outer
    handler [except Exception] catches the failures of [open], of the
    decoding and of the encoding. *)
Definition format_xml_file (file_path : str) (dry_run : bool)
    (indent encoding : str) : IO bool :=
  r ← read_text file_path encoding;
  match r with
  | inl e =>
      logger_error (ballot_x ++ " Error processing " ++ file_path ++ ": " ++ e);;
      mret false
  | inr original_content =>
      if bool_decide (strip original_content = []) then
        logger_info ("Skipping empty file: " ++ file_path);; mret false
      else
        match ET_fromstring original_content with
        | inl e =>
            logger_error (ballot_x ++ " Invalid XML in " ++ file_path ++ ": " ++ e);;
            mret false
        | inr _ =>
            formatted ← pretty_print_xml original_content encoding indent true;
            match formatted with
            | None =>
                logger_error (ballot_x ++ " Could not format " ++ file_path);;
                mret false
            | Some formatted_content =>
                if negb (needs_write original_content formatted_content) then
                  logger_info ("Already formatted: " ++ file_path);; mret false
                else if dry_run then
                  logger_info ("Would format: " ++ file_path);; mret true
                else
                  written ← write_text file_path encoding formatted_content;
                  match written with
                  | inl e =>
                      logger_error
                        (ballot_x ++ " Error processing " ++ file_path ++ ": " ++ e);;
                      mret false
                  | inr _ =>
                      logger_info (check_mark ++ " Formatted: " ++ file_path);;
                      mret true
                  end
            end
        end
  end.

(** ** find_xml_files, create_backup, validate_xml_structure *)

(** The loop [for file_path in path.rglob("*.xml")]: the first pattern that
    occurs in the path excludes it; the state is the list [xml_files]. *)
Fixpoint find_loop (exclude_patterns found xml_files : list str) : IO (list str) :=
  match found with
  | [] => mret xml_files
  | file_path :: found' =>
      match List.find (fun pattern => contains pattern file_path) exclude_patterns with
      | Some pattern =>
          logger_info ("Excluding: " ++ file_path ++ " (matches pattern: "
                       ++ pattern ++ ")");;
          find_loop exclude_patterns found' xml_files
      | None => find_loop exclude_patterns found' (xml_files ++ [file_path])
      end
  end.

(** [find_xml_files(directory, exclude_patterns)] *)
Definition find_xml_files (directory : str) (exclude_patterns : list str)
    : IO (list str) :=
  kind ← (fun w => (walk w directory, w));
  match kind with
  | Missing => logger_error ("Directory does not exist: " ++ directory);; mret []
  | NotADirectory => logger_error ("Path is not a directory: " ++ directory);; mret []
  | Directory found =>
      xml_files ← find_loop exclude_patterns found [];
      logger_info ("Found " ++ of_nat (length xml_files) ++ " XML files in "
                   ++ directory);;
      mret xml_files
  end.

(** [create_backup(file_path)]: [with_suffix(suffix + ".bak")] appends [.bak]
    to the path. *)
Definition create_backup (file_path : str) : IO (option str) :=
  let backup_path := file_path ++ ".bak" in
  r ← read_bytes file_path;
  match r with
  | inl e =>
      logger_error ("Failed to create backup for " ++ file_path ++ ": " ++ e);;
      mret None
  | inr data =>
      written ← write_file backup_path data;
      match written with
      | inl e =>
          logger_error ("Failed to create backup for " ++ file_path ++ ": " ++ e);;
          mret None
      | inr _ => logger_debug ("Created backup: " ++ backup_path);; mret (Some backup_path)
      end
  end.

(** [file_path.name]: the last component of the path. *)
Definition path_name (file_path : str) : str :=
  default [] (last (split "/"%char file_path)).

Definition required_attrs : list str :=
  ["id" : str; "name" : str; "version" : str; "provider-name" : str].

(** [[attr for attr in required_attrs if attr not in root.attrib]] *)
Definition missing_attrs (root : Element) : list str :=
  filter (fun attr => attr ∉ (attrib root).*1) required_attrs.

(** [validate_xml_structure(file_path)]: the file is read as UTF-8, whatever
    the encoding of the run. *)
Definition validate_xml_structure (file_path : str) : IO bool :=
  r ← read_text file_path "utf-8";
  match r with
  | inl e =>
      logger_error ("Validation error in " ++ file_path ++ ": " ++ e);; mret false
  | inr content =>
      match ET_fromstring content with
      | inl e =>
          logger_error ("Validation error in " ++ file_path ++ ": " ++ e);;
          mret false
      | inr root =>
          (if bool_decide (path_name file_path = "addon.xml") then
             (if bool_decide (tag root <> "addon") then
                logger_warning ("addon.xml should have 'addon' as root element in "
                                ++ file_path)
              else mret tt);;
             (if bool_decide (missing_attrs root <> []) then
                logger_warning ("Missing required attributes in " ++ file_path
                                ++ ": " ++ repr_list (missing_attrs root))
              else mret tt)
           else mret tt);;
          mret true
      end
  end.

(** ** format_directory *)

(** The three counters of the loop. *)
Record Counters := {
  formatted_count : nat;
  error_count : nat;
  validation_errors : nat
}.

(** One iteration of [for file_path in xml_files]; a [continue] returns the
    counters as they stand. *)
Definition format_one (dry_run backup validate : bool) (indent encoding : str)
    (file_path : str) (c : Counters) : IO Counters :=
  '(c, skipped) ←
    (if validate then
       valid ← validate_xml_structure file_path;
       if (valid : bool) then mret (c, false)
       else
         let c := {| formatted_count := formatted_count c;
                     error_count := error_count c;
                     validation_errors := validation_errors c + 1 |} in
         if negb dry_run then
           logger_warning ("Skipping " ++ file_path ++ " due to validation errors");;
           mret (c, true)
         else mret (c, false)
     else mret (c, false) : IO (Counters * bool));
  if (skipped : bool) then mret c
  else
    skipped ←
      (if backup && negb dry_run then
         b ← create_backup file_path;
         match b with
         | None =>
             logger_warning ("Skipping " ++ file_path ++ " - backup creation failed");;
             mret true
         | Some _ => mret false
         end
       else mret false : IO bool);
    if (skipped : bool) then mret c
    else
      formatted ← format_xml_file file_path dry_run indent encoding;
      if (formatted : bool) then
        mret {| formatted_count := formatted_count c + 1;
                error_count := error_count c;
                validation_errors := validation_errors c |}
      else
        mret {| formatted_count := formatted_count c;
                error_count := error_count c + 1;
                validation_errors := validation_errors c |}.

Fixpoint format_loop (dry_run backup validate : bool) (indent encoding : str)
    (xml_files : list str) (c : Counters) : IO Counters :=
  match xml_files with
  | [] => mret c
  | file_path :: rest =>
      c ← format_one dry_run backup validate indent encoding file_path c;
      format_loop dry_run backup validate indent encoding rest c
  end.

(** [format_directory(directory, dry_run, backup, exclude_patterns, indent,
    encoding, validate)] *)
Definition format_directory (directory : str) (dry_run backup : bool)
    (exclude_patterns : list str) (indent encoding : str) (validate : bool)
    : IO unit :=
  xml_files ← find_xml_files directory exclude_patterns;
  if bool_decide (xml_files = []) then
    logger_info "No XML files found to format."
  else
    logger_info ([LF] ++ (if dry_run then "Would format" else "Formatting" : str)
                 ++ " " ++ of_nat (length xml_files) ++ " files...");;
    c ← format_loop dry_run backup validate indent encoding xml_files
          {| formatted_count := 0; error_count := 0; validation_errors := 0 |};
    logger_info ([LF] ++ (if dry_run then "Dry run" else "Formatting" : str)
                 ++ " complete!");;
    logger_info ("Files " ++ (if dry_run then "that would be" : str else [])
                 ++ " formatted: " ++ of_nat (formatted_count c));;
    (if bool_decide (0 < validation_errors c) then
       logger_warning ("Files with validation errors: "
                       ++ of_nat (validation_errors c))
     else mret tt);;
    (if bool_decide (0 < error_count c) then
       logger_warning ("Files with formatting errors: " ++ of_nat (error_count c))
     else mret tt).

End Script.

(** ** An executable model of the codecs

    The codecs [utf-8], [latin-1] and [ascii] on texts of code points below
    256, under the names the registry knows them by once the case is
    ignored and [_] read as [-].  Every other encoding is reported as
    unknown, and a UTF-8 sequence that stands for a code point above 255 is
    reported as an error of the model. *)

Module PyCodecs.

Inductive Codec := UTF8 | Latin1 | ASCII.

(** A character of an encoding name as the registry compares it: a letter
    in lower case, [_] as [-]. *)
Definition fold_char (c : ascii) : ascii :=
  let n := nat_of_ascii c in
  if ((65 <=? n) && (n <=? 90))%nat then ascii_of_nat (n + 32)
  else if Ascii.eqb c "_" then "-"%char else c.

(** [codecs.lookup(encoding)] *)
Definition lookup (encoding : str) : option Codec :=
  let name := map fold_char encoding in
  if bool_decide (name ∈ ["utf-8" : str; "utf8" : str; "u8" : str; "utf" : str])
  then Some UTF8
  else if bool_decide (name ∈ ["latin-1" : str; "latin1" : str; "iso-8859-1" : str;
                                "iso8859-1" : str; "l1" : str])
  then Some Latin1
  else if bool_decide (name ∈ ["ascii" : str; "us-ascii" : str]) then Some ASCII
  else None.

(** [str(e)] of the [LookupError]. *)
Definition unknown_encoding (encoding : str) : str := "unknown encoding: " ++ encoding.

Definition hex_digit (n : nat) : ascii := nth n ("0123456789abcdef" : str) "0"%char.

(** [0xe9] *)
Definition hex_byte (b : ascii) : str :=
  let n := nat_of_ascii b in "0x" ++ [hex_digit (n / 16); hex_digit (n mod 16)].

(** [str(e)] of a [UnicodeDecodeError] for one byte. *)
Definition cannot_decode (codec : str) (b : ascii) (pos : nat) (reason : str) : str :=
  "'" ++ codec ++ "' codec can't decode byte " ++ hex_byte b ++ " in position "
  ++ of_nat pos ++ ": " ++ reason.

(** The second byte a lead byte from [0xe0] on asks for. *)
Definition second_byte_ok (lead second : nat) : bool :=
  (if lead =? 224 then (160 <=? second) && (second <=? 191)
   else if lead =? 237 then (128 <=? second) && (second <=? 159)
   else if lead =? 240 then (144 <=? second) && (second <=? 191)
   else if lead =? 244 then (128 <=? second) && (second <=? 143)
   else (128 <=? second) && (second <=? 191))%nat.

(** [data.decode("utf-8")]: [pos] is the index of the head of [data]. *)
Fixpoint utf8_decode (pos : nat) (data : str) : str + str :=
  match data with
  | [] => inr []
  | b :: data' =>
      let n := nat_of_ascii b in
      if (n <? 128)%nat then
        match utf8_decode (S pos) data' with
        | inr text => inr (b :: text)
        | inl e => inl e
        end
      else if ((n <? 194) || (244 <? n))%nat then
        inl (cannot_decode "utf-8" b pos "invalid start byte")
      else
        match data' with
        | [] => inl (cannot_decode "utf-8" b pos "unexpected end of data")
        | b2 :: data'' =>
            let m := nat_of_ascii b2 in
            if (n <? 196)%nat then
              if ((128 <=? m) && (m <=? 191))%nat then
                match utf8_decode (S (S pos)) data'' with
                | inr text => inr (ascii_of_nat ((n - 192) * 64 + (m - 128)) :: text)
                | inl e => inl e
                end
              else inl (cannot_decode "utf-8" b pos "invalid continuation byte")
            else if ((n <? 224) && (128 <=? m) && (m <=? 191))%nat
                    || ((224 <=? n) && second_byte_ok n m)%nat then
              inl ("code point above 255" : str)
            else inl (cannot_decode "utf-8" b pos "invalid continuation byte")
        end
  end.

(** [text.encode("utf-8")] *)
Definition utf8_encode (text : str) : str :=
  flat_map (fun c =>
    let n := nat_of_ascii c in
    if (n <? 128)%nat then [c]
    else [ascii_of_nat (192 + n / 64); ascii_of_nat (128 + n mod 64)]) text.

(** [data.decode("ascii")] *)
Fixpoint ascii_decode (pos : nat) (data : str) : str + str :=
  match data with
  | [] => inr []
  | b :: data' =>
      if (nat_of_ascii b <? 128)%nat then
        match ascii_decode (S pos) data' with
        | inr text => inr (b :: text)
        | inl e => inl e
        end
      else inl (cannot_decode "ascii" b pos "ordinal not in range(128)")
  end.

(** The number of characters at the start of the text that [ascii] cannot
    encode. *)
Fixpoint unencodable_run (text : str) : nat :=
  match text with
  | [] => 0
  | c :: text' => if (128 <=? nat_of_ascii c)%nat then S (unencodable_run text') else 0
  end.

(** [text.encode("ascii")]: the error names the characters from the first
    one that cannot be encoded to the last one of its run. *)
Fixpoint ascii_encode (pos : nat) (text : str) : str + str :=
  match text with
  | [] => inr []
  | c :: text' =>
      if (nat_of_ascii c <? 128)%nat then
        match ascii_encode (S pos) text' with
        | inr data => inr (c :: data)
        | inl e => inl e
        end
      else
        let run := unencodable_run text' in
        inl ("'ascii' codec can't encode "
             ++ (if (run =? 0)%nat
                 then "character '\x" ++ drop 2 (hex_byte c) ++ "' in position " ++ of_nat pos
                 else "characters in position " ++ of_nat pos ++ "-" ++ of_nat (pos + run))
             ++ ": ordinal not in range(128)")
  end.

(** [text.encode("ascii", "xmlcharrefreplace").decode("ascii")]: a
    character reference in place of each character the codec cannot
    encode. *)
Definition ascii_charrefs (text : str) : str :=
  flat_map (fun c =>
    let n := nat_of_ascii c in
    if (n <? 128)%nat then [c] else "&#" ++ of_nat n ++ ";") text.

Definition decode (encoding data : str) : str + str :=
  match lookup encoding with
  | Some UTF8 => utf8_decode 0 data
  | Some Latin1 => inr data
  | Some ASCII => ascii_decode 0 data
  | None => inl (unknown_encoding encoding)
  end.

Definition encode (encoding text : str) : str + str :=
  match lookup encoding with
  | Some UTF8 => inr (utf8_encode text)
  | Some Latin1 => inr text
  | Some ASCII => ascii_encode 0 text
  | None => inl (unknown_encoding encoding)
  end.

End PyCodecs.

#[export] Instance python_codecs : Codecs :=
  {| decode := PyCodecs.decode; encode := PyCodecs.encode |}.

(** ** An executable model of the XML libraries

    The fragment of XML 1.0 that [expat] is modelled on: an optional XML
    declaration, comments, elements with quoted attributes, character data,
    CDATA sections, the five predefined entities and numeric character
    references below 256.  Document type declarations, processing
    instructions and namespace prefixes are outside it and reported as
    errors.  An error is [str(e)] without its line and column; for a document
    with a defect outside element content the kind of error may differ from
    the one [expat] names. *)

Module MiniDom.

#[warnings="-register-all"]
Inductive Node :=
  | ElementNode (tagName : str) (attributes : list (str * str)) (childNodes : list Node)
  | TextNode (data : str)
  | CDATASectionNode (data : str)
  | CommentNode (data : str).

Inductive Token :=
  | TStart (name : str) (attrs : list (str * str))
  | TEmpty (name : str) (attrs : list (str * str))
  | TEnd (name : str)
  | TChars (data : str) (blank : bool)
  | TCData (data : str)
  | TComment (data : str)
  | TDecl.

Definition err {A : Type} (msg : str) : str + A := inl msg.

Definition invalid_token : str := "not well-formed (invalid token)".

Definition is_char (c p : ascii) : bool := Ascii.eqb c p.

Definition xml_space (c : ascii) : bool :=
  is_char c " " || is_char c "009" || is_char c "010" || is_char c "013".

(** The characters a document may contain: tab, line feed, carriage return
    and everything from the space on. *)
Definition xml_char (c : ascii) : bool :=
  xml_space c || (32 <=? nat_of_ascii c)%nat.

Definition name_start (c : ascii) : bool :=
  let n := nat_of_ascii c in
  (((65 <=? n) && (n <=? 90)) || ((97 <=? n) && (n <=? 122))
   || (n =? 95))%nat.

Definition name_char (c : ascii) : bool :=
  let n := nat_of_ascii c in
  (name_start c || ((48 <=? n) && (n <=? 57)) || (n =? 45) || (n =? 46))%nat.

(** The longest prefix of characters satisfying [p], and the rest. *)
Fixpoint span (p : ascii -> bool) (s : str) : str * str :=
  match s with
  | [] => ([], [])
  | c :: s' =>
      if p c then let '(a, b) := span p s' in (c :: a, b) else ([], s)
  end.

(** End-of-line handling of XML 1.0, section 2.11, applied to the document
    before it is parsed. *)
Definition normalize_eol : str -> str := universal_newlines.

Definition digit_value (c : ascii) : option nat :=
  let n := nat_of_ascii c in
  if ((48 <=? n) && (n <=? 57))%nat then Some (n - 48)
  else if ((97 <=? n) && (n <=? 102))%nat then Some (n - 87)
  else if ((65 <=? n) && (n <=? 70))%nat then Some (n - 55)
  else None.

Fixpoint number (base : nat) (acc : nat) (s : str) : option nat :=
  match s with
  | [] => Some acc
  | c :: s' =>
      match digit_value c with
      | Some d => if (d <? base)%nat then number base (acc * base + d) s' else None
      | None => None
      end
  end.

(** The character a reference stands for, given the text between [&] and
    [;]. *)
Definition reference (name : str) : option ascii :=
  if bool_decide (name = "lt") then Some "<"%char
  else if bool_decide (name = "gt") then Some ">"%char
  else if bool_decide (name = "amp") then Some "&"%char
  else if bool_decide (name = "quot") then Some DQ
  else if bool_decide (name = "apos") then Some "'"%char
  else
    match name with
    | "#"%char :: "x"%char :: (_ :: _) as digits =>
        match number 16 0 digits with
        | Some n => if (n <? 256)%nat && xml_char (ascii_of_nat n)
                    then Some (ascii_of_nat n) else None
        | None => None
        end
    | "#"%char :: (_ :: _) as digits =>
        match number 10 0 digits with
        | Some n => if (n <? 256)%nat && xml_char (ascii_of_nat n)
                    then Some (ascii_of_nat n) else None
        | None => None
        end
    | _ => None
    end.

(** Character data up to the next [<] (or, in an attribute value, up to
    the closing [quote]), references expanded.  In an attribute value the
    literal white space is normalised to spaces. *)
Fixpoint chars (fuel : nat) (quote : option ascii) (s : str) : str + (str * str) :=
  match fuel with
  | O => inl invalid_token
  | S fuel =>
      match s with
      | [] => match quote with None => inr ([], []) | Some _ => err "unclosed token" end
      | c :: s' =>
          if is_char c "<" then
            match quote with None => inr ([], s) | Some _ => inl invalid_token end
          else if match quote with Some q => is_char c q | None => false end then
            inr ([], s')
          else if is_char c "&" then
            match partition ";" s' with
            | None => inl invalid_token
            | Some (name, rest) =>
                match reference name with
                | None => inl invalid_token
                | Some ch =>
                    match chars fuel quote rest with
                    | inl e => inl e
                    | inr (d, r) => inr (ch :: d, r)
                    end
                end
            end
          else if negb (xml_char c) then inl invalid_token
          else if match quote with None => startswith "]]>" s | Some _ => false end then
            inl invalid_token
          else
            match chars fuel quote s' with
            | inl e => inl e
            | inr (d, r) =>
                inr ((if match quote with Some _ => xml_space c | None => false end
                      then " "%char else c) :: d, r)
            end
      end
  end.

(** The attributes of a start tag, after its name, up to [>] or [/>]; the
    boolean tells an empty-element tag. *)
Fixpoint attributes_of (fuel : nat) (seen : list (str * str)) (s : str)
    : str + (list (str * str) * bool * str) :=
  match fuel with
  | O => inl invalid_token
  | S fuel =>
      let '(ws, s1) := span xml_space s in
      match s1 with
      | [] => err "unclosed token"
      | c :: s2 =>
          if is_char c ">" then inr (seen, false, s2)
          else if startswith "/>" s1 then inr (seen, true, drop 2 s1)
          else if bool_decide (ws = []) then inl invalid_token
          else
            let '(name, s3) := span name_char s1 in
            if negb (name_start c) then inl invalid_token
            else
              let '(_, s4) := span xml_space s3 in
              match s4 with
              | e :: s5 =>
                  if negb (is_char e "=") then inl invalid_token
                  else
                    let '(_, s6) := span xml_space s5 in
                    match s6 with
                    | q :: s7 =>
                        if is_char q DQ || is_char q "'" then
                          match chars (S (length s7)) (Some q) s7 with
                          | inl err => inl err
                          | inr (value, s8) =>
                              if bool_decide (name ∈ seen.*1) then err "duplicate attribute"
                              else attributes_of fuel (seen ++ [(name, value)]) s8
                          end
                        else inl invalid_token
                    | [] => err "unclosed token"
                    end
              | [] => err "unclosed token"
              end
      end
  end.

(** The tokens of a document. *)
Fixpoint tokens (fuel : nat) (s : str) : str + list Token :=
  match fuel with
  | O => inl invalid_token
  | S fuel =>
      let continue (t : Token) (rest : str) :=
        match tokens fuel rest with
        | inl e => inl e
        | inr ts => inr (t :: ts)
        end in
      match s with
      | [] => inr []
      | c :: s' =>
          if negb (is_char c "<") then
            match chars (S (length s)) None s with
            | inl e => inl e
            | inr (d, rest) =>
                continue (TChars d (forallb xml_space (take (length s - length rest) s))) rest
            end
          else if startswith "!--" s' then
            match partition "-->" (drop 3 s') with
            | None => err "unclosed token"
            | Some (body, rest) =>
                if contains "--" body || negb (forallb xml_char body)
                then inl invalid_token
                else continue (TComment body) rest
            end
          else if startswith "![CDATA[" s' then
            match partition "]]>" (drop 8 s') with
            | None => err "unclosed CDATA section"
            | Some (body, rest) =>
                if negb (forallb xml_char body) then inl invalid_token
                else continue (TCData body) rest
            end
          else if startswith "?xml" s' then
            match partition "?>" s' with
            | None => err "unclosed token"
            | Some (_, rest) => continue TDecl rest
            end
          else if startswith "/" s' then
            let '(name, s1) := span name_char (drop 1 s') in
            let '(_, s2) := span xml_space s1 in
            match name, s2 with
            | n :: _, g :: rest =>
                if name_start n && is_char g ">" then continue (TEnd name) rest
                else inl invalid_token
            | _, [] => err "unclosed token"
            | [], _ => inl invalid_token
            end
          else
            let '(name, s1) := span name_char s' in
            match name with
            | n :: _ =>
                if name_start n then
                  match attributes_of (S (length s1)) [] s1 with
                  | inl e => inl e
                  | inr (attrs, empty, rest) =>
                      continue (if empty then TEmpty name attrs else TStart name attrs) rest
                  end
                else inl invalid_token
            | [] => inl invalid_token
            end
      end
  end.

(** Appending character data to the children of the current node: text that
    follows text extends the last [Text] node. *)
Definition append_chars (d : str) (children : list Node) : list Node :=
  match d with
  | [] => children
  | _ :: _ =>
      match children with
      | TextNode d0 :: rest => TextNode (d0 ++ d) :: rest
      | _ => TextNode d :: children
      end
  end.

(** The tree builder: [stack] holds the open elements, innermost first, each
    with its children in reverse order; [top] the children of the document
    in reverse order; [rooted] tells that the document element is closed. *)
Fixpoint build (ts : list Token) (stack : list (str * list (str * str) * list Node))
    (top : list Node) (rooted : bool) (first : bool) : str + list Node :=
  let junk : str + list Node := err "junk after document element" in
  match ts with
  | [] =>
      match stack with
      | [] => if rooted then inr (rev top) else err "no element found"
      | _ :: _ => err "no element found"
      end
  | t :: ts' =>
      let add (n : Node) :=
        match stack with
        | (name, attrs, ch) :: st => build ts' ((name, attrs, n :: ch) :: st) top rooted false
        | [] => build ts' [] (n :: top) rooted false
        end in
      match t with
      | TDecl => if first then build ts' stack top rooted false
                 else err "XML or text declaration not at start of entity"
      | TComment d => add (CommentNode d)
      | TChars d blank =>
          match stack with
          | (name, attrs, ch) :: st =>
              build ts' ((name, attrs, append_chars d ch) :: st) top rooted false
          | [] =>
              if blank then build ts' [] top rooted false
              else if rooted then junk else err "syntax error"
          end
      | TCData d =>
          match stack with
          | (name, attrs, ch) :: st =>
              build ts' ((name, attrs,
                          match d with [] => ch | _ :: _ => CDATASectionNode d :: ch end)
                         :: st) top rooted false
          | [] => if rooted then junk else err "syntax error"
          end
      | TStart name attrs =>
          match stack with
          | [] => if rooted then junk
                  else build ts' [(name, attrs, [])] top rooted false
          | _ :: _ => build ts' ((name, attrs, []) :: stack) top rooted false
          end
      | TEmpty name attrs =>
          match stack with
          | [] => if rooted then junk
                  else build ts' [] (ElementNode name attrs [] :: top) true false
          | (name0, attrs0, ch) :: st =>
              build ts' ((name0, attrs0, ElementNode name attrs [] :: ch) :: st)
                top rooted false
          end
      | TEnd name =>
          match stack with
          | [] => if rooted then junk else inl invalid_token
          | (name0, attrs0, ch) :: st =>
              if bool_decide (name = name0) then
                let node := ElementNode name0 attrs0 (rev ch) in
                match st with
                | [] => build ts' [] (node :: top) true false
                | (name1, attrs1, ch1) :: st1 =>
                    build ts' ((name1, attrs1, node :: ch1) :: st1) top rooted false
                end
              else err "mismatched tag"
          end
      end
  end.

(** [expat] on a whole document: the children of the document node. *)
Definition parse (s : str) : str + list Node :=
  let s := normalize_eol s in
  match tokens (S (length s)) s with
  | inl e => inl e
  | inr ts => build ts [] [] false true
  end.

(** [_write_data] *)
Definition write_data (data : str) : str :=
  replace ">" "&gt;" (replace [DQ] "&quot;" (replace "<" "&lt;" (replace "&" "&amp;" data))).

(** [Node.writexml(writer, indent, addindent, newl)] of the four node
    classes; the text is what reaches the writer. *)
Fixpoint writexml (node : Node) (indent addindent newl : str) : str :=
  match node with
  | TextNode data => write_data (indent ++ data ++ newl)
  | CDATASectionNode data => "<![CDATA[" ++ data ++ "]]>"
  | CommentNode data => indent ++ "<!--" ++ data ++ "-->" ++ newl
  | ElementNode tagName attrs childNodes =>
      indent ++ "<" ++ tagName
      ++ flat_map (fun a => " " ++ a.1 ++ "=" ++ [DQ] ++ write_data a.2 ++ [DQ]) attrs
      ++ match childNodes with
         | [] => "/>" ++ newl
         | [TextNode data] => ">" ++ write_data data ++ "</" ++ tagName ++ ">" ++ newl
         | [CDATASectionNode data] =>
             ">" ++ "<![CDATA[" ++ data ++ "]]>" ++ "</" ++ tagName ++ ">" ++ newl
         | _ =>
             ">" ++ newl
             ++ (fix each (ns : list Node) : str :=
                   match ns with
                   | [] => []
                   | n :: ns' => writexml n (indent ++ addindent) addindent newl ++ each ns'
                   end) childNodes
             ++ indent ++ "</" ++ tagName ++ ">" ++ newl
         end
  end.

(** [Document.toprettyxml(indent, newl="\n", encoding)], decoded: the text
    is encoded with the error handler [xmlcharrefreplace], which writes a
    character reference for each character the codec cannot encode, and the
    script decodes the bytes with the same codec. *)
Definition toprettyxml (doc : list Node) (indent encoding : str) : str + str :=
  let text :=
    "<?xml " ++ "version=" ++ [DQ] ++ "1.0" ++ [DQ]
    ++ " encoding=" ++ [DQ] ++ encoding ++ [DQ] ++ "?>" ++ [LF]
    ++ flat_map (fun n => writexml n [] indent [LF]) doc in
  match PyCodecs.lookup encoding with
  | Some PyCodecs.ASCII => inr (PyCodecs.ascii_charrefs text)
  | Some _ => inr text
  | None => inl (PyCodecs.unknown_encoding encoding)
  end.

(** [ET.fromstring]: the document element, its tag and its attributes. *)
Definition fromstring (s : str) : str + Element :=
  match parse s with
  | inl e => inl e
  | inr doc =>
      match List.find (fun n => match n with ElementNode _ _ _ => true | _ => false end) doc with
      | Some (ElementNode t a _) => inr {| tag := t; attrib := a |}
      | _ => err "no element found"
      end
  end.

End MiniDom.

#[export] Program Instance minidom : XmlLibrary := {|
  ET_fromstring := MiniDom.fromstring;
  Document := list MiniDom.Node;
  parseString := MiniDom.parse;
  toprettyxml := MiniDom.toprettyxml
|}.
Next Obligation.
  intros dom indent encoding pretty_xml H. unfold MiniDom.toprettyxml in H.
  destruct (PyCodecs.lookup encoding) as [[| |]|]; [| |..]; try done;
    injection H as <-; eexists; reflexivity.
Qed.

(** * Specification vocabulary

    The notions the properties below are stated with.  None of them is part
    of the script. *)

(** ** Texts *)

(** An occurrence of [p] in [s]. *)
Definition occurs (p s : str) : Prop := exists a b, s = a ++ p ++ b.

(** [old] matches at no position inside [x] when [x] is followed by [r]. *)
Definition clear (p x r : str) : Prop :=
  forall y z, x = y ++ z -> z <> [] -> ~ p `prefix_of` (z ++ r).

(** [clear], decided. *)
Fixpoint clearb (p x r : str) : bool :=
  match x with
  | [] => true
  | _ :: x' => negb (startswith p (x ++ r)) && clearb p x' r
  end.

(** A text made of white space only (the empty text included). *)
Definition blank (s : str) : Prop := forallb isspace s = true.

(** A text that neither starts nor ends with white space. *)
Definition trimmed (s : str) : Prop := lstrip s = s /\ rstrip s = s.



(** ** The vault *)

(** The pairs [(placeholder, original)] for originals numbered from [i]. *)
Fixpoint section_table (i : nat) (originals : list str) : list (str * str) :=
  match originals with
  | [] => []
  | m :: ms => (placeholder i, m) :: section_table (S i) ms
  end.

(** The text made of the gaps and matches [segs] and the text [tail] after
    the last match, with [token i m] in place of the [i]-th match [m]. *)
Fixpoint rebuild (token : nat -> str -> str) (i : nat) (segs : list (str * str))
    (tail : str) : str :=
  match segs with
  | [] => tail
  | (gap, m) :: segs' => gap ++ token i m ++ rebuild token (S i) segs' tail
  end.

(** The text of a scan with the tokens in place of the sections. *)
Abbreviation with_tokens := (rebuild (fun k _ => placeholder k)).

(** The text of a scan with the sections in place. *)
Abbreviation with_sections := (rebuild (fun _ m => m) 0).

(** No opener of the text is followed, anywhere later, by a closer: the
    pattern matches nowhere. *)
Definition no_section (s : str) : Prop :=
  forall a b c, s <> a ++ cdata_open ++ b ++ cdata_close ++ c.

(** [cdata_scan s segs tail]: the matches of the pattern in [s], from left to
    right, each with the text that separates it from the previous one, and
    the text after the last one.  A match starts at the first opener after
    the previous match (the leftmost start at which the pattern can match)
    and ends with the first closer after that opener (the lazy quantifier
    takes as little as it can). *)
Inductive cdata_scan : str -> list (str * str) -> str -> Prop :=
  | scan_done tail : no_section tail -> cdata_scan tail [] tail
  | scan_section gap body rest segs tail :
      clear cdata_open gap (cdata_open ++ body ++ cdata_close ++ rest) ->
      clear cdata_close body (cdata_close ++ rest) ->
      cdata_scan rest segs tail ->
      cdata_scan (gap ++ cdata_open ++ body ++ cdata_close ++ rest)
                 ((gap, cdata_open ++ body ++ cdata_close) :: segs) tail.

(** The match objects of a scan that starts at index [pos]. *)
Fixpoint matches_of (pos : nat) (segs : list (str * str)) : list Match :=
  match segs with
  | [] => []
  | (gap, m) :: segs' =>
      {| m_start := pos + length gap; m_end := pos + length gap + length m;
         group0 := m |}
        :: matches_of (pos + length gap + length m) segs'
  end.

(** Decimal digits. *)
Definition is_digit (c : ascii) : Prop :=
  (48 <= nat_of_ascii c <= 57)%nat.

(** No section text occurs again in the text that follows the section. *)
Fixpoint no_repeat (segs : list (str * str)) (tail : str) : Prop :=
  match segs with
  | [] => True
  | (gap, m) :: segs' =>
      ~ occurs m (rebuild (fun _ m => m) 0 segs' tail) /\ no_repeat segs' tail
  end.

(** A text in which the opener matches nowhere, whatever follows. *)
Definition opener_free (pre : str) : Prop := forall r, clear cdata_open pre r.

(** The word every token holds. *)
Definition sentinel_word : str := "CDATA_PLACEHOLDER".

(** A text in which the word does not occur. *)
Definition word_free (x : str) : Prop := ~ occurs sentinel_word x.

(** What may follow a gap or a token in a text that holds tokens: nothing,
    or a token. *)
Definition token_or_end (r : str) : Prop :=
  r = [] \/ exists j r', r = placeholder j ++ r'.

(** How often each token occurs in the text at the moment the restoring loop
    replaces it. *)
Fixpoint restore_counts (cdata_sections : list (str * str)) (pretty_xml : str)
    : list nat :=
  match cdata_sections with
  | [] => []
  | po :: rest =>
      count po.1 pretty_xml :: restore_counts rest (replace po.1 po.2 pretty_xml)
  end.

(** Matches that follow one another from index [pos] on without overlap. *)
Fixpoint in_order (pos : nat) (ms : list Match) : Prop :=
  match ms with
  | [] => True
  | m :: ms' => pos <= m_start m /\ m_start m < m_end m /\ in_order (m_end m) ms'
  end.

(** The index of the first of [originals] with the text [m]. *)
Fixpoint first_index (m : str) (originals : list str) : nat :=
  match originals with
  | [] => 0
  | m' :: ms => if decide (m' = m) then 0 else S (first_index m ms)
  end.

(** No section is the end of a longer, later section. *)
Fixpoint unnested (originals : list str) : Prop :=
  match originals with
  | [] => True
  | m :: ms => Forall (fun m' => m `suffix_of` m' -> m' = m) ms /\ unnested ms
  end.

(** The token that stands for the section [m] in the working text of a
    document whose sections are [originals]: the token of the first section
    with the text of [m]. *)
Definition token_of (originals : list str) (m : str) : str :=
  placeholder (first_index m originals).

(** What the round trip asks of the text the library prints for a working
    text: it holds, for each section in order, the token that stands for
    it, between texts that hold neither the sentinel word nor the opener. *)
Definition tokens_printed (originals : list str) (pretty_xml : str)
    (printed : list (str * str)) (printed_tail : str) : Prop :=
  pretty_xml = rebuild (fun _ m => token_of originals m) 0 printed printed_tail /\
  map snd printed = originals /\
  Forall (fun gm : str * str => word_free gm.1 /\ ~ occurs cdata_open gm.1) printed /\
  word_free printed_tail /\ ~ occurs cdata_open printed_tail.

(** ** The removal of the blank lines *)

(** The first and the last line of a text. *)
Definition first_line (s : str) : str := default [] (head (split LF s)).
Definition last_line (s : str) : str := default [] (last (split LF s)).

(** What the removal of the blank lines leaves of a text that a visible
    character follows on its last line: that line stays. *)
Definition tidy_until (x : str) : str :=
  join [LF] (non_empty_lines (removelast (split LF x)) ++ [last_line x]).

(** What it leaves of a text that follows a visible character on its first
    line: that line stays. *)
Definition tidy_after (r : str) : str :=
  join [LF] (first_line r :: non_empty_lines (tail (split LF r))).

(** What it leaves of a text between two visible characters: the first and
    the last line stay. *)
Definition tidy_gap (x : str) : str :=
  match split LF x with
  | l :: (_ :: _) as ls =>
      join [LF] (l :: non_empty_lines (removelast ls) ++ [default [] (last ls)])
  | _ => x
  end.

(** What it leaves of the texts around the tokens of a printed text. *)
Definition tidy_pieces (printed : list (str * str)) (printed_tail : str)
    : list (str * str) * str :=
  match printed with
  | [] => ([], join [LF] (non_empty_lines (split LF printed_tail)))
  | (gap, m) :: rest =>
      ((tidy_until gap, m) :: map (fun gm : str * str => (tidy_gap gm.1, gm.2)) rest,
       tidy_after printed_tail)
  end.

(** ** Worlds *)

(** The world [w] with more records in its log. *)
Definition logged (w : World) (records : list LogRecord) : World :=
  {| files := files w; readonly := readonly w; walk := walk w;
     log := log w ++ records |}.

(** Two worlds that differ in their logs at most. *)
Definition same_store (w1 w2 : World) : Prop :=
  files w1 = files w2 /\ readonly w1 = readonly w2 /\ walk w1 = walk w2.

(** A computation that neither reads the log nor lets it decide anything. *)
Definition log_blind {A : Type} (m : IO A) : Prop :=
  forall w1 w2, same_store w1 w2 ->
    (m w1).1 = (m w2).1 /\ same_store (m w1).2 (m w2).2.

(** A log record. *)
Definition record (lv : Level) (msg : str) : LogRecord :=
  {| levelname := lv; message := msg |}.

(** The text a read of [path] with [encoding] gives, when the file is there
    and its bytes can be decoded. *)
Definition text_of `{Codecs} (encoding : str) (w : World) (path : str) : option str :=
  match files w !! path with
  | Some data =>
      match decode encoding data with
      | inr text => Some (universal_newlines text)
      | inl _ => None
      end
  | None => None
  end.

(** [str(e)] of the exception a read raises when it fails. *)
Definition read_error `{Codecs} (encoding : str) (w : World) (path : str) : str :=
  match files w !! path with
  | Some data => match decode encoding data with inl e => e | inr _ => [] end
  | None => errno_ENOENT path
  end.

(** The warnings of [validate_xml_structure] for a document that parses. *)
Definition validation_warnings (path : str) (root : Element) : list LogRecord :=
  if bool_decide (path_name path = "addon.xml") then
    (if bool_decide (tag root <> "addon") then
       [record WARNING ("addon.xml should have 'addon' as root element in " ++ path)]
     else [])
    ++ (if bool_decide (missing_attrs root <> []) then
          [record WARNING ("Missing required attributes in " ++ path ++ ": "
                           ++ repr_list (missing_attrs root))]
        else [])
  else [].

(** The counters after [format_xml_file] has returned [formatted]. *)
Definition counted (c : Counters) (formatted : bool) : Counters :=
  if formatted then
    {| formatted_count := formatted_count c + 1; error_count := error_count c;
       validation_errors := validation_errors c |}
  else
    {| formatted_count := formatted_count c; error_count := error_count c + 1;
       validation_errors := validation_errors c |}.

(** The counters after a validation has failed. *)
Definition invalid (c : Counters) : Counters :=
  {| formatted_count := formatted_count c; error_count := error_count c;
     validation_errors := validation_errors c + 1 |}.

(** ** The batch *)

(** A path in which no exclude pattern occurs. *)
Definition kept (exclude_patterns : list str) (file_path : str) : Prop :=
  Forall (fun pattern => ~ occurs pattern file_path) exclude_patterns.

(** The records [find_xml_files] logs for the paths it excludes: one for each
    path in which a pattern occurs, naming the first such pattern. *)
Fixpoint exclusion_records (exclude_patterns found : list str) : list LogRecord :=
  match found with
  | [] => []
  | file_path :: found' =>
      match List.find (fun pattern => contains pattern file_path) exclude_patterns with
      | Some pattern =>
          record INFO ("Excluding: " ++ file_path ++ " (matches pattern: "
                       ++ pattern ++ ")")
            :: exclusion_records exclude_patterns found'
      | None => exclusion_records exclude_patterns found'
      end
  end.

(** The paths a run of the loop over [xml_files] may write: the files and
    their backups. *)
Definition may_write (xml_files : list str) (q : str) : Prop :=
  exists p, p ∈ xml_files /\ (q = p \/ q = p ++ ".bak").

(** ** The vault and the library stage *)

Section LibraryVocabulary.
Context {lib : XmlLibrary} {codecs : Codecs}.

(** A file that [format_xml_file] finds formatted already: it reads, is not
    blank, parses, and its formatted text differs from it by surrounding
    white space at most. *)
Definition up_to_date (indent encoding : str) (w : World) (path : str) : Prop :=
  exists original formatted,
    text_of encoding w path = Some original /\ strip original <> [] /\
    (exists root, ET_fromstring original = inr root) /\
    pretty_print_xml_try original encoding indent true = inr formatted /\
    needs_write original formatted = false.

End LibraryVocabulary.

(** ** Concrete worlds and documents *)

(** A world with the given files, all writable, and an empty log. *)
Definition disk (contents : list (str * str)) : World :=
  {| files := list_to_map contents; readonly := ∅;
     walk := fun _ => Missing; log := [] |}.

(** The default configuration. *)
Definition four_spaces : str := "    ".

Definition utf8 : str := "UTF-8".

(** The declaration the printer writes for that encoding, with its line
    feed. *)
Definition xml_declaration : str :=
  "<?xml version=" ++ [DQ] ++ "1.0" ++ [DQ] ++ " encoding=" ++ [DQ] ++ "UTF-8"
  ++ [DQ] ++ "?>" ++ [LF].

Definition no_counters : Counters :=
  {| formatted_count := 0; error_count := 0; validation_errors := 0 |}.

(** A manifest without [version] and [provider-name]. *)
Definition manifest_two_missing : str := "<addon id='x' name='n'><e/></addon>".

(** A manifest whose second literal section ends with the text of the
    first. *)
Definition manifest_nested_opener : str :=
  "<addon><![CDATA[a]]><![CDATA[<![CDATA[a]]></addon>".

(** A document with two literal sections, and its scan. *)
Definition two_sections : str := "<a><![CDATA[x]]><b/><![CDATA[y]]></a>".

Definition two_sections_segs : list (str * str) :=
  [("<a>" : str, "<![CDATA[x]]>" : str); ("<b/>" : str, "<![CDATA[y]]>" : str)].

(** Documents that hold the text of tokens. *)
Definition token_in_document : str := "<a>__CDATA_PLACEHOLDER_0__<![CDATA[x]]></a>".

(** The text the library stage makes of the working text of [two_sections],
    cut at its tokens. *)
Definition two_sections_printed : list (str * str) :=
  [(xml_declaration ++ "<a>" ++ [LF] ++ "    ", "<![CDATA[x]]>" : str);
   ([LF] ++ "    <b/>" ++ [LF] ++ "    ", "<![CDATA[y]]>" : str)].

(** The text [pretty_print_xml] returns for [two_sections]. *)
Definition two_sections_formatted : str :=
  xml_declaration ++ "<a>" ++ [LF] ++ "    <![CDATA[x]]>" ++ [LF] ++ "    <b/>"
  ++ [LF] ++ "    <![CDATA[y]]>" ++ [LF] ++ "</a>" ++ [LF].

(** The end of the text the library stage prints for a working text whose
    root element ends it. *)
Definition root_end : str := [LF] ++ "</a>" ++ [LF].

(** The text the library stage prints on the second pass for
    [two_sections], cut at its tokens: each line of the first pass is
    followed by a line of white space. *)
Definition two_sections_reprinted : list (str * str) :=
  [(xml_declaration ++ "<a>" ++ [LF] ++ "    " ++ [LF] ++ "    ", "<![CDATA[x]]>" : str);
   ([LF] ++ "    " ++ [LF] ++ "    <b/>" ++ [LF] ++ "    " ++ [LF] ++ "    ",
    "<![CDATA[y]]>" : str)].

(** The texts the library stage prints for [two_sections] on the first and
    on the second pass. *)
Definition two_sections_pretty : str := with_tokens 0 two_sections_printed root_end.

Definition two_sections_pretty_again : str :=
  with_tokens 0 two_sections_reprinted ([LF] ++ root_end).

(** A document with two literal sections of the same text, its scan, and
    the text the library stage prints for its working text, cut at its
    tokens. *)
Definition twin_sections : str := "<a><![CDATA[x]]><b/><![CDATA[x]]></a>".

Definition twin_sections_segs : list (str * str) :=
  [("<a>" : str, "<![CDATA[x]]>" : str); ("<b/>" : str, "<![CDATA[x]]>" : str)].

Definition twin_sections_printed : list (str * str) :=
  [(xml_declaration ++ "<a>" ++ [LF] ++ "    ", "<![CDATA[x]]>" : str);
   ([LF] ++ "    <b/>" ++ [LF] ++ "    ", "<![CDATA[x]]>" : str)].

Definition twin_sections_formatted : str :=
  xml_declaration ++ "<a>" ++ [LF] ++ "    <![CDATA[x]]>" ++ [LF] ++ "    <b/>"
  ++ [LF] ++ "    <![CDATA[x]]>" ++ [LF] ++ "</a>" ++ [LF].


(** The documents of the two scenarios of the specification. *)
Definition nested_element : str := "<a><b>x</b></a>".

Definition nested_element_formatted : str :=
  xml_declaration ++ "<a>" ++ [LF] ++ "    <b>x</b>" ++ [LF] ++ "</a>" ++ [LF].

Definition raw_note : str :=
  "<note><![CDATA[<raw text=" ++ [DQ] ++ "&" ++ [DQ] ++ ">]]></note>".

(** A directory with three XML files, the second one with an unclosed
    tag. *)
Definition addon_tree : World :=
  {| files := list_to_map [("addon/a.xml" : str, nested_element);
                           ("addon/b.xml" : str, "<a>" : str);
                           ("addon/old/c.xml" : str, two_sections)];
     readonly := ∅;
     walk := fun directory =>
       if bool_decide (directory = "addon")
       then Directory ["addon/a.xml" : str; "addon/b.xml" : str; "addon/old/c.xml" : str]
       else Missing;
     log := [] |}.

(** A document with a literal section that holds a blank line. *)
Definition spaced_section : str :=
  "<a><![CDATA[x" ++ [LF] ++ [LF] ++ "y]]></a>".

(** * Properties *)

(** ** Facts about the string primitives *)

Section StringFacts.
Implicit Types (s p old new sep : str) (c : ascii).

Lemma startswith_prefix p s : startswith p s = true <-> p `prefix_of` s.
Proof.
  revert s; induction p as [|a p IH]; intros [|b s]; simpl.
  - split; [intros _; apply prefix_nil | done].
  - split; [intros _; apply prefix_nil | done].
  - split; [done | intros H; by apply prefix_nil_not in H].
  - rewrite andb_true_iff, IH. split.
    + intros [Hab Hp]. apply Ascii.eqb_eq in Hab as ->. by apply prefix_cons.
    + intros H. pose proof (prefix_cons_inv_1 _ _ _ _ H) as ->.
      apply prefix_cons_inv_2 in H. split; [apply Ascii.eqb_refl | done].
Qed.

Lemma startswith_app p s : startswith p (p ++ s) = true.
Proof. apply startswith_prefix. by apply prefix_app_r. Qed.

Lemma startswith_false p s : startswith p s = false <-> ~ p `prefix_of` s.
Proof. rewrite <- startswith_prefix. by destruct (startswith p s). Qed.

Lemma occurs_cons p c s : occurs p (c :: s) <-> p `prefix_of` (c :: s) \/ occurs p s.
Proof.
  split.
  - intros ([|a0 a] & b & H); simpl in H.
    + left. by exists b.
    + right. injection H as -> ->. by exists a, b.
  - intros [[b ->] | (a & b & ->)].
    + by exists [], b.
    + by exists (c :: a), b.
Qed.

Lemma occurs_nil p : occurs p [] <-> p = [].
Proof.
  split.
  - intros (a & b & H). symmetry in H. apply app_eq_nil in H as [_ H].
    by apply app_eq_nil in H as [-> _].
  - intros ->. by exists [], [].
Qed.

Lemma occurs_app_l p s t : occurs p s -> occurs p (s ++ t).
Proof. intros (a & b & ->). exists a, (b ++ t). by rewrite <- !app_assoc. Qed.

Lemma occurs_app_r p s t : occurs p t -> occurs p (s ++ t).
Proof. intros (a & b & ->). exists (s ++ a), b. by rewrite <- !app_assoc. Qed.

Lemma clear_nil p r : clear p [] r.
Proof. intros y z H Hz. symmetry in H. apply app_eq_nil in H as [_ ->]. done. Qed.

Lemma clear_cons p c x r :
  clear p (c :: x) r <-> ~ p `prefix_of` (c :: x ++ r) /\ clear p x r.
Proof.
  split.
  - intros H. split.
    + by apply (H [] (c :: x)).
    + intros y z -> Hz. by apply (H (c :: y) z).
  - intros [H0 H] [|c' y] z Hyz Hz; simpl in Hyz.
    + by subst z.
    + injection Hyz as -> ->. by apply (H y z).
Qed.

Lemma clear_app p x y r : clear p x (y ++ r) -> clear p y r -> clear p (x ++ y) r.
Proof.
  induction x as [|c x IH]; simpl; [done|].
  rewrite !clear_cons. intros [H0 Hx] Hy. split.
  - by rewrite <- app_assoc.
  - by apply IH.
Qed.

(** A prefix match cannot reach a character the pattern does not contain. *)
Lemma prefix_cut p z c r : c ∉ p -> p `prefix_of` (z ++ c :: r) -> p `prefix_of` z.
Proof.
  revert z. induction p as [|a p IH]; intros z Hc H.
  - apply prefix_nil.
  - destruct z as [|b z]; simpl in H.
    + pose proof (prefix_cons_inv_1 _ _ _ _ H) as ->. set_solver.
    + pose proof (prefix_cons_inv_1 _ _ _ _ H) as ->.
      apply prefix_cons, IH; [set_solver | by apply prefix_cons_inv_2 in H].
Qed.

(** Changing what follows [x] to something that starts with a character
    foreign to the tail of the pattern keeps [x] clear. *)
Lemma clear_context p x r c r' :
  c ∉ tail p -> clear p x r -> clear p x (c :: r').
Proof.
  intros Hc H y z Hyz Hz Hp. apply (H y z Hyz Hz).
  destruct p as [|a p]; [apply prefix_nil|]. destruct z as [|b z]; [done|].
  simpl in *. pose proof (prefix_cons_inv_1 _ _ _ _ Hp) as ->.
  apply prefix_cons_inv_2 in Hp. apply prefix_cons.
  apply prefix_app_r. by apply (prefix_cut p z c r').
Qed.

(** A text without the first character of the pattern is clear. *)
Lemma clear_head p a x r : head p = Some a -> a ∉ x -> clear p x r.
Proof.
  intros Hp Ha y z -> Hz H. destruct p as [|a' p]; [done|]. injection Hp as ->.
  destruct z as [|b z]; [done|]. simpl in H.
  pose proof (prefix_cons_inv_1 _ _ _ _ H) as ->. set_solver.
Qed.

Lemma clear_not_occurs p x : p <> [] -> clear p x [] <-> ~ occurs p x.
Proof.
  intros Hne. split.
  - intros H (a & b & ->). apply (H a (p ++ b)); [done| |].
    + by destruct p.
    + rewrite app_nil_r. by apply prefix_app_r.
  - intros H y z -> Hz [k Hk]. rewrite app_nil_r in Hk. subst z.
    apply H. by exists y, k.
Qed.

Lemma partition_Some sep s before after :
  partition sep s = Some (before, after) ->
  s = before ++ sep ++ after /\ clear sep before (sep ++ after).
Proof.
  revert before after. induction s as [|c s IH]; intros before after.
  - simpl. destruct (startswith sep []) eqn:E; [|done].
    intros [= <- <-]. apply startswith_prefix in E. apply prefix_nil_inv in E as ->.
    split; [done | apply clear_nil].
  - cbn [partition]. destruct (startswith sep (c :: s)) eqn:E.
    + intros [= <- <-]. apply startswith_prefix in E as [k Hk].
      rewrite Hk, drop_app_length. split; [done | apply clear_nil].
    + destruct (partition sep s) as [[b a]|] eqn:Hp; [|done].
      intros [= <- <-]. destruct (IH _ _ eq_refl) as [-> Hc]. split; [done|].
      apply clear_cons. split; [|done]. by apply startswith_false in E.
Qed.

Lemma partition_None sep s : partition sep s = None -> ~ occurs sep s.
Proof.
  induction s as [|c s IH].
  - simpl. destruct (startswith sep []) eqn:E; [done|]. intros _.
    rewrite occurs_nil. intros ->. done.
  - cbn [partition]. destruct (startswith sep (c :: s)) eqn:E; [done|].
    destruct (partition sep s) as [[b a]|] eqn:Hp; [done|]. intros _.
    rewrite occurs_cons. intros [H|H]; [by apply startswith_false in E | by apply IH].
Qed.

Lemma partition_first sep x r :
  clear sep x (sep ++ r) -> partition sep (x ++ sep ++ r) = Some (x, r).
Proof.
  induction x as [|c x IH]; intros H.
  - simpl app at 1. destruct (sep ++ r) as [|c s] eqn:E.
    + apply app_eq_nil in E as [-> ->]. done.
    + cbn [partition]. rewrite <- E, startswith_app, drop_app_length. done.
  - apply clear_cons in H as [H0 H]. simpl app. cbn [partition].
    apply startswith_false in H0. rewrite H0, (IH H). done.
Qed.

Lemma contains_occurs p s : contains p s = true <-> occurs p s.
Proof.
  unfold contains. destruct (partition p s) as [[b a]|] eqn:E.
  - apply partition_Some in E as [-> _]. split; [|done]. intros _. by exists b, a.
  - apply partition_None in E. split; [done | intros H; by destruct E].
Qed.

Lemma contains_false p s : contains p s = false <-> ~ occurs p s.
Proof. rewrite <- contains_occurs. by destruct (contains p s). Qed.

#[global] Instance occurs_dec p s : Decision (occurs p s).
Proof.
  refine (cast_if (decide (contains p s = true))); by rewrite <- contains_occurs.
Defined.

Lemma prefix_app_short p a b :
  p `prefix_of` (a ++ b) -> length p <= length a -> p `prefix_of` a.
Proof.
  intros H Hlen. destruct (prefix_weak_total p a (a ++ b) H) as [?|[k Hk]]; [|done|].
  { by apply prefix_app_r. }
  assert (k = []) as ->.
  { apply (f_equal length) in Hk. rewrite length_app in Hk.
    destruct k; [done|]. simpl in Hk. lia. }
  rewrite app_nil_r in Hk. by subst.
Qed.

(** A context long enough to hold any match that starts inside [x] can be
    extended freely. *)
Lemma clear_extend p x r y :
  length p <= S (length r) -> clear p x r -> clear p x (r ++ y).
Proof.
  intros Hlen H a z Hx Hz Hp. apply (H a z Hx Hz).
  rewrite app_assoc in Hp. apply prefix_app_short in Hp; [done|].
  rewrite length_app. destruct z; [done|]. simpl. lia.
Qed.

(** What follows the pattern's own occurrence after [x] does not matter. *)
Lemma clear_after_self p x r r' : clear p x (p ++ r) -> clear p x (p ++ r').
Proof.
  intros H a z Hx Hz Hp. apply (H a z Hx Hz).
  rewrite app_assoc in Hp. apply prefix_app_short in Hp.
  - rewrite app_assoc. by apply prefix_app_r.
  - rewrite length_app. lia.
Qed.

Lemma clear_longer p q x r : clear p x r -> clear (p ++ q) x r.
Proof. intros H a z Hx Hz Hp. apply (H a z Hx Hz). by apply prefix_app_l in Hp. Qed.

Lemma clearb_clear p x r : clearb p x r = true <-> clear p x r.
Proof.
  induction x as [|c x IH]; simpl.
  - split; [intros _; apply clear_nil | done].
  - rewrite clear_cons, andb_true_iff, negb_true_iff, IH.
    by rewrite <- (startswith_false p (c :: x ++ r)).
Qed.

(** *** [replace] and [count] *)

Lemma replace_scan_skip old new k s :
  replace_scan old new k s = replace_scan old new 0 (drop k s).
Proof.
  revert k. induction s as [|c s IH]; intros [|k]; simpl; auto.
Qed.

Lemma count_scan_skip old k s : count_scan old k s = count_scan old 0 (drop k s).
Proof.
  revert k. induction s as [|c s IH]; intros [|k]; simpl; auto.
Qed.

Lemma replace_nil old new : old <> [] -> replace old new [] = [].
Proof. by destruct old. Qed.

Lemma replace_match old new r :
  old <> [] -> replace old new (old ++ r) = new ++ replace old new r.
Proof.
  destruct old as [|a old]; [done|]. intros _. unfold replace.
  change ((a :: old) ++ r) with (a :: (old ++ r)). cbn [replace_scan].
  change (a :: old ++ r) with ((a :: old) ++ r). rewrite startswith_app.
  rewrite replace_scan_skip.
  replace (length (a :: old) - 1) with (length old) by (simpl; lia).
  rewrite drop_app_length. done.
Qed.

Lemma replace_cons old new c s :
  old <> [] -> ~ old `prefix_of` (c :: s) ->
  replace old new (c :: s) = c :: replace old new s.
Proof.
  destruct old as [|a old]; [done|]. intros _ H. unfold replace. cbn [replace_scan].
  apply startswith_false in H. rewrite H. done.
Qed.

Lemma replace_clear old new x r :
  old <> [] -> clear old x r -> replace old new (x ++ r) = x ++ replace old new r.
Proof.
  intros Hne. induction x as [|c x IH]; intros H; [done|].
  apply clear_cons in H as [H0 H]. simpl. rewrite replace_cons, IH; done.
Qed.

Lemma replace_absent old new s : old <> [] -> ~ occurs old s -> replace old new s = s.
Proof.
  intros Hne H. apply (clear_not_occurs _ _ Hne) in H.
  rewrite <- (app_nil_r s) at 1. rewrite replace_clear, replace_nil, app_nil_r; done.
Qed.

(** The occurrence at the end of [x] is the only one: it alone is replaced. *)
Lemma replace_once old new x r :
  old <> [] -> clear old x (old ++ r) -> ~ occurs old r ->
  replace old new (x ++ old ++ r) = x ++ new ++ r.
Proof.
  intros Hne Hx Hr. rewrite replace_clear, replace_match, replace_absent; done.
Qed.

Lemma count_nil old : old <> [] -> count old [] = 0.
Proof. by destruct old. Qed.

Lemma count_match old r : old <> [] -> count old (old ++ r) = S (count old r).
Proof.
  destruct old as [|a old]; [done|]. intros _. unfold count.
  change ((a :: old) ++ r) with (a :: (old ++ r)). cbn [count_scan].
  change (a :: old ++ r) with ((a :: old) ++ r). rewrite startswith_app.
  rewrite count_scan_skip.
  replace (length (a :: old) - 1) with (length old) by (simpl; lia).
  rewrite drop_app_length. done.
Qed.

Lemma count_cons old c s :
  old <> [] -> ~ old `prefix_of` (c :: s) -> count old (c :: s) = count old s.
Proof.
  destruct old as [|a old]; [done|]. intros _ H. unfold count. cbn [count_scan].
  apply startswith_false in H. rewrite H. done.
Qed.

Lemma count_clear old x r : old <> [] -> clear old x r -> count old (x ++ r) = count old r.
Proof.
  intros Hne. induction x as [|c x IH]; intros H; [done|].
  apply clear_cons in H as [H0 H]. simpl. rewrite count_cons, IH; done.
Qed.

Lemma count_absent old s : old <> [] -> ~ occurs old s -> count old s = 0.
Proof.
  intros Hne H. apply (clear_not_occurs _ _ Hne) in H.
  rewrite <- (app_nil_r s). rewrite count_clear, count_nil; done.
Qed.

Lemma count_once old x r :
  old <> [] -> clear old x (old ++ r) -> ~ occurs old r ->
  count old (x ++ old ++ r) = 1.
Proof.
  intros Hne Hx Hr. rewrite count_clear, count_match, count_absent; done.
Qed.

(** *** [strip] *)

Lemma blank_nil : blank [].
Proof. done. Qed.

Lemma blank_cons c s : blank (c :: s) <-> isspace c = true /\ blank s.
Proof. unfold blank. simpl. by rewrite andb_true_iff. Qed.

Lemma blank_app s t : blank (s ++ t) <-> blank s /\ blank t.
Proof. unfold blank. by rewrite forallb_app, andb_true_iff. Qed.

Lemma lstrip_blank s : blank s <-> lstrip s = [].
Proof.
  induction s as [|c s IH]; simpl; [done|]. rewrite blank_cons.
  destruct (isspace c); [|split; [intros [? _] | ]; done].
  rewrite <- IH. tauto.
Qed.

Lemma rstrip_blank s : blank s <-> rstrip s = [].
Proof.
  induction s as [|c s IH]; simpl; [done|]. rewrite blank_cons.
  destruct (rstrip s) as [|d r].
  - destruct (isspace c); [tauto|]. split; [intros [? _]|]; done.
  - split; [|done]. intros [_ H]. by apply IH in H.
Qed.

Lemma lstrip_app_blank l s : blank l -> lstrip (l ++ s) = lstrip s.
Proof.
  induction l as [|c l IH]; [done|]. rewrite blank_cons. intros [Hc Hl].
  simpl. by rewrite Hc, IH.
Qed.

Lemma rstrip_app_blank s r : blank r -> rstrip (s ++ r) = rstrip s.
Proof.
  intros Hr. induction s as [|c s IH]; simpl.
  - by apply rstrip_blank.
  - by rewrite IH.
Qed.

Lemma lstrip_app s t : lstrip s <> [] -> lstrip (s ++ t) = lstrip s ++ t.
Proof.
  induction s as [|c s IH]; simpl; [done|]. destruct (isspace c); auto.
Qed.

Lemma rstrip_app s t : rstrip t <> [] -> rstrip (s ++ t) = s ++ rstrip t.
Proof.
  intros Ht. induction s as [|c s IH]; simpl; [done|]. rewrite IH.
  destruct (s ++ rstrip t) eqn:E; [|done].
  apply app_eq_nil in E as [_ E]. done.
Qed.

Lemma lstrip_decompose s : exists l, s = l ++ lstrip s /\ blank l.
Proof.
  induction s as [|c s (l & Hl & Hb)]; simpl.
  - by exists [].
  - destruct (isspace c) eqn:E.
    + exists (c :: l). simpl. rewrite <- Hl. split; [done|]. by apply blank_cons.
    + by exists [].
Qed.

Lemma rstrip_decompose s : exists r, s = rstrip s ++ r /\ blank r.
Proof.
  induction s as [|c s (r & Hr & Hb)]; simpl.
  - by exists [].
  - destruct (rstrip s) as [|d t] eqn:E.
    + simpl in Hr. subst r. destruct (isspace c) eqn:Ec.
      * exists (c :: s). split; [done|]. by apply blank_cons.
      * by exists s.
    + exists r. split; [|done]. rewrite Hr at 1. done.
Qed.

Lemma lstrip_head s c t : lstrip s = c :: t -> isspace c = false.
Proof.
  induction s as [|d s IH]; simpl; [done|].
  destruct (isspace d) eqn:E; [done|]. by intros [= <- <-].
Qed.


Lemma rstrip_idemp s : rstrip (rstrip s) = rstrip s.
Proof.
  induction s as [|c s IH]; simpl; [done|].
  destruct (rstrip s) as [|d r] eqn:E.
  - destruct (isspace c) eqn:Ec; [done|]. simpl. by rewrite Ec.
  - simpl in *. rewrite IH. done.
Qed.

Lemma rstrip_keeps_head c s :
  isspace c = false -> exists t, rstrip (c :: s) = c :: t.
Proof.
  intros Hc. simpl. destruct (rstrip s); rewrite ?Hc; eauto.
Qed.

Lemma strip_trimmed s : trimmed (strip s).
Proof.
  unfold trimmed, strip. split; [|apply rstrip_idemp].
  destruct (lstrip s) as [|c t] eqn:E; [done|].
  destruct (rstrip_keeps_head c t (lstrip_head _ _ _ E)) as [t' ->].
  simpl. by rewrite (lstrip_head _ _ _ E).
Qed.

Lemma strip_decompose s :
  exists l r, s = l ++ strip s ++ r /\ blank l /\ blank r.
Proof.
  destruct (lstrip_decompose s) as (l & Hl & Hbl).
  destruct (rstrip_decompose (lstrip s)) as (r & Hr & Hbr).
  exists l, r. unfold strip. by rewrite <- Hr.
Qed.

(** [strip] removes the white space around a trimmed text, whatever its
    amount, and nothing else. *)
Lemma strip_unique l t r : blank l -> blank r -> trimmed t -> strip (l ++ t ++ r) = t.
Proof.
  intros Hl Hr [Ht1 Ht2]. unfold strip. rewrite lstrip_app_blank by done.
  destruct t as [|c t].
  - simpl. apply lstrip_blank in Hr as ->. done.
  - rewrite lstrip_app by (rewrite Ht1; done). rewrite Ht1, rstrip_app_blank; done.
Qed.

Lemma strip_blank s : blank s <-> strip s = [].
Proof.
  split.
  - intros H. unfold strip. apply lstrip_blank in H as ->. done.
  - intros H. destruct (strip_decompose s) as (l & r & Hs & Hl & Hr).
    rewrite H in Hs. rewrite Hs. by apply blank_app.
Qed.

Lemma strip_eq_iff s1 s2 :
  strip s1 = strip s2 <->
  exists l1 r1 l2 r2 t, s1 = l1 ++ t ++ r1 /\ s2 = l2 ++ t ++ r2 /\
    blank l1 /\ blank r1 /\ blank l2 /\ blank r2 /\ trimmed t.
Proof.
  split.
  - intros H. destruct (strip_decompose s1) as (l1 & r1 & E1 & ? & ?).
    destruct (strip_decompose s2) as (l2 & r2 & E2 & ? & ?).
    exists l1, r1, l2, r2, (strip s1). rewrite H at 2. auto 10 using strip_trimmed.
  - intros (l1 & r1 & l2 & r2 & t & -> & -> & ? & ? & ? & ? & ?).
    by rewrite !strip_unique.
Qed.

(** *** Lines *)

Lemma split_nonempty c s : split c s <> [].
Proof.
  destruct s as [|d s]; simpl; [done|].
  destruct (Ascii.eqb d c); [done|]. by destruct (split c s).
Qed.

Lemma split_cons_sep c s : split c (c :: s) = [] :: split c s.
Proof. simpl. by rewrite Ascii.eqb_refl. Qed.

Lemma split_cons_other c d s :
  d <> c -> split c (d :: s) = (d :: default [] (head (split c s))) :: tail (split c s).
Proof.
  intros Hd. simpl. apply Ascii.eqb_neq in Hd as ->.
  pose proof (split_nonempty c s). by destruct (split c s).
Qed.


Lemma split_line c l : c ∉ l -> split c l = [l].
Proof.
  induction l as [|d l IH]; [done|]. intros H. apply not_elem_of_cons in H as [Hd Hl].
  rewrite split_cons_other by done. by rewrite IH.
Qed.













Lemma occurs_trans p q s : occurs p q -> occurs q s -> occurs p s.
Proof.
  intros (a & b & ->) (a' & b' & ->). exists (a' ++ a), (b ++ b').
  by rewrite <- !app_assoc.
Qed.

Lemma prefix_occurs p s : p `prefix_of` s -> occurs p s.
Proof. intros [k ->]. by exists [], k. Qed.

Lemma occurs_suffix p y z : occurs p z -> occurs p (y ++ z).
Proof. apply occurs_app_r. Qed.

(** A pattern that neither holds the pair [a b] nor ends with [a] cannot
    reach into a text that starts with [a b]. *)
Lemma prefix_cut_pair p z a b r :
  ~ occurs [a; b] p -> last p <> Some a ->
  p `prefix_of` (z ++ a :: b :: r) -> p `prefix_of` z.
Proof.
  intros Hpair Hlast [t Ht]. symmetry in Ht.
  apply app_eq_inv in Ht as [(k & Hk1 & Hk2)|(k & Hk1 & Hk2)].
  - destruct k as [|c [|d k]].
    + rewrite app_nil_r in Hk1. by subst.
    + injection Hk2 as -> _. subst p. by rewrite last_snoc in Hlast.
    + injection Hk2 as -> -> _. destruct Hpair. by exists z, k.
  - by exists k.
Qed.

(** An occurrence cannot cross a character the pattern does not contain. *)
Lemma occurs_app_cut p a c b :
  c ∉ p -> occurs p (a ++ c :: b) -> occurs p a \/ occurs p b.
Proof.
  intros Hc (x & y & Heq). apply app_eq_inv in Heq as [(k & Hk1 & Hk2)|(k & Hk1 & Hk2)].
  - left. assert (Hp : p `prefix_of` (k ++ c :: b)) by (exists y; by rewrite Hk2).
    apply prefix_cut in Hp as [t Ht]; [|done]. exists x, t. by rewrite Hk1, Ht.
  - destruct k as [|d k].
    + simpl in Hk2. destruct p as [|e p].
      * left. exists a, []. by rewrite app_nil_r.
      * injection Hk2 as -> _. destruct Hc. by left.
    + right. injection Hk2 as _ ->. by exists k, y.
Qed.

(** A pattern that starts with the pair [a b] matches nowhere inside a text
    that does not show the pair, even with its next character. *)
Lemma clear_needs_pair a b q x c r :
  ~ occurs [a; b] (x ++ [c]) -> clear (a :: b :: q) x (c :: r).
Proof.
  intros Hno y z -> Hz Hp. destruct z as [|c1 z]; [done|].
  simpl in Hp. pose proof (prefix_cons_inv_1 _ _ _ _ Hp) as ->.
  apply prefix_cons_inv_2 in Hp. apply Hno. destruct z as [|c2 z].
  - simpl in Hp. pose proof (prefix_cons_inv_1 _ _ _ _ Hp) as ->.
    exists y, []. by rewrite <- app_assoc.
  - simpl in Hp. pose proof (prefix_cons_inv_1 _ _ _ _ Hp) as ->.
    exists y, (z ++ [c]). by rewrite <- !app_assoc.
Qed.

Lemma occurs_pair_snoc a b x c :
  ~ occurs [a; b] x -> c <> b -> ~ occurs [a; b] (x ++ [c]).
Proof.
  intros Hx Hc (y & z & Heq). destruct z as [|d z _] using rev_ind.
  - rewrite app_nil_r in Heq.
    change (y ++ [a; b]) with (y ++ [a] ++ [b]) in Heq. rewrite !app_assoc in Heq.
    apply app_inj_tail in Heq as [_ ->]. done.
  - change (y ++ [a; b] ++ z ++ [d]) with (y ++ ([a; b] ++ z) ++ [d]) in Heq.
    rewrite !app_assoc in Heq. apply app_inj_tail in Heq as [-> _].
    apply Hx. exists y, z. by rewrite <- !app_assoc.
Qed.

(** When no match of [old] reaches into [x], the text [x] after [w] is left
    alone. *)
Lemma replace_suffix_untouched old new x :
  old <> [] -> ~ occurs old x ->
  (forall z, old `prefix_of` (z ++ x) -> old `prefix_of` z) ->
  forall w, replace old new (w ++ x) = replace old new w ++ x.
Proof.
  intros Hne Hx Hcut w. remember (length w) as n eqn:Hn. revert w Hn.
  induction n as [n IH] using lt_wf_ind. intros [|c w] Hn.
  - simpl. by rewrite replace_nil, replace_absent.
  - destruct (decide (old `prefix_of` ((c :: w) ++ x))) as [Hp|Hp].
    + apply Hcut in Hp as [r Hr]. rewrite Hr, <- app_assoc, !replace_match by done.
      rewrite (IH (length r)); [by rewrite app_assoc| |done].
      subst n. rewrite Hr, length_app. destruct old; [done|]. simpl. lia.
    + assert (Hp' : ~ old `prefix_of` (c :: w)).
      { intros H. apply Hp. by apply prefix_app_r. }
      simpl app. rewrite (replace_cons _ _ c (w ++ x)) by done.
      rewrite (replace_cons _ _ c w) by done. simpl in Hn.
      rewrite (IH (length w)); [done|lia|done].
Qed.

End StringFacts.

(** ** Facts about the CDATA vault *)

Section VaultFacts.
Implicit Types (s t : str).

Lemma finditer_scan_group0 pos skip s :
  Forall (fun m => exists body, group0 m = cdata_open ++ body ++ cdata_close)
         (finditer_scan pos skip s).
Proof.
  revert pos skip. induction s as [|c s IH]; intros pos skip; [constructor|].
  cbn [finditer_scan]. destruct skip as [|k]; [|apply IH].
  destruct (startswith cdata_open (c :: s)); [|apply IH].
  destruct (partition cdata_close _) as [[body rest]|]; [|apply IH].
  constructor; [|apply IH]. by exists body.
Qed.

Lemma extract_loop_sections i matches secs rough :
  (extract_loop i matches secs rough).1 = secs ++ section_table i (map group0 matches).
Proof.
  revert i secs rough. induction matches as [|m ms IH]; intros i secs rough; simpl.
  - by rewrite app_nil_r.
  - by rewrite IH, <- app_assoc.
Qed.

Lemma extract_sections s :
  (extract s).1 = section_table 0 (map group0 (finditer s)).
Proof. unfold extract. by rewrite extract_loop_sections. Qed.

Lemma section_table_elem i originals po :
  po ∈ section_table i originals -> exists k, po.1 = placeholder k /\ po.2 ∈ originals.
Proof.
  revert i. induction originals as [|m ms IH]; intros i; simpl.
  - by intros ?%elem_of_nil.
  - intros [->|H]%elem_of_cons.
    + exists i. split; [done | by left].
    + destruct (IH _ H) as (k & ? & ?). exists k. split; [done | by right].
Qed.

(** *** The pattern, declaratively *)

Lemma cdata_scan_text s segs tail :
  cdata_scan s segs tail -> forall i, s = rebuild (fun _ m => m) i segs tail.
Proof.
  induction 1 as [|gap body rest segs tail _ _ _ IH]; intros i; simpl; [done|].
  by rewrite <- (IH (S i)), <- !app_assoc.
Qed.

Lemma finditer_scan_skip pos k s :
  finditer_scan pos k s = finditer_scan (pos + k) 0 (drop k s).
Proof.
  revert pos k. induction s as [|c s IH]; intros pos [|k]; simpl; rewrite ?Nat.add_0_r; try done.
  rewrite IH. f_equal. lia.
Qed.

Lemma finditer_scan_clear pos gap r :
  clear cdata_open gap r ->
  finditer_scan pos 0 (gap ++ r) = finditer_scan (pos + length gap) 0 r.
Proof.
  revert pos. induction gap as [|c gap IH]; intros pos H.
  - simpl app. cbn [length]. by rewrite Nat.add_0_r.
  - apply clear_cons in H as [H0 H]. apply startswith_false in H0.
    change ((c :: gap) ++ r) with (c :: (gap ++ r)).
    cbn [finditer_scan length]. rewrite H0, IH by done. f_equal. lia.
Qed.

Lemma finditer_scan_section pos body rest :
  clear cdata_close body (cdata_close ++ rest) ->
  finditer_scan pos 0 (cdata_open ++ body ++ cdata_close ++ rest)
  = {| m_start := pos; m_end := pos + length (cdata_open ++ body ++ cdata_close);
       group0 := cdata_open ++ body ++ cdata_close |}
      :: finditer_scan (pos + length (cdata_open ++ body ++ cdata_close)) 0 rest.
Proof.
  intros H.
  change (cdata_open ++ body ++ cdata_close ++ rest)
    with ("<"%char :: ("![CDATA[" ++ body ++ cdata_close ++ rest)).
  cbn [finditer_scan].
  change ("<"%char :: ("![CDATA[" ++ body ++ cdata_close ++ rest))
    with (cdata_open ++ body ++ cdata_close ++ rest).
  rewrite startswith_app, drop_app_length, (partition_first _ _ _ H).
  f_equal. rewrite finditer_scan_skip. f_equal.
  - rewrite !length_app. simpl. lia.
  - change ("![CDATA[" ++ body ++ cdata_close ++ rest)
      with (drop 1 (cdata_open ++ body ++ cdata_close ++ rest)).
    rewrite drop_drop.
    replace (1 + (length (cdata_open ++ body ++ cdata_close) - 1))
      with (length (cdata_open ++ body ++ cdata_close))
      by (rewrite !length_app; simpl; lia).
    replace (cdata_open ++ body ++ cdata_close ++ rest)
      with ((cdata_open ++ body ++ cdata_close) ++ rest)
      by (by rewrite <- !app_assoc).
    by rewrite drop_app_length.
Qed.

Lemma no_section_tail c s : no_section (c :: s) -> no_section s.
Proof. intros H a b d ->. by apply (H (c :: a) b d). Qed.

Lemma finditer_scan_no_section pos s : no_section s -> finditer_scan pos 0 s = [].
Proof.
  revert pos. induction s as [|c s IH]; intros pos H; [done|].
  cbn [finditer_scan].
  destruct (startswith cdata_open (c :: s)) eqn:E;
    [|by apply IH, (no_section_tail c)].
  destruct (partition cdata_close _) as [[body rest]|] eqn:Ep;
    [|by apply IH, (no_section_tail c)].
  apply startswith_prefix in E as [k Hk]. rewrite Hk, drop_app_length in Ep.
  apply partition_Some in Ep as [-> _]. by destruct (H [] body rest).
Qed.

(** The scan is what [finditer] computes. *)
Lemma finditer_scan_spec s segs tail pos :
  cdata_scan s segs tail -> finditer_scan pos 0 s = matches_of pos segs.
Proof.
  intros H. revert pos.
  induction H as [tail H|gap body rest segs tail Hg Hb _ IH]; intros pos.
  - by apply finditer_scan_no_section.
  - rewrite finditer_scan_clear, finditer_scan_section by done. simpl. by rewrite IH.
Qed.

Lemma finditer_spec s segs tail :
  cdata_scan s segs tail -> finditer s = matches_of 0 segs.
Proof. apply finditer_scan_spec. Qed.

(** Every text has a scan. *)
Lemma cdata_scan_total s : exists segs tail, cdata_scan s segs tail.
Proof.
  remember (length s) as n eqn:Hn. revert s Hn.
  induction n as [n IH] using lt_wf_ind. intros s Hn.
  destruct (partition cdata_open s) as [[gap r1]|] eqn:E1.
  - apply partition_Some in E1 as [-> Hg].
    destruct (partition cdata_close r1) as [[body rest]|] eqn:E2.
    + apply partition_Some in E2 as [-> Hb].
      destruct (IH (length rest)) with (s := rest) as (segs & tail & Hs); [|done|].
      { subst n. rewrite !length_app. simpl. lia. }
      exists ((gap, cdata_open ++ body ++ cdata_close) :: segs), tail.
      by apply scan_section.
    + apply partition_None in E2. exists [], (gap ++ cdata_open ++ r1).
      apply scan_done. intros a b c Heq.
      apply app_eq_inv in Heq as [(k & Hk1 & Hk2)|(k & Hk1 & Hk2)].
      * destruct k as [|c0 k].
        -- rewrite app_nil_l in Hk2. apply app_inv_head in Hk2.
           apply E2. exists b, c. done.
        -- apply (Hg a (c0 :: k)); [done|done|]. rewrite <- Hk2. by eexists.
      * rewrite (app_assoc k), (app_assoc (k ++ cdata_open)) in Hk2.
        apply app_eq_inv in Hk2 as [(k2 & Hk3 & Hk4)|(k2 & Hk3 & Hk4)].
        -- apply (f_equal length) in Hk3. rewrite !length_app in Hk3.
           destruct k2 as [|? ?]; [|simpl in Hk3; lia].
           apply E2. exists [], c. exact (eq_sym Hk4).
        -- apply E2. exists k2, c. done.
  - apply partition_None in E1. exists [], s. apply scan_done.
    intros a b c ->. apply E1. by eexists _, _.
Qed.

(** A match holds one closer, its own: two sections are never one match. *)
Lemma scan_section_one_closer body rest :
  clear cdata_close body (cdata_close ++ rest) ->
  count cdata_close (cdata_open ++ body ++ cdata_close) = 1.
Proof.
  intros H.
  replace (cdata_open ++ body ++ cdata_close)
    with ((cdata_open ++ body) ++ cdata_close ++ [])
    by (by rewrite app_nil_r, <- app_assoc).
  apply count_once; [done| |].
  - apply clear_app.
    + apply (clear_head _ "]"%char); [done|].
      intros Hin. repeat (apply elem_of_cons in Hin as [Hin|Hin]; [discriminate Hin|]).
      by apply elem_of_nil in Hin.
    + by apply (clear_after_self _ _ rest).
  - rewrite occurs_nil. done.
Qed.

Lemma string_of_uint_digits d :
  Forall is_digit (list_ascii_of_string (NilEmpty.string_of_uint d)).
Proof.
  induction d; simpl.
  { constructor. }
  all: constructor; [unfold is_digit; vm_compute; lia | done].
Qed.

Lemma of_nat_digits n : Forall is_digit (of_nat n).
Proof. apply string_of_uint_digits. Qed.

Lemma revapp_nonnil d acc :
  d <> Decimal.Nil \/ acc <> Decimal.Nil -> Decimal.revapp d acc <> Decimal.Nil.
Proof.
  revert acc. induction d; intros acc [H|H]; simpl; try done; apply IHd; by right.
Qed.

Lemma to_little_uint_nonnil n acc : acc <> Decimal.Nil -> Nat.to_little_uint n acc <> Decimal.Nil.
Proof.
  revert acc. induction n as [|n IH]; intros acc H; simpl; [done|].
  apply IH. by destruct acc.
Qed.

Lemma to_uint_nonnil n : Nat.to_uint n <> Decimal.Nil.
Proof.
  unfold Nat.to_uint, Decimal.rev. apply revapp_nonnil. left.
  by apply to_little_uint_nonnil.
Qed.

Lemma of_nat_nonempty n : of_nat n <> [].
Proof.
  unfold of_nat. intros H.
  assert (E : NilEmpty.string_of_uint (Nat.to_uint n) = EmptyString).
  { rewrite <- (string_of_list_ascii_of_string (NilEmpty.string_of_uint _)), H. done. }
  pose proof (NilEmpty.usu (Nat.to_uint n)) as Hu. rewrite E in Hu. simpl in Hu.
  injection Hu as Hu. pose proof (to_uint_nonnil n) as Hnn.
  by rewrite <- Hu in Hnn.
Qed.

Lemma of_nat_inj n1 n2 : of_nat n1 = of_nat n2 -> n1 = n2.
Proof.
  unfold of_nat. intros H.
  assert (E : NilEmpty.string_of_uint (Nat.to_uint n1)
              = NilEmpty.string_of_uint (Nat.to_uint n2)).
  { rewrite <- (string_of_list_ascii_of_string (NilEmpty.string_of_uint (Nat.to_uint n1))),
      <- (string_of_list_ascii_of_string (NilEmpty.string_of_uint (Nat.to_uint n2))), H.
    done. }
  pose proof (NilEmpty.usu (Nat.to_uint n1)) as H1.
  pose proof (NilEmpty.usu (Nat.to_uint n2)) as H2.
  rewrite E, H2 in H1. injection H1 as H1.
  rewrite <- (Unsigned.of_to n1), <- (Unsigned.of_to n2). by rewrite H1.
Qed.

Lemma digit_not_LF c : is_digit c -> c <> LF.
Proof. intros H ->. unfold is_digit in H. vm_compute in H. lia. Qed.

Lemma placeholder_nonempty i : placeholder i <> [].
Proof. done. Qed.

Lemma placeholder_no_LF i : LF ∉ placeholder i.
Proof.
  unfold placeholder. rewrite !not_elem_of_app. split; [|split].
  - by vm_compute; intros H; repeat (apply elem_of_cons in H as [H|H]; [discriminate H|]);
      apply elem_of_nil in H.
  - intros H. pose proof (of_nat_digits i) as Hd. rewrite Forall_forall in Hd.
    by apply (digit_not_LF _ (Hd _ H)).
  - intros H. repeat (apply elem_of_cons in H as [H|H]; [discriminate H|]).
    by apply elem_of_nil in H.
Qed.

Lemma placeholder_no_char c i :
  c ∉ placeholder_prefix -> ~ is_digit c -> c ∉ placeholder i.
Proof.
  intros Hp Hd. unfold placeholder. rewrite !not_elem_of_app. split; [done|]. split.
  - intros H. pose proof (of_nat_digits i) as Hdig. rewrite Forall_forall in Hdig.
    by apply Hd, Hdig.
  - intros H. apply Hp. unfold placeholder_prefix.
    repeat (apply elem_of_cons in H as [->|H]; [by left|]). by apply elem_of_nil in H.
Qed.

Lemma not_elem_of_literal (c : ascii) (l : str) :
  forallb (fun d => negb (Ascii.eqb c d)) l = true -> c ∉ l.
Proof.
  intros H Hin. rewrite forallb_forall in H. apply list_elem_of_In in Hin.
  apply H in Hin. by rewrite Ascii.eqb_refl in Hin.
Qed.

Lemma placeholder_no_lt i : "<"%char ∉ placeholder i.
Proof.
  apply placeholder_no_char; [by apply not_elem_of_literal|].
  unfold is_digit. vm_compute. lia.
Qed.

Lemma placeholder_head i : exists t, placeholder i = "_"%char :: t.
Proof. by eexists. Qed.

(** *** The extraction loop *)

Lemma opener_free_nil : opener_free [].
Proof. intros r. apply clear_nil. Qed.

Lemma opener_free_step pre gap i r0 :
  opener_free pre -> clear cdata_open gap (cdata_open ++ r0) ->
  opener_free (pre ++ gap ++ placeholder i).
Proof.
  intros Hpre Hgap r. apply clear_app; [apply Hpre|]. apply clear_app.
  - destruct (placeholder_head i) as [t ->]. simpl app.
    apply (clear_context _ _ (cdata_open ++ r0)); [|done].
    by apply not_elem_of_literal.
  - apply (clear_head _ "<"%char); [done | apply placeholder_no_lt].
Qed.

(** When no section text occurs again later, the loop puts one token in the
    place of each section and touches nothing else. *)
Lemma extract_loop_exact s segs tail :
  cdata_scan s segs tail -> no_repeat segs tail ->
  forall i pos pre secs, opener_free pre ->
  extract_loop i (matches_of pos segs) secs (pre ++ s)
  = (secs ++ section_table i (map snd segs),
     pre ++ rebuild (fun k _ => placeholder k) i segs tail).
Proof.
  induction 1 as [tail Hn|gap body rest segs tail Hg Hb Hs IH];
    intros Hrep i pos pre secs Hpre.
  - simpl. by rewrite app_nil_r.
  - destruct Hrep as [Hocc Hrep]. cbn [matches_of extract_loop group0 map snd
      section_table rebuild].
    rewrite <- (cdata_scan_text _ _ _ Hs 0) in Hocc.
    assert (Hrw : replace (cdata_open ++ body ++ cdata_close) (placeholder i)
              (pre ++ gap ++ cdata_open ++ body ++ cdata_close ++ rest)
            = (pre ++ gap ++ placeholder i) ++ rest).
    { replace (pre ++ gap ++ cdata_open ++ body ++ cdata_close ++ rest)
        with ((pre ++ gap) ++ (cdata_open ++ body ++ cdata_close) ++ rest)
        by (by rewrite <- !app_assoc).
      rewrite replace_once; [by rewrite <- !app_assoc|done| |done].
      apply clear_longer, clear_app; [apply Hpre|].
      by rewrite <- !app_assoc. }
    rewrite Hrw, (IH Hrep); [|by apply (opener_free_step _ _ _ (body ++ cdata_close ++ rest))].
    by rewrite <- !app_assoc.
Qed.

Lemma extract_exact s segs tail :
  cdata_scan s segs tail -> no_repeat segs tail ->
  extract s = (section_table 0 (map snd segs),
               rebuild (fun k _ => placeholder k) 0 segs tail).
Proof.
  intros Hs Hrep. unfold extract. rewrite (finditer_spec _ _ _ Hs).
  apply (extract_loop_exact _ _ _ Hs Hrep 0 0 [] []), opener_free_nil.
Qed.

(** *** The tokens among other text *)

Lemma placeholder_word i :
  placeholder i = "__" ++ sentinel_word ++ "_" ++ of_nat i ++ "__".
Proof. done. Qed.

Lemma placeholder_occurs_word i : occurs sentinel_word (placeholder i).
Proof. rewrite placeholder_word. by exists ("__" : str), ("_" ++ of_nat i ++ "__"). Qed.

Lemma word_free_no_placeholder x i : word_free x -> ~ occurs (placeholder i) x.
Proof. intros Hx H. apply Hx. by apply (occurs_trans _ _ _ (placeholder_occurs_word i)). Qed.

Lemma word_no_pair : ~ occurs "__" sentinel_word.
Proof. by apply contains_false. Qed.

(** The word does not reach from a word-free text into what follows. *)
Lemma word_stays x r :
  token_or_end r -> sentinel_word `prefix_of` (x ++ r) -> sentinel_word `prefix_of` x.
Proof.
  intros [->|(j & r' & ->)] H.
  - by rewrite app_nil_r in H.
  - rewrite placeholder_word in H.
    apply (prefix_cut_pair _ _ "_"%char "_"%char) in H; [done|apply word_no_pair|done].
Qed.

Lemma digits_delimited d1 d2 r1 r2 :
  Forall is_digit d1 -> Forall is_digit d2 ->
  d1 ++ "_"%char :: r1 = d2 ++ "_"%char :: r2 -> d1 = d2.
Proof.
  intros H1. revert d2. induction H1 as [|c d1 Hc _ IH]; intros d2 H2 Heq.
  - destruct H2 as [|c d2 Hc _]; [done|]. injection Heq as <- _.
    unfold is_digit in Hc. vm_compute in Hc. lia.
  - destruct H2 as [|c' d2 Hc' H2]; simpl in Heq.
    + injection Heq as -> _. unfold is_digit in Hc. vm_compute in Hc. lia.
    + injection Heq as -> Heq. f_equal. by apply IH.
Qed.

(** A token matches at the start of a token only if it is that token. *)
Lemma placeholder_prefix_inj i j r :
  placeholder i `prefix_of` (placeholder j ++ r) -> i = j.
Proof.
  intros [k Hk]. rewrite !placeholder_word in Hk.
  repeat rewrite <- app_assoc in Hk. do 3 apply app_inv_head in Hk.
  apply of_nat_inj. symmetry.
  by apply (digits_delimited _ _ ("_" ++ r) ("_" ++ k)); [apply of_nat_digits..|].
Qed.

(** A token matches nowhere inside a word-free text that a token, or
    nothing, follows. *)
Lemma gap_clear i x r :
  word_free x -> token_or_end r -> clear (placeholder i) x r.
Proof.
  intros Hx Hr y z -> Hz Hp. rewrite placeholder_word in Hp.
  destruct z as [|c1 [|c2 z]]; [done| |].
  - simpl in Hp. apply prefix_cons_inv_2 in Hp.
    destruct Hr as [->|(j & r' & ->)]; [by apply prefix_nil_not in Hp|].
    rewrite placeholder_word in Hp. simpl in Hp. apply prefix_cons_inv_2 in Hp.
    by apply prefix_cons_inv_1 in Hp.
  - simpl in Hp. do 2 apply prefix_cons_inv_2 in Hp.
    change ("C"%char :: _) with (sentinel_word ++ "_" ++ of_nat i ++ "__") in Hp.
    apply prefix_app_l, word_stays in Hp; [|done].
    apply Hx. apply occurs_suffix. apply prefix_occurs in Hp.
    by apply (occurs_suffix _ [c1; c2]).
Qed.

Lemma digit_not_underscore c : is_digit c -> c <> "_"%char.
Proof. intros H ->. unfold is_digit in H. vm_compute in H. lia. Qed.

(** A token matches nowhere inside another token, whatever word-free text
    and token follow it. *)
Lemma token_clear i j x r :
  i <> j -> word_free x -> token_or_end r ->
  clear (placeholder i) (placeholder j) (x ++ r).
Proof.
  intros Hij Hx Hr.
  change (placeholder j) with ("__" ++ (sentinel_word ++ "_") ++ of_nat j ++ "__").
  apply clear_app; [|apply clear_app; [|apply clear_app]].
  - apply clear_cons. split.
    + intros H. apply Hij, (placeholder_prefix_inj i j (x ++ r)).
      revert H. rewrite (placeholder_word j). simpl. by rewrite <- ?app_assoc.
    + apply clear_cons. split; [|apply clear_nil].
      intros H. rewrite placeholder_word in H. simpl in H.
      apply prefix_cons_inv_2 in H. by apply prefix_cons_inv_1 in H.
  - pose proof (of_nat_nonempty j) as Hne. pose proof (of_nat_digits j) as Hd.
    destruct (of_nat j) as [|c d]; [done|]. inversion Hd; subst.
    rewrite placeholder_word. simpl app at 1.
    change (((c :: d) ++ "__") ++ x ++ r) with (c :: ((d ++ "__") ++ x ++ r)).
    apply clear_needs_pair. apply occurs_pair_snoc.
    + by apply contains_false.
    + by apply digit_not_underscore.
  - apply (clear_head _ "_"%char); [done|]. intros H.
    pose proof (of_nat_digits j) as Hd. rewrite Forall_forall in Hd.
    by apply (digit_not_underscore _ (Hd _ H)).
  - apply clear_cons. split; [|apply clear_cons; split; [|apply clear_nil]].
    + intros H. rewrite placeholder_word in H. simpl in H.
      do 2 apply prefix_cons_inv_2 in H.
      change ("C"%char :: _) with (sentinel_word ++ "_" ++ of_nat i ++ "__") in H.
      apply prefix_app_l, word_stays in H; [|done]. by apply Hx, prefix_occurs.
    + intros H. rewrite placeholder_word in H. simpl in H. apply prefix_cons_inv_2 in H.
      destruct x as [|c x].
      * destruct Hr as [->|(k & r' & ->)]; [by apply prefix_nil_not in H|].
        rewrite placeholder_word in H. simpl in H. apply prefix_cons_inv_2 in H.
        by apply prefix_cons_inv_1 in H.
      * simpl in H. apply prefix_cons_inv_2 in H.
        change ("C"%char :: _) with (sentinel_word ++ "_" ++ of_nat i ++ "__") in H.
        apply prefix_app_l, word_stays in H; [|done].
        apply Hx. apply prefix_occurs in H. by apply (occurs_suffix _ [c]).
Qed.

Lemma with_tokens_shape k segs tail r :
  Forall (fun gm => word_free gm.1) segs -> word_free tail -> token_or_end r ->
  exists x r', with_tokens k segs tail ++ r = x ++ r' /\ word_free x /\ token_or_end r'.
Proof.
  intros Hs Ht Hr. destruct Hs as [|[u m] segs Hu Hs]; cbn [rebuild].
  - by exists tail, r.
  - exists u, (placeholder k ++ with_tokens (S k) segs tail ++ r).
    split; [by rewrite <- ?app_assoc|]. split; [done|]. right. by eexists _, _.
Qed.

(** A token matches nowhere in a run of gaps and tokens of other indices. *)
Lemma stream_clear i segs k tail r :
  (forall j, k <= j < k + length segs -> j <> i) ->
  Forall (fun gm => word_free gm.1) segs -> word_free tail -> token_or_end r ->
  clear (placeholder i) (with_tokens k segs tail) r.
Proof.
  intros Hi Hs. revert k Hi. induction Hs as [|[u m] segs Hu Hs IH]; intros k Hi Ht Hr.
  - by apply gap_clear.
  - cbn [rebuild]. apply clear_app; [|apply clear_app].
    + apply gap_clear; [done|]. right. eexists _, _. by rewrite <- app_assoc.
    + destruct (with_tokens_shape (S k) segs tail r) as (x & r' & -> & Hx & Hr'); [done..|].
      apply token_clear; [|done..]. apply not_eq_sym, Hi. simpl. lia.
    + apply IH; [|done..]. intros j Hj. apply Hi. simpl. lia.
Qed.

Lemma restore_cons po secs text :
  restore (po :: secs) text = restore secs (replace po.1 po.2 text).
Proof. done. Qed.

Lemma token_absent i k segs tail :
  (forall j, k <= j < k + length segs -> j <> i) ->
  Forall (fun gm => word_free gm.1) segs -> word_free tail ->
  ~ occurs (placeholder i) (with_tokens k segs tail).
Proof.
  intros Hi Hs Ht. apply clear_not_occurs; [apply placeholder_nonempty|].
  apply stream_clear; [done..|]. by left.
Qed.

(** Each token of a run occurs once in it. *)
Lemma token_count i segs tail :
  Forall (fun gm => word_free gm.1) segs -> word_free tail ->
  forall k, k <= i < k + length segs ->
  count (placeholder i) (with_tokens k segs tail) = 1.
Proof.
  intros Hs Ht. induction Hs as [|[u m] segs Hu Hs IH]; intros k Hk; simpl in Hk; [lia|].
  cbn [rebuild]. destruct (decide (i = k)) as [->|Hne].
  - apply count_once; [apply placeholder_nonempty| |].
    + apply gap_clear; [done|]. right. by eexists _, _.
    + apply token_absent; [intros; lia|done..].
  - rewrite app_assoc, count_clear; [apply IH; lia|apply placeholder_nonempty|].
    apply clear_app.
    + apply gap_clear; [done|]. right. by eexists _, _.
    + destruct (with_tokens_shape (S k) segs tail []) as (x & r' & E & Hx & Hr');
        [done..|by left|].
      rewrite app_nil_r in E. rewrite E. by apply token_clear.
Qed.

Lemma word_free_sub a x b : word_free (a ++ x ++ b) -> word_free x.
Proof.
  intros H (y & z & ->). apply H. exists (a ++ y), (z ++ b). by rewrite <- !app_assoc.
Qed.

Lemma word_free_gaps pre k segs tail :
  word_free (pre ++ rebuild (fun _ m => m) k segs tail) ->
  Forall (fun gm => word_free gm.1) segs /\ word_free tail.
Proof.
  revert pre k. induction segs as [|[u m] segs IH]; intros pre k H; cbn [rebuild] in H.
  - split; [constructor|]. apply (word_free_sub pre tail []). by rewrite app_nil_r.
  - destruct (IH (pre ++ u ++ m) (S k)) as [Hs Ht]; [by rewrite <- ?app_assoc|].
    split; [|done]. constructor; [|done]. by apply word_free_sub in H.
Qed.

(** Restoring into a run of tokens puts the [i]-th section where token [i]
    stands and meets every token once, provided the restored text does not
    hold the sentinel word. *)
Lemma restore_loop_exact segs tail k pre :
  word_free (pre ++ rebuild (fun _ m => m) k segs tail) ->
  restore (section_table k (map snd segs)) (pre ++ with_tokens k segs tail)
  = pre ++ rebuild (fun _ m => m) k segs tail /\
  restore_counts (section_table k (map snd segs)) (pre ++ with_tokens k segs tail)
  = replicate (length segs) 1.
Proof.
  revert k pre. induction segs as [|[u m] segs IH]; intros k pre H; [done|].
  destruct (word_free_gaps _ _ _ _ H) as [Hs Ht]. inversion Hs as [|? ? Hu Hs']; subst.
  cbn [rebuild] in H |- *.
  assert (Hpu : word_free (pre ++ u)).
  { intros Ho. apply H. rewrite app_assoc. by apply occurs_app_l. }
  assert (Hc : clear (placeholder k) (pre ++ u)
                 (placeholder k ++ with_tokens (S k) segs tail)).
  { apply gap_clear; [done|]. right. by eexists _, _. }
  assert (Ha : ~ occurs (placeholder k) (with_tokens (S k) segs tail)).
  { apply token_absent; [intros; lia|done..]. }
  cbn [map snd section_table length replicate restore_counts fst].
  rewrite restore_cons. cbn [fst snd]. rewrite (app_assoc pre u).
  rewrite replace_once, count_once by (done || apply placeholder_nonempty).
  destruct (IH (S k) (pre ++ u ++ m)) as [E1 E2]; [by rewrite <- ?app_assoc|].
  repeat rewrite <- app_assoc in E1. repeat rewrite <- app_assoc in E2.
  repeat rewrite <- app_assoc. by rewrite E1, E2.
Qed.

Lemma section_table_lookup k originals i original :
  originals !! i = Some original ->
  section_table k originals !! i = Some (placeholder (k + i), original).
Proof.
  revert k i. induction originals as [|m ms IH]; intros k [|i] H; try done.
  - injection H as ->. simpl. by rewrite Nat.add_0_r.
  - simpl. rewrite (IH (S k) i H). do 3 f_equal. lia.
Qed.

Lemma no_section_absent s : contains cdata_open s = false -> no_section s.
Proof.
  intros H a b c ->. apply contains_false in H. apply H. by eexists _, _.
Qed.

(** C3 (amended): in a document that does not hold the word
    [CDATA_PLACEHOLDER] and in which no section text occurs again after the
    section, extraction pairs the [i]-th section with the token of index [i];
    no token occurs in the document; each token occurs once in the working
    text; and restoring into any text that holds the tokens in their order,
    when the restored text is free of the word, meets each token once and
    puts the [i]-th section in the place of token [i]. *)
Theorem tokens_are_unique_without_the_sentinel_word document segs tail :
  cdata_scan document segs tail -> no_repeat segs tail -> word_free document ->
  extract document = (section_table 0 (map snd segs), with_tokens 0 segs tail) /\
  (forall i original, map snd segs !! i = Some original ->
     section_table 0 (map snd segs) !! i = Some (placeholder i, original) /\
     ~ occurs (placeholder i) document /\
     count (placeholder i) (with_tokens 0 segs tail) = 1) /\
  (forall segs' tail',
     map snd segs' = map snd segs -> word_free (with_sections segs' tail') ->
     restore (section_table 0 (map snd segs)) (with_tokens 0 segs' tail')
     = with_sections segs' tail' /\
     restore_counts (section_table 0 (map snd segs)) (with_tokens 0 segs' tail')
     = replicate (length segs) 1).
Proof.
  intros Hs Hrep Hw. split; [by apply extract_exact|]. split.
  - intros i original Hi. split; [by apply (section_table_lookup 0)|].
    split; [by apply word_free_no_placeholder|].
    pose proof (cdata_scan_text _ _ _ Hs 0) as E. rewrite E in Hw.
    destruct (word_free_gaps [] 0 segs tail Hw) as [Hg Ht].
    apply token_count; [done..|]. apply lookup_lt_Some in Hi.
    rewrite length_map in Hi. lia.
  - intros segs' tail' E Hw'.
    destruct (restore_loop_exact segs' tail' 0 [] Hw') as [E1 E2].
    rewrite E in E1, E2. cbn [app] in E1, E2. rewrite E1, E2. split; [done|].
    by rewrite <- (length_map snd segs'), E, length_map.
Qed.

(** *** The sections in another text *)

Lemma matches_of_group0 pos segs : map group0 (matches_of pos segs) = map snd segs.
Proof.
  revert pos. induction segs as [|[gap m] segs IH]; intros pos; [done|].
  cbn [matches_of map group0 snd]. by rewrite IH.
Qed.

Lemma rebuild_app_tail token k segs tail t :
  rebuild token k segs tail ++ t = rebuild token k segs (tail ++ t).
Proof.
  revert k. induction segs as [|[gap m] segs IH]; intros k; [done|].
  cbn [rebuild]. by rewrite <- !app_assoc, IH.
Qed.

Lemma rstrip_section body :
  rstrip (cdata_open ++ body ++ cdata_close) = cdata_open ++ body ++ cdata_close.
Proof. rewrite app_assoc. by rewrite rstrip_app. Qed.

Lemma cdata_scan_trimmed s segs tail :
  cdata_scan s segs tail ->
  Forall (fun m => m <> [] /\ rstrip m = m) (map snd segs).
Proof.
  induction 1 as [|gap body rest segs tail _ _ _ IH]; constructor; [|done].
  split; [done|apply rstrip_section].
Qed.

(** [rstrip] removes nothing of a section: it trims the text after the last
    one. *)
Lemma rstrip_rebuild k segs tail :
  Forall (fun m => m <> [] /\ rstrip m = m) (map snd segs) ->
  rstrip (rebuild (fun _ m => m) k segs tail)
  = rebuild (fun _ m => m) k segs (rstrip tail).
Proof.
  revert k. induction segs as [|[gap m] segs IH]; intros k Hs; [done|].
  cbn [map snd] in Hs. apply Forall_cons in Hs as [[Hne Hm] Hs'].
  cbn [rebuild]. rewrite <- (IH (S k) Hs').
  destruct (rstrip (rebuild (fun _ m => m) (S k) segs tail)) as [|c r] eqn:E.
  - apply rstrip_blank in E. rewrite !app_assoc, rstrip_app_blank by done.
    rewrite app_nil_r, rstrip_app; by rewrite Hm.
  - rewrite !app_assoc, rstrip_app; by rewrite E.
Qed.

Lemma opener_absent_clear gap r :
  ~ occurs cdata_open gap -> clear cdata_open gap (cdata_open ++ r).
Proof.
  intros H. apply (clear_context _ _ []); [by apply not_elem_of_literal|].
  by apply clear_not_occurs.
Qed.

(** The sections of a scan are the sections of every text that holds them in
    the same order between texts without opener. *)
Lemma cdata_scan_regap s segs tail :
  cdata_scan s segs tail ->
  forall k segs' tail',
    map snd segs' = map snd segs ->
    Forall (fun gm => ~ occurs cdata_open gm.1) segs' -> no_section tail' ->
    cdata_scan (rebuild (fun _ m => m) k segs' tail') segs' tail'.
Proof.
  induction 1 as [tail Hn|gap body rest segs tail Hg Hb Hs IH];
    intros k [|[gap' m'] segs'] tail' Hm Hgaps Ht; try done.
  - by constructor.
  - cbn [map snd] in Hm.
    assert (Hm1 : m' = cdata_open ++ body ++ cdata_close) by congruence.
    assert (Hm2 : map snd segs' = map snd segs) by congruence.
    apply Forall_cons in Hgaps as [Hg' Hgaps']. subst m'. cbn [rebuild].
    repeat rewrite <- app_assoc. constructor.
    + by apply opener_absent_clear.
    + by apply (clear_after_self _ _ rest).
    + by apply IH.
Qed.

Lemma rstrip_no_opener t :
  ~ occurs cdata_open t -> no_section (rstrip t ++ [LF]).
Proof.
  intros H a b c E. apply H.
  destruct (rstrip_decompose t) as (r & Ht & _). rewrite Ht. apply occurs_app_l.
  assert (Ho : occurs cdata_open (rstrip t ++ [LF])) by (rewrite E; by eexists _, _).
  apply occurs_app_cut in Ho as [Ho|Ho]; [done| |by apply not_elem_of_literal].
  by apply occurs_nil in Ho.
Qed.

(** *** An opener without closer *)

(** A section cannot end inside a text that holds no closer and starts with
    the opener. *)
Lemma section_stops_before body rest z :
  ~ occurs cdata_close (cdata_open ++ rest) ->
  (cdata_open ++ body ++ cdata_close) `prefix_of` (z ++ cdata_open ++ rest) ->
  (cdata_open ++ body ++ cdata_close) `prefix_of` z.
Proof.
  intros Hno [k Hk]. rewrite (app_assoc cdata_open body), <- app_assoc in Hk.
  apply app_eq_inv in Hk as [(j & Hj1 & Hj2)|(j & Hj1 & Hj2)].
  - apply app_eq_inv in Hj2 as [(j' & Hj3 & Hj4)|(j' & Hj3 & Hj4)].
    + destruct j' as [|c j'].
      * rewrite app_nil_r in Hj3. subst. exists []. by rewrite app_nil_r, <- app_assoc.
      * exfalso. assert (Hc : "<"%char ∈ cdata_close).
        { assert (Hh : head ((c :: j') ++ k) = Some "<"%char) by (by rewrite <- Hj4).
          injection Hh as ->. rewrite Hj3. apply elem_of_app. right. by left. }
        repeat (apply elem_of_cons in Hc as [Hc|Hc]; [discriminate Hc|]).
        by apply elem_of_nil in Hc.
    + exists j'. subst. by rewrite <- !app_assoc.
  - destruct Hno. exists j, k. done.
Qed.

Lemma extract_loop_suffix_untouched x matches :
  ~ occurs cdata_close (cdata_open ++ x) ->
  Forall (fun m => exists body, group0 m = cdata_open ++ body ++ cdata_close) matches ->
  forall i secs w,
    extract_loop i matches secs (w ++ cdata_open ++ x)
    = ((extract_loop i matches secs w).1,
       (extract_loop i matches secs w).2 ++ cdata_open ++ x).
Proof.
  intros Hno. induction 1 as [|m ms [body Hm] _ IH]; intros i secs w; [done|].
  cbn [extract_loop]. rewrite replace_suffix_untouched, IH; [done| | |].
  - by rewrite Hm.
  - rewrite Hm. intros (a & b & Hab). apply Hno. exists (a ++ cdata_open ++ body), b.
    rewrite Hab. by rewrite <- !app_assoc.
  - rewrite Hm. intros z. by apply section_stops_before.
Qed.

Lemma no_section_unterminated t x :
  no_section t -> ~ occurs cdata_close (cdata_open ++ x) ->
  no_section (t ++ cdata_open ++ x).
Proof.
  intros Ht Hno a b c Heq.
  rewrite (app_assoc a), (app_assoc (a ++ cdata_open)) in Heq.
  apply app_eq_inv in Heq as [(k & Hk1 & Hk2)|(k & Hk1 & Hk2)].
  - apply app_eq_inv in Hk2 as [(j & Hj1 & Hj2)|(j & Hj1 & Hj2)].
    + destruct j as [|d j].
      * rewrite app_nil_r in Hj1. subst k. apply (Ht a b []).
        rewrite Hk1, app_nil_r. by rewrite <- !app_assoc.
      * assert (Hc : "<"%char ∈ cdata_close).
        { assert (Hh : head ((d :: j) ++ c) = Some "<"%char) by (by rewrite <- Hj2).
          injection Hh as ->. rewrite Hj1. apply elem_of_app. right. by left. }
        repeat (apply elem_of_cons in Hc as [Hc|Hc]; [discriminate Hc|]).
        by apply elem_of_nil in Hc.
    + apply (Ht a b j). rewrite Hk1, Hj1. by rewrite <- !app_assoc.
  - apply Hno. by exists k, c.
Qed.

Lemma cdata_scan_unterminated s segs tail x :
  cdata_scan s segs tail -> ~ occurs cdata_close (cdata_open ++ x) ->
  cdata_scan (s ++ cdata_open ++ x) segs (tail ++ cdata_open ++ x).
Proof.
  intros Hs Hno. induction Hs as [tail Ht|gap body rest segs tail Hg Hb _ IH].
  - apply scan_done. by apply no_section_unterminated.
  - replace ((gap ++ cdata_open ++ body ++ cdata_close ++ rest) ++ cdata_open ++ x)
      with (gap ++ cdata_open ++ body ++ cdata_close ++ (rest ++ cdata_open ++ x))
      by (by rewrite <- !app_assoc).
    apply scan_section; [| |done].
    + replace (cdata_open ++ body ++ cdata_close ++ rest ++ cdata_open ++ x)
        with ((cdata_open ++ body ++ cdata_close ++ rest) ++ cdata_open ++ x)
        by (by rewrite <- !app_assoc).
      apply clear_extend; [rewrite length_app; simpl; lia | done].
    + by apply (clear_after_self _ _ rest).
Qed.

Lemma matches_of_in_order s segs tail pos :
  cdata_scan s segs tail -> in_order pos (matches_of pos segs).
Proof.
  intros H. revert pos. induction H as [|gap body rest segs tail _ _ _ IH]; intros pos.
  - done.
  - cbn [matches_of in_order m_start m_end]. split; [lia|]. split; [|apply IH].
    rewrite !length_app. simpl. lia.
Qed.

Lemma matches_of_span s segs tail :
  cdata_scan s segs tail ->
  forall pre,
    Forall (fun m => take (m_end m - m_start m) (drop (m_start m) (pre ++ s)) = group0 m)
           (matches_of (length pre) segs).
Proof.
  induction 1 as [|gap body rest segs tail _ _ _ IH]; intros pre; [constructor|].
  cbn [matches_of]. constructor.
  - cbn [m_start m_end group0].
    replace (pre ++ gap ++ cdata_open ++ body ++ cdata_close ++ rest)
      with ((pre ++ gap) ++ (cdata_open ++ body ++ cdata_close) ++ rest)
      by (by rewrite <- !app_assoc).
    rewrite <- length_app, drop_app_length.
    replace (length (pre ++ gap) + length (cdata_open ++ body ++ cdata_close)
             - length (pre ++ gap))
      with (length (cdata_open ++ body ++ cdata_close)) by lia.
    by rewrite take_app_length.
  - specialize (IH (pre ++ gap ++ cdata_open ++ body ++ cdata_close)).
    replace ((pre ++ gap ++ cdata_open ++ body ++ cdata_close) ++ rest)
      with (pre ++ gap ++ cdata_open ++ body ++ cdata_close ++ rest) in IH
      by (by rewrite <- !app_assoc).
    replace (length (pre ++ gap ++ cdata_open ++ body ++ cdata_close))
      with (length pre + length gap + length (cdata_open ++ body ++ cdata_close)) in IH
      by (rewrite !length_app; lia).
    done.
Qed.

Lemma matches_of_one_closer s segs tail pos :
  cdata_scan s segs tail ->
  Forall (fun m => count cdata_close (group0 m) = 1) (matches_of pos segs).
Proof.
  intros H. revert pos. induction H as [|gap body rest segs tail _ Hb _ IH]; intros pos.
  - constructor.
  - cbn [matches_of]. constructor; [|apply IH]. by apply (scan_section_one_closer _ rest).
Qed.

(** C6: [finditer] returns the matches of the declarative scan, which exists
    for every text: each match starts at the first opener after the previous
    match and ends with the first closer after that opener, line feeds or
    not; the matches follow one another without overlap, each is the text of
    its span and holds one closer, so that two sections are never one match;
    and an opener that no closer follows is outside every match and stays, with
    all the text after it, at the end of the working text. *)
Theorem finditer_matches_every_section s :
  exists segs tail,
    cdata_scan s segs tail /\
    finditer s = matches_of 0 segs /\
    in_order 0 (finditer s) /\
    Forall (fun m => take (m_end m - m_start m) (drop (m_start m) s) = group0 m
                     /\ count cdata_close (group0 m) = 1) (finditer s) /\
    (forall pre x,
       s = pre ++ cdata_open ++ x -> ~ occurs cdata_close (cdata_open ++ x) ->
       finditer s = finditer pre /\
       extract s = ((extract pre).1, (extract pre).2 ++ cdata_open ++ x)).
Proof.
  destruct (cdata_scan_total s) as (segs & tail & Hs). exists segs, tail.
  pose proof (finditer_spec _ _ _ Hs) as Hf. split; [done|]. split; [done|]. split.
  { rewrite Hf. by apply (matches_of_in_order s segs tail). }
  split.
  { rewrite Hf. apply Forall_and. split.
    - apply (matches_of_span _ _ _ Hs []).
    - by apply (matches_of_one_closer s segs tail). }
  intros pre x -> Hno.
  destruct (cdata_scan_total pre) as (segs' & tail' & Hpre).
  assert (Heq : finditer (pre ++ cdata_open ++ x) = finditer pre).
  { rewrite (finditer_spec _ _ _ Hpre).
    apply (finditer_spec _ _ (tail' ++ cdata_open ++ x)).
    by apply cdata_scan_unterminated. }
  split; [done|]. unfold extract. rewrite Heq.
  apply extract_loop_suffix_untouched; [done|]. apply finditer_scan_group0.
Qed.

End VaultFacts.

(** ** format_xml_file and the batch *)

Section ScriptFacts.
Context {lib : XmlLibrary} {codecs : Codecs}.

Ltac io := unfold mbind, mret, IO_bind, IO_ret, logger_info, logger_error,
  logger_warning, logger_debug, read_text, read_bytes; simpl.

Lemma pretty_print_xml_value element encoding indent w :
  pretty_print_xml element encoding indent true w
  = match pretty_print_xml_try element encoding indent true with
    | inr t => (Some t, w)
    | inl e => (None, logged w [record ERROR ("Error in pretty printing: " ++ e)])
    end.
Proof. unfold pretty_print_xml. by destruct (pretty_print_xml_try _ _ _ _). Qed.

(** Every outcome of [format_xml_file], by cases on what it finds. *)
Lemma format_xml_file_cases path dry_run indent encoding w :
  format_xml_file path dry_run indent encoding w =
  match text_of encoding w path with
  | None =>
      (false, logged w [record ERROR (ballot_x ++ " Error processing " ++ path ++ ": "
                                      ++ read_error encoding w path)])
  | Some original =>
      if bool_decide (strip original = []) then
        (false, logged w [record INFO ("Skipping empty file: " ++ path)])
      else
        match ET_fromstring original with
        | inl e =>
            (false, logged w [record ERROR (ballot_x ++ " Invalid XML in " ++ path
                                            ++ ": " ++ e)])
        | inr _ =>
            match pretty_print_xml_try original encoding indent true with
            | inl e =>
                (false, logged w [record ERROR ("Error in pretty printing: " ++ e);
                                  record ERROR (ballot_x ++ " Could not format " ++ path)])
            | inr formatted =>
                if negb (needs_write original formatted) then
                  (false, logged w [record INFO ("Already formatted: " ++ path)])
                else if dry_run then
                  (true, logged w [record INFO ("Would format: " ++ path)])
                else if decide (path ∈ readonly w) then
                  (false, logged w [record ERROR (ballot_x ++ " Error processing "
                                                  ++ path ++ ": " ++ errno_EACCES path)])
                else
                  match encode encoding formatted with
                  | inl e =>
                      (false, logged {| files := <[path := []]> (files w);
                                        readonly := readonly w; walk := walk w;
                                        log := log w |}
                                [record ERROR (ballot_x ++ " Error processing "
                                               ++ path ++ ": " ++ e)])
                  | inr data =>
                      (true, logged {| files := <[path := data]> (files w);
                                       readonly := readonly w; walk := walk w;
                                       log := log w |}
                               [record INFO (check_mark ++ " Formatted: " ++ path)])
                  end
            end
        end
  end.
Proof.
  unfold format_xml_file, text_of, read_error. io.
  destruct (files w !! path) as [data|]; simpl; [|done].
  destruct (decode encoding data) as [e|text]; simpl; [done|].
  case_bool_decide; [done|].
  destruct (ET_fromstring _) as [e|root]; [done|].
  rewrite pretty_print_xml_value.
  destruct (pretty_print_xml_try _ _ _ _) as [e|formatted].
  { unfold logged. simpl. by rewrite <- app_assoc. }
  destruct (needs_write _ _); simpl; [|done].
  destruct dry_run; [done|].
  unfold write_text. destruct (decide (path ∈ readonly w)); [done|].
  destruct (encode encoding formatted); done.
Qed.

(** C9: a file whose content is empty or only white space is skipped:
    [format_xml_file] returns [False], leaves the storage as it is, and logs
    the skip alone, whatever the XML libraries would say of the content. *)
Theorem blank_file_is_skipped path dry_run indent encoding w original :
  text_of encoding w path = Some original -> blank original ->
  let r := format_xml_file path dry_run indent encoding w in
  r.1 = false /\ files r.2 = files w /\
  r.2 = logged w [record INFO ("Skipping empty file: " ++ path)].
Proof.
  intros Hf Hb. cbv zeta. rewrite format_xml_file_cases, Hf.
  apply strip_blank in Hb. rewrite bool_decide_eq_true_2 by done. done.
Qed.

(** C10: with [dry_run] the storage is left as it is, and the boolean tells
    what the real run does: [False] when the real run writes nothing and
    returns [False]; [True] when the real run replaces the content of the
    file by the bytes of the formatted text (or fails to open the file for
    writing, or opens it and fails to encode the text, which leaves the
    file empty). *)
Theorem dry_run_never_writes path indent encoding w :
  let dry := format_xml_file path true indent encoding w in
  let real := format_xml_file path false indent encoding w in
  files dry.2 = files w /\ readonly dry.2 = readonly w /\
  (dry.1 = false -> real.1 = false /\ files real.2 = files w) /\
  (dry.1 = true ->
   exists original formatted,
     text_of encoding w path = Some original /\
     pretty_print_xml_try original encoding indent true = inr formatted /\
     needs_write original formatted = true /\
     if decide (path ∈ readonly w)
     then real.1 = false /\ files real.2 = files w
     else match encode encoding formatted with
          | inr data => real.1 = true /\ files real.2 = <[path := data]> (files w)
          | inl _ => real.1 = false /\ files real.2 = <[path := []]> (files w)
          end).
Proof.
  cbv zeta. rewrite !format_xml_file_cases.
  destruct (text_of encoding w path) as [original|]; [|by repeat split].
  case_bool_decide; [by repeat split|].
  destruct (ET_fromstring original); [by repeat split|].
  destruct (pretty_print_xml_try _ _ _ _) as [e'|formatted] eqn:Ep; [by repeat split|].
  destruct (needs_write _ _) eqn:En; cbn [negb fst snd]; [|by repeat split].
  split; [done|]. split; [done|]. split; [done|].
  intros _. exists original, formatted.
  split; [done|]. split; [done|]. split; [done|].
  destruct (decide (path ∈ readonly w)); [done|].
  by destruct (encode encoding formatted).
Qed.

(** C5: the change detector reports no change exactly when the two texts
    have the same trimmed core, the white space being removed around each
    text as a whole; [format_xml_file] applies it to the text
    [pretty_print_xml] returns, which is the text after the restoration of
    the literal sections: when it reports no change nothing is written and
    [False] returned, and when it reports a change [True] is returned
    exactly in a dry run and in a real run that can write the file; a
    missing or extra final line feed is no change. *)
Theorem change_detector_trims_whole_text :
  (forall original candidate,
     needs_write original candidate = false <->
     exists l1 r1 l2 r2 core,
       original = l1 ++ core ++ r1 /\ candidate = l2 ++ core ++ r2 /\
       blank l1 /\ blank r1 /\ blank l2 /\ blank r2 /\ trimmed core) /\
  (forall path dry_run indent encoding w original formatted,
     text_of encoding w path = Some original -> strip original <> [] ->
     (exists root, ET_fromstring original = inr root) ->
     pretty_print_xml_try original encoding indent true = inr formatted ->
     (exists cdata_sections rough_string dom pretty_xml,
        extract original = (cdata_sections, rough_string) /\
        parseString rough_string = inr dom /\
        toprettyxml dom indent encoding = inr pretty_xml /\
        formatted =
          rstrip (restore cdata_sections
                    (join [LF] (non_empty_lines (split LF pretty_xml)))) ++ [LF]) /\
     let r := format_xml_file path dry_run indent encoding w in
     (needs_write original formatted = false -> r.1 = false /\ files r.2 = files w) /\
     (needs_write original formatted = true ->
      (r.1 = true <->
       dry_run = true \/
       (path ∉ readonly w) /\ exists data, encode encoding formatted = inr data))) /\
  (forall text, needs_write text (text ++ [LF]) = false
                /\ needs_write (text ++ [LF]) text = false).
Proof.
  split; [|split].
  - intros original candidate. unfold needs_write.
    rewrite bool_decide_eq_false, <- strip_eq_iff.
    split; [intros H; symmetry; by apply dec_stable | intros -> ?; done].
  - intros path dry_run indent encoding w original formatted Ht Hne [root Het] Hp. split.
    + unfold pretty_print_xml_try in Hp.
      destruct (extract original) as [secs rough].
      destruct (parseString rough) as [|dom] eqn:E1; [done|].
      destruct (toprettyxml _ _ _) as [|p] eqn:E2; [done|]. injection Hp as <-.
      by exists secs, rough, dom, p.
    + cbv zeta. rewrite format_xml_file_cases, Ht.
      rewrite bool_decide_eq_false_2 by done.
      rewrite Het, Hp.
      split; intros ->; cbn [negb fst snd]; [done|].
      destruct dry_run; [by split; [left|]|].
      destruct (decide (path ∈ readonly w)) as [Hw|Hw].
      { split; [done|]. by intros [|[? _]]. }
      destruct (encode encoding formatted) as [e|data]; cbn [fst].
      * split; [done|]. by intros [|[_ [? ?]]].
      * split; [|done]. intros _. right. split; [done|]. by exists data.
  - assert (Hs : forall text, strip (text ++ [LF]) = strip text).
    { intros text. destruct (strip_decompose text) as (l & r & Ht & Hl & Hr).
      rewrite Ht at 1. rewrite <- !app_assoc.
      apply strip_unique; [done| |apply strip_trimmed].
      apply blank_app. done. }
    intros text. unfold needs_write. rewrite !bool_decide_eq_false, Hs.
    split; intros H; by apply H.
Qed.


Lemma extract_section_shape s po :
  po ∈ (extract s).1 ->
  exists k body, po.1 = placeholder k /\ po.2 = cdata_open ++ body ++ cdata_close.
Proof.
  rewrite extract_sections. intros (k & Hk & Hin)%section_table_elem.
  apply list_elem_of_fmap in Hin as (m & -> & Hm).
  pose proof (finditer_scan_group0 0 0 s) as H. rewrite Forall_forall in H.
  destruct (H m Hm) as [body Hb]. by exists k, body.
Qed.




Lemma validate_xml_structure_cases path w :
  validate_xml_structure path w =
  match text_of "utf-8" w path with
  | None => (false, logged w [record ERROR ("Validation error in " ++ path ++ ": "
                                            ++ read_error "utf-8" w path)])
  | Some content =>
      match ET_fromstring content with
      | inl e => (false, logged w [record ERROR ("Validation error in " ++ path
                                                 ++ ": " ++ e)])
      | inr root => (true, logged w (validation_warnings path root))
      end
  end.
Proof.
  unfold validate_xml_structure, text_of, read_error, validation_warnings. io.
  destruct (files w !! path) as [data|]; [|done].
  destruct (decode _ data) as [e|text]; [done|].
  destruct (ET_fromstring _) as [e|root]; [done|].
  destruct (bool_decide (path_name path = _)).
  - destruct (bool_decide (tag root <> _)), (bool_decide (missing_attrs root <> _));
      cbn [emit]; unfold logged; cbn [log files readonly walk app];
      rewrite <- ?app_assoc, ?app_nil_r; try done.
    by destruct w.
  - cbn. unfold logged. rewrite app_nil_r. by destruct w.
Qed.

(** The validation writes to the log alone. *)
Lemma validate_xml_structure_effect path w :
  exists records, (validate_xml_structure path w).2 = logged w records.
Proof.
  rewrite validate_xml_structure_cases. destruct (text_of _ w path); [|by eexists].
  destruct (ET_fromstring _); by eexists.
Qed.

(** What a read gives depends on the bytes of the file alone. *)
Lemma text_of_ext encoding w1 w2 path :
  files w1 !! path = files w2 !! path ->
  text_of encoding w1 path = text_of encoding w2 path
  /\ read_error encoding w1 path = read_error encoding w2 path.
Proof. unfold text_of, read_error. by intros ->. Qed.

Lemma create_backup_cases path w :
  create_backup path w =
  match files w !! path with
  | None => (None, logged w [record ERROR ("Failed to create backup for " ++ path
                                           ++ ": " ++ errno_ENOENT path)])
  | Some data =>
      if decide (path ++ ".bak" ∈ readonly w) then
        (None, logged w [record ERROR ("Failed to create backup for " ++ path
                                       ++ ": " ++ errno_EACCES (path ++ ".bak"))])
      else
        (Some (path ++ ".bak"),
         {| files := <[path ++ ".bak" := data]> (files w); readonly := readonly w;
            walk := walk w; log := log w |})
  end.
Proof.
  unfold create_backup. io. destruct (files w !! path) as [data|]; [|done].
  unfold write_file. destruct (decide (_ ∈ readonly w)); done.
Qed.

Lemma format_one_unvalidated dry_run backup indent encoding path c w :
  format_one dry_run backup false indent encoding path c w =
  if backup && negb dry_run then
    match create_backup path w with
    | (None, w1) =>
        (c, logged w1 [record WARNING ("Skipping " ++ path ++ " - backup creation failed")])
    | (Some _, w1) =>
        let r := format_xml_file path dry_run indent encoding w1 in (counted c r.1, r.2)
    end
  else
    let r := format_xml_file path dry_run indent encoding w in (counted c r.1, r.2).
Proof.
  unfold format_one. unfold mbind, mret, IO_bind, IO_ret.
  destruct (backup && negb dry_run).
  - destruct (create_backup path w) as [[b|] w1]; [|done].
    destruct (format_xml_file _ _ _ _ w1) as [[] w2]; done.
  - destruct (format_xml_file _ _ _ _ w) as [[] w2]; done.
Qed.

Lemma format_one_validated dry_run backup indent encoding path c w :
  format_one dry_run backup true indent encoding path c w =
  match validate_xml_structure path w with
  | (true, w1) => format_one dry_run backup false indent encoding path c w1
  | (false, w1) =>
      if dry_run then format_one dry_run backup false indent encoding path (invalid c) w1
      else (invalid c, logged w1 [record WARNING ("Skipping " ++ path
                                                  ++ " due to validation errors")])
  end.
Proof.
  unfold format_one. unfold mbind, mret, IO_bind, IO_ret.
  destruct (validate_xml_structure path w) as [[] w1]; [done|].
  destruct dry_run; done.
Qed.

Lemma format_loop_cons dry_run backup validate indent encoding path rest c w :
  format_loop dry_run backup validate indent encoding (path :: rest) c w =
  let r := format_one dry_run backup validate indent encoding path c w in
  format_loop dry_run backup validate indent encoding rest r.1 r.2.
Proof.
  cbn [format_loop]. unfold mbind, IO_bind. by destruct (format_one _ _ _ _ _ _ _ _).
Qed.

Lemma format_xml_file_blind path dry_run indent encoding :
  log_blind (format_xml_file path dry_run indent encoding).
Proof.
  intros w1 w2 (Hf & Hr & Hw). rewrite !format_xml_file_cases.
  destruct (text_of_ext encoding w1 w2 path) as [-> ->]; [by rewrite Hf|].
  rewrite Hf, Hr. destruct (text_of encoding w2 path) as [original|]; [|done].
  case_bool_decide; [done|]. destruct (ET_fromstring original); [done|].
  destruct (pretty_print_xml_try _ _ _ _) as [|formatted]; [done|].
  destruct (negb _); [done|]. destruct dry_run; [done|].
  destruct (decide (path ∈ readonly w2)); [done|].
  destruct (encode encoding formatted); done.
Qed.

Lemma validate_xml_structure_blind path : log_blind (validate_xml_structure path).
Proof.
  intros w1 w2 (Hf & Hr & Hw). rewrite !validate_xml_structure_cases.
  destruct (text_of_ext "utf-8" w1 w2 path) as [-> ->]; [by rewrite Hf|].
  destruct (text_of _ w2 path) as [content|]; [|done].
  destruct (ET_fromstring content); done.
Qed.

Lemma create_backup_blind path : log_blind (create_backup path).
Proof.
  intros w1 w2 (Hf & Hr & Hw). rewrite !create_backup_cases. rewrite Hf, Hr.
  destruct (files w2 !! path); [|done].
  destruct (decide (_ ∈ readonly w2)); done.
Qed.

(** What [format_one] does to the storage depends on the storage alone,
    not on the counters and not on the log. *)
Lemma format_one_store dry_run backup validate indent encoding path c1 c2 w1 w2 :
  same_store w1 w2 ->
  same_store (format_one dry_run backup validate indent encoding path c1 w1).2
             (format_one dry_run backup validate indent encoding path c2 w2).2.
Proof.
  assert (Hun : forall c1 c2 w1 w2, same_store w1 w2 ->
    same_store (format_one dry_run backup false indent encoding path c1 w1).2
               (format_one dry_run backup false indent encoding path c2 w2).2).
  { clear. intros c1 c2 w1 w2 H. rewrite !format_one_unvalidated.
    destruct (backup && negb dry_run).
    - destruct (create_backup_blind path w1 w2 H) as [Hb1 Hb2].
      destruct (create_backup path w1) as [b1 w1'], (create_backup path w2) as [b2 w2'].
      cbn [fst snd] in *. subst b2. destruct b1; [|done].
      by apply format_xml_file_blind.
    - by apply format_xml_file_blind. }
  intros H. destruct validate; [|by apply Hun].
  rewrite !format_one_validated.
  destruct (validate_xml_structure_blind path w1 w2 H) as [Hv1 Hv2].
  destruct (validate_xml_structure path w1) as [v1 w1'],
           (validate_xml_structure path w2) as [v2 w2'].
  cbn [fst snd] in *. subst v2. destruct v1; [by apply Hun|].
  destruct dry_run; [by apply Hun | done].
Qed.

Lemma format_one_blind dry_run backup validate indent encoding path c :
  log_blind (format_one dry_run backup validate indent encoding path c).
Proof.
  assert (Hun : forall c,
    log_blind (format_one dry_run backup false indent encoding path c)).
  { clear. intros c w1 w2 H. rewrite !format_one_unvalidated.
    destruct (backup && negb dry_run).
    - destruct (create_backup_blind path w1 w2 H) as [Hb1 Hb2].
      destruct (create_backup path w1) as [b1 w1'], (create_backup path w2) as [b2 w2'].
      cbn [fst snd] in *. subst b2. destruct b1; [|done].
      destruct (format_xml_file_blind path dry_run indent encoding w1' w2' Hb2) as [E ?].
      cbv zeta. cbn [fst snd]. by rewrite E.
    - destruct (format_xml_file_blind path dry_run indent encoding w1 w2 H) as [E ?].
      cbv zeta. cbn [fst snd]. by rewrite E. }
  intros w1 w2 H. destruct validate; [|by apply Hun].
  rewrite !format_one_validated.
  destruct (validate_xml_structure_blind path w1 w2 H) as [Hv1 Hv2].
  destruct (validate_xml_structure path w1) as [v1 w1'],
           (validate_xml_structure path w2) as [v2 w2'].
  cbn [fst snd] in *. subst v2. destruct v1; [by apply Hun|].
  destruct dry_run; [by apply Hun | done].
Qed.

Lemma format_loop_store dry_run backup validate indent encoding xml_files c1 c2 w1 w2 :
  same_store w1 w2 ->
  same_store (format_loop dry_run backup validate indent encoding xml_files c1 w1).2
             (format_loop dry_run backup validate indent encoding xml_files c2 w2).2.
Proof.
  revert c1 c2 w1 w2. induction xml_files as [|path rest IH]; intros c1 c2 w1 w2 H.
  - done.
  - rewrite !format_loop_cons. cbv zeta. apply IH. by apply format_one_store.
Qed.

Lemma bak_neq (path : str) : path ++ ".bak" <> path.
Proof.
  intros H. apply (f_equal length) in H. rewrite length_app in H. simpl in H. lia.
Qed.

(** C4, amended: a document that does not parse and is not blank makes
    [format_xml_file] return [False] without touching the storage, the
    parser's reason being logged in a non-empty error record; in the batch
    the file is not counted as formatted, keeps its content, and the loop
    goes on with the remaining files, on which it acts as if the failed file
    had not been listed (when no backup is taken). *)
Theorem malformed_file_fails_alone
    path dry_run backup validate indent encoding w data original reason rest c :
  files w !! path = Some data ->
  text_of encoding w path = Some original ->
  ~ blank original ->
  ET_fromstring original = inl reason ->
  let r := format_xml_file path dry_run indent encoding w in
  let one := format_one dry_run backup validate indent encoding path c w in
  let loop := format_loop dry_run backup validate indent encoding in
  r.1 = false /\ files r.2 = files w /\
  (exists msg, msg <> [] /\ occurs reason msg /\ r.2 = logged w [record ERROR msg]) /\
  formatted_count one.1 = formatted_count c /\
  files one.2 !! path = Some data /\
  (backup = false -> files one.2 = files w) /\
  loop (path :: rest) c w = loop rest one.1 one.2 /\
  (backup = false -> files (loop (path :: rest) c w).2 = files (loop rest c w).2).
Proof.
  intros Hf Ht Hb Het. cbv zeta.
  assert (Hfile : forall w', files w' !! path = Some data ->
    format_xml_file path dry_run indent encoding w'
    = (false, logged w' [record ERROR (ballot_x ++ " Invalid XML in " ++ path ++ ": "
                                       ++ reason)])).
  { intros w' Hw'. rewrite format_xml_file_cases.
    destruct (text_of_ext encoding w' w path) as [-> _]; [by rewrite Hw'|].
    rewrite Ht, bool_decide_eq_false_2, Het; [done|].
    intros Hs. apply Hb, strip_blank, Hs. }
  assert (Hun : forall c w', files w' !! path = Some data ->
    let one := format_one dry_run backup false indent encoding path c w' in
    formatted_count one.1 = formatted_count c /\ files one.2 !! path = Some data /\
    (backup = false -> files one.2 = files w')).
  { intros c0 w' Hw'. cbv zeta. rewrite format_one_unvalidated.
    destruct backup; cbn [andb].
    - destruct (negb dry_run).
      + rewrite create_backup_cases, Hw'.
        destruct (decide (_ ∈ readonly w')); [done|].
        rewrite Hfile; [|cbn; by rewrite lookup_insert_ne by apply bak_neq].
        cbn. rewrite lookup_insert_ne by apply bak_neq. done.
      + by rewrite Hfile.
    - by rewrite Hfile. }
  assert (Hone : let one := format_one dry_run backup validate indent encoding path c w in
    formatted_count one.1 = formatted_count c /\ files one.2 !! path = Some data /\
    (backup = false -> files one.2 = files w)).
  { cbv zeta. destruct validate; [|by apply Hun].
    rewrite format_one_validated.
    destruct (validate_xml_structure_effect path w) as [records E].
    destruct (validate_xml_structure path w) as [v w1]. cbn [snd] in E. subst w1.
    destruct v; [by apply (Hun c (logged w records))|].
    destruct dry_run; [|done]. by apply (Hun (invalid c) (logged w records)). }
  rewrite Hfile by done. cbv zeta in Hone. destruct Hone as (H1 & H2 & H3).
  split; [done|]. split; [done|]. split.
  { eexists. split; [|split; [|reflexivity]].
    - by destruct ballot_x.
    - exists (ballot_x ++ " Invalid XML in " ++ path ++ ": "), [].
      by rewrite app_nil_r, <- !app_assoc. }
  split; [done|]. split; [done|]. split; [done|]. split.
  - by rewrite format_loop_cons.
  - intros Hbk. rewrite format_loop_cons. cbv zeta.
    apply format_loop_store. split; [by apply H3|].
    clear -Hf Hfile Hbk. subst backup.
    assert (Hun : forall c w', same_store w' w -> files w' !! path = Some data ->
      same_store (format_one dry_run false false indent encoding path c w').2 w).
    { intros c0 w' Hs Hw'. rewrite format_one_unvalidated. cbn [andb].
      rewrite Hfile by done. done. }
    destruct validate; [|by apply Hun].
    rewrite format_one_validated.
    destruct (validate_xml_structure_effect path w) as [records E].
    destruct (validate_xml_structure path w) as [v w1]. cbn [snd] in E. subst w1.
    destruct v; [by apply Hun|]. destruct dry_run; [|done]. by apply Hun.
Qed.

(** The validation is advisory.  For a manifest that parses and lacks
    required attributes, [validate_xml_structure] returns [True], leaves the
    storage as it is, and its last warning lists the missing attributes,
    those and no others; the loop then treats the file as it does without
    validation: same counters, same storage. *)
Theorem missing_attributes_are_advisory
    path dry_run backup indent encoding w content root c :
  path_name path = "addon.xml" ->
  text_of "utf-8" w path = Some content ->
  ET_fromstring content = inr root ->
  missing_attrs root <> [] ->
  let v := validate_xml_structure path w in
  let checked := format_one dry_run backup true indent encoding path c w in
  let unchecked := format_one dry_run backup false indent encoding path c w in
  v.1 = true /\ files v.2 = files w /\
  (forall attr, attr ∈ missing_attrs root <->
                attr ∈ required_attrs /\ attr ∉ (attrib root).*1) /\
  (exists before,
     v.2 = logged w (before ++
             [record WARNING ("Missing required attributes in " ++ path ++ ": "
                              ++ repr_list (missing_attrs root))]) /\
     forall r, r ∈ before ->
       r = record WARNING ("addon.xml should have 'addon' as root element in " ++ path)) /\
  checked.1 = unchecked.1 /\ files checked.2 = files unchecked.2.
Proof.
  intros Hname Hf Het Hmiss. cbv zeta.
  rewrite format_one_validated, validate_xml_structure_cases, Hf, Het.
  cbn [fst snd]. split; [done|]. split; [done|]. split.
  { intros attr. unfold missing_attrs. rewrite list_elem_of_filter. tauto. }
  split.
  { unfold validation_warnings.
    rewrite (bool_decide_eq_true_2 _ Hname), (bool_decide_eq_true_2 _ Hmiss).
    eexists. split; [reflexivity|]. intros r.
    case_bool_decide; [|by intros ?%elem_of_nil]. by intros ->%list_elem_of_singleton. }
  destruct (format_one_blind dry_run backup false indent encoding path c
              (logged w (validation_warnings path root)) w) as [-> [-> _]]; done.
Qed.

End ScriptFacts.

(** ** The discovery of the files *)

(** Unfolds the monad and the logger. *)
Ltac run_io := unfold mbind, mret, IO_bind, IO_ret, logger_info, logger_error,
  logger_warning, logger_debug, emit.

Section DiscoveryFacts.

#[global] Instance kept_dec exclude_patterns file_path :
  Decision (kept exclude_patterns file_path).
Proof. unfold kept. apply _. Defined.

Lemma find_Some_not_kept exclude_patterns file_path pattern :
  List.find (fun pattern => contains pattern file_path) exclude_patterns = Some pattern ->
  pattern ∈ exclude_patterns /\ occurs pattern file_path /\
  ~ kept exclude_patterns file_path.
Proof.
  intros H. apply find_some in H as [Hin Hc]. apply list_elem_of_In in Hin.
  apply contains_occurs in Hc. split; [done|]. split; [done|].
  intros Hk. unfold kept in Hk. rewrite Forall_forall in Hk. by apply (Hk pattern).
Qed.

Lemma find_None_kept exclude_patterns file_path :
  List.find (fun pattern => contains pattern file_path) exclude_patterns = None ->
  kept exclude_patterns file_path.
Proof.
  intros H. apply Forall_forall. intros pattern Hin Ho.
  apply list_elem_of_In in Hin. pose proof (find_none _ _ H pattern Hin) as Hc.
  apply contains_false in Hc. by apply Hc.
Qed.

(** The loop appends the kept paths to its list, in their order, and logs
    the exclusions. *)
Lemma find_loop_spec exclude_patterns found xml_files w :
  find_loop exclude_patterns found xml_files w
  = (xml_files ++ filter (kept exclude_patterns) found,
     logged w (exclusion_records exclude_patterns found)).
Proof.
  revert xml_files w. induction found as [|file_path found IH]; intros xml_files w.
  - cbn [find_loop exclusion_records]. rewrite filter_nil, app_nil_r.
    unfold logged. rewrite app_nil_r. by destruct w.
  - cbn [find_loop exclusion_records].
    destruct (List.find _ exclude_patterns) as [pattern|] eqn:E.
    + apply find_Some_not_kept in E as (_ & _ & Hk).
      rewrite filter_cons_False by done. run_io. rewrite IH.
      unfold logged. simpl. by rewrite <- app_assoc.
    + apply find_None_kept in E. rewrite filter_cons_True by done.
      rewrite IH. by rewrite <- app_assoc.
Qed.

End DiscoveryFacts.

(** ** What a run may write *)

Section BatchFacts.
Context {lib : XmlLibrary} {codecs : Codecs}.

(** [format_xml_file] leaves the storage as it is, or replaces the content
    of its file by the bytes of the formatted text, or empties it when that
    text cannot be encoded. *)
Lemma format_xml_file_effect path dry_run indent encoding w :
  let r := format_xml_file path dry_run indent encoding w in
  readonly r.2 = readonly w /\ walk r.2 = walk w /\
  ((r.1 = false \/ dry_run = true) /\ files r.2 = files w \/
   dry_run = false /\ (path ∉ readonly w) /\
   exists original formatted,
     text_of encoding w path = Some original /\
     pretty_print_xml_try original encoding indent true = inr formatted /\
     needs_write original formatted = true /\
     match encode encoding formatted with
     | inr data => r.1 = true /\ files r.2 = <[path := data]> (files w)
     | inl _ => r.1 = false /\ files r.2 = <[path := []]> (files w)
     end).
Proof.
  cbv zeta. rewrite format_xml_file_cases.
  destruct (text_of encoding w path) as [original|] eqn:Et; [|by auto 10].
  case_bool_decide; [by auto 10|].
  destruct (ET_fromstring original); [by auto 10|].
  destruct (pretty_print_xml_try _ _ _ _) as [|formatted] eqn:Ep; [by auto 10|].
  destruct (needs_write original formatted) eqn:En; cbn [negb]; [|by auto 10].
  destruct dry_run; [by auto 10|].
  destruct (decide (path ∈ readonly w)); [by auto 10|].
  assert (Hrw : forall o : bool * World,
    o = match encode encoding formatted with
        | inl e =>
            (false, logged {| files := <[path := []]> (files w); readonly := readonly w;
                              walk := walk w; log := log w |}
                      [record ERROR (ballot_x ++ " Error processing " ++ path ++ ": " ++ e)])
        | inr data =>
            (true, logged {| files := <[path := data]> (files w); readonly := readonly w;
                             walk := walk w; log := log w |}
                     [record INFO (check_mark ++ " Formatted: " ++ path)])
        end ->
    readonly o.2 = readonly w /\ walk o.2 = walk w /\
    ((o.1 = false \/ false = true) /\ files o.2 = files w \/
     false = false /\ (path ∉ readonly w) /\
     exists original0 formatted0,
       Some original = Some original0 /\
       pretty_print_xml_try original0 encoding indent true = inr formatted0 /\
       needs_write original0 formatted0 = true /\
       match encode encoding formatted0 with
       | inr data => o.1 = true /\ files o.2 = <[path := data]> (files w)
       | inl _ => o.1 = false /\ files o.2 = <[path := []]> (files w)
       end)).
  { intros o ->. split; [by destruct (encode _ _)|]. split; [by destruct (encode _ _)|].
    right. split; [done|]. split; [done|]. exists original, formatted.
    split; [done|]. split; [done|]. split; [done|]. by destruct (encode _ _). }
  by apply Hrw.
Qed.

Lemma format_xml_file_changes path dry_run indent encoding w q :
  files (format_xml_file path dry_run indent encoding w).2 !! q <> files w !! q ->
  dry_run = false /\ q = path.
Proof.
  destruct (format_xml_file_effect path dry_run indent encoding w)
    as (_ & _ & [[_ E]|(Hd & _ & original & formatted & _ & _ & _ & E)]).
  { by rewrite E. }
  intros H. split; [done|]. destruct (decide (q = path)) as [|Hne]; [done|].
  destruct (encode encoding formatted); destruct E as [_ E]; rewrite E in H;
    by rewrite lookup_insert_ne in H.
Qed.

(** One iteration changes its file and, with a backup in a real run, the
    backup of its file; nothing else. *)
Lemma format_one_changes dry_run backup validate indent encoding path c w :
  let r := format_one dry_run backup validate indent encoding path c w in
  readonly r.2 = readonly w /\ walk r.2 = walk w /\
  forall q, files r.2 !! q <> files w !! q ->
    dry_run = false /\ (q = path \/ backup = true /\ q = path ++ ".bak").
Proof.
  assert (Hun : forall c w,
    let r := format_one dry_run backup false indent encoding path c w in
    readonly r.2 = readonly w /\ walk r.2 = walk w /\
    forall q, files r.2 !! q <> files w !! q ->
      dry_run = false /\ (q = path \/ backup = true /\ q = path ++ ".bak")).
  { clear. intros c w. cbv zeta. rewrite format_one_unvalidated.
    destruct (backup && negb dry_run) eqn:Eb.
    - apply andb_true_iff in Eb as [-> ->%negb_true_iff].
      rewrite create_backup_cases. destruct (files w !! path) as [data|]; [|done].
      destruct (decide (_ ∈ readonly w)); [done|]. cbv zeta. cbn [fst snd].
      set (w1 := {| files := _ |}).
      destruct (format_xml_file_effect path false indent encoding w1) as (Hr & Hw & _).
      split; [by rewrite Hr|]. split; [by rewrite Hw|]. intros q Hq. split; [done|].
      destruct (decide (q = path)) as [|Hne]; [by left|]. right. split; [done|].
      destruct (decide (q = path ++ ".bak")) as [|Hne']; [done|]. exfalso. apply Hq.
      destruct (decide (files (format_xml_file path false indent encoding w1).2 !! q
                        = files w1 !! q)) as [E|E].
      + rewrite E. subst w1. cbn [files]. by rewrite lookup_insert_ne.
      + by apply format_xml_file_changes in E as [_ ?].
    - cbv zeta. cbn [fst snd].
      destruct (format_xml_file_effect path dry_run indent encoding w) as (Hr & Hw & _).
      split; [done|]. split; [done|]. intros q Hq.
      apply format_xml_file_changes in Hq as [-> ->]. by auto. }
  destruct validate; [|by apply Hun]. cbv zeta. rewrite format_one_validated.
  destruct (validate_xml_structure_effect path w) as [records E].
  destruct (validate_xml_structure path w) as [v w1]. cbn [snd] in E. subst w1.
  destruct v; [exact (Hun c (logged w records))|].
  destruct dry_run; [exact (Hun (invalid c) (logged w records))|]. done.
Qed.

(** The loop changes files of its list and, with a backup in a real run,
    their backups. *)
Lemma format_loop_changes dry_run backup validate indent encoding xml_files c w :
  let r := format_loop dry_run backup validate indent encoding xml_files c w in
  readonly r.2 = readonly w /\ walk r.2 = walk w /\
  forall q, files r.2 !! q <> files w !! q ->
    dry_run = false /\
    exists p, p ∈ xml_files /\ (q = p \/ backup = true /\ q = p ++ ".bak").
Proof.
  revert c w. induction xml_files as [|path rest IH]; intros c w; [done|].
  cbv zeta. rewrite format_loop_cons. cbv zeta.
  destruct (format_one_changes dry_run backup validate indent encoding path c w)
    as (Hr1 & Hw1 & H1).
  set (r1 := format_one dry_run backup validate indent encoding path c w) in *.
  destruct (IH r1.1 r1.2) as (Hr & Hw & H). cbv zeta in H.
  split; [by rewrite Hr|]. split; [by rewrite Hw|]. intros q Hq.
  destruct (decide (files r1.2 !! q = files w !! q)) as [E|E].
  - rewrite <- E in Hq. destruct (H q Hq) as [Hd (p & Hp & Hq')].
    split; [done|]. exists p. split; [by right|done].
  - destruct (H1 q E) as [Hd Hq']. split; [done|]. exists path. split; [by left|done].
Qed.

Lemma same_store_logged_l w1 w2 records :
  same_store w1 w2 -> same_store (logged w1 records) w2.
Proof. done. Qed.

Lemma find_xml_files_spec directory exclude_patterns w :
  find_xml_files directory exclude_patterns w =
  match walk w directory with
  | Missing =>
      ([], logged w [record ERROR ("Directory does not exist: " ++ directory)])
  | NotADirectory =>
      ([], logged w [record ERROR ("Path is not a directory: " ++ directory)])
  | Directory found =>
      (filter (kept exclude_patterns) found,
       logged w (exclusion_records exclude_patterns found
                 ++ [record INFO ("Found "
                                  ++ of_nat (length (filter (kept exclude_patterns) found))
                                  ++ " XML files in " ++ directory)]))
  end.
Proof.
  unfold find_xml_files. run_io. destruct (walk w directory) as [| |found]; [done..|].
  rewrite find_loop_spec. cbn [app]. unfold logged. cbn [files readonly walk log].
  by rewrite <- app_assoc.
Qed.

(** The storage after [format_directory] is the storage after the loop over
    the files found. *)
Lemma format_directory_store directory dry_run backup exclude_patterns indent
    encoding validate w :
  same_store
    (format_directory directory dry_run backup exclude_patterns indent encoding
       validate w).2
    (format_loop dry_run backup validate indent encoding
       (find_xml_files directory exclude_patterns w).1
       {| formatted_count := 0; error_count := 0; validation_errors := 0 |} w).2.
Proof.
  unfold format_directory. run_io.
  assert (Hw : same_store (find_xml_files directory exclude_patterns w).2 w).
  { rewrite find_xml_files_spec. by destruct (walk w directory). }
  destruct (find_xml_files directory exclude_patterns w) as [xml_files w1].
  cbn [fst snd] in *. case_bool_decide as Hnil.
  - subst xml_files. done.
  - set (w2 := {| files := files w1 |}).
    assert (Hl : same_store
      (format_loop dry_run backup validate indent encoding xml_files
         {| formatted_count := 0; error_count := 0; validation_errors := 0 |} w2).2
      (format_loop dry_run backup validate indent encoding xml_files
         {| formatted_count := 0; error_count := 0; validation_errors := 0 |} w).2).
    { by apply format_loop_store. }
    destruct (format_loop _ _ _ _ _ xml_files _ w2) as [c w3]. cbn [snd] in Hl.
    do 2 case_bool_decide; done.
Qed.

(** X1: [find_xml_files] returns the paths of the walk in which no exclude
    pattern occurs, in the order of the walk, and leaves the storage as it
    is; it logs one record for each excluded path and then the number of
    paths it returns.  For a directory that does not exist, or a path that
    is not a directory, it returns the empty list and logs one error. *)
Theorem find_xml_files_keeps_unexcluded directory exclude_patterns w :
  let r := find_xml_files directory exclude_patterns w in
  same_store w r.2 /\
  (walk w directory = Missing ->
   r = ([], logged w [record ERROR ("Directory does not exist: " ++ directory)])) /\
  (walk w directory = NotADirectory ->
   r = ([], logged w [record ERROR ("Path is not a directory: " ++ directory)])) /\
  (forall found, walk w directory = Directory found ->
     r.1 = filter (kept exclude_patterns) found /\
     (forall p, p ∈ r.1 <->
        p ∈ found /\ forall pattern, pattern ∈ exclude_patterns -> ~ occurs pattern p) /\
     log r.2 = log w ++ exclusion_records exclude_patterns found
               ++ [record INFO ("Found " ++ of_nat (length r.1) ++ " XML files in "
                                ++ directory)]).
Proof.
  cbv zeta. rewrite find_xml_files_spec. split; [by destruct (walk w directory)|].
  split; [by intros ->|]. split; [by intros ->|]. intros found ->. cbn [fst snd].
  split; [done|]. split; [|done]. intros p. rewrite list_elem_of_filter.
  unfold kept. rewrite Forall_forall. tauto.
Qed.

(** X2: an empty exclude pattern occurs in every path, so with it among the
    patterns [find_xml_files] returns no file. *)
Theorem empty_pattern_excludes_every_file directory exclude_patterns w :
  [] ∈ exclude_patterns -> (find_xml_files directory exclude_patterns w).1 = [].
Proof.
  intros Hin. rewrite find_xml_files_spec.
  destruct (walk w directory) as [| |found]; [done..|]. cbn [fst].
  induction found as [|p found IH]; [done|]. rewrite filter_cons_False; [done|].
  unfold kept. rewrite Forall_forall. intros Hk. apply (Hk [] Hin). by exists [], p.
Qed.

(** X3: [format_directory] changes no file but the files it finds and, when
    a backup is asked for, their backups; in a dry run it changes none. *)
Theorem format_directory_writes_only_found_files directory dry_run backup
    exclude_patterns indent encoding validate w :
  let r := format_directory directory dry_run backup exclude_patterns indent
             encoding validate w in
  readonly r.2 = readonly w /\ walk r.2 = walk w /\
  forall q, files r.2 !! q <> files w !! q ->
    dry_run = false /\
    exists found p,
      walk w directory = Directory found /\ p ∈ found /\ kept exclude_patterns p /\
      (q = p \/ backup = true /\ q = p ++ ".bak").
Proof.
  cbv zeta.
  destruct (format_directory_store directory dry_run backup exclude_patterns indent
              encoding validate w) as (Hf & Hr & Hw).
  destruct (format_loop_changes dry_run backup validate indent encoding
              (find_xml_files directory exclude_patterns w).1
              {| formatted_count := 0; error_count := 0; validation_errors := 0 |} w)
    as (Hr' & Hw' & H).
  split; [by rewrite Hr|]. split; [by rewrite Hw|]. intros q Hq. rewrite Hf in Hq.
  destruct (H q Hq) as [Hd (p & Hp & Hq')]. split; [done|].
  rewrite find_xml_files_spec in Hp.
  destruct (walk w directory) as [| |found]; [by apply elem_of_nil in Hp..|].
  cbn [fst] in Hp. apply list_elem_of_filter in Hp as [Hk Hp]. by exists found, p.
Qed.

(** X4: a dry run of [format_directory] leaves the whole storage as it is,
    also when backups are asked for. *)
Theorem dry_run_batch_writes_nothing directory backup exclude_patterns indent
    encoding validate w :
  same_store w (format_directory directory true backup exclude_patterns indent
                  encoding validate w).2.
Proof.
  destruct (format_directory_store directory true backup exclude_patterns indent
              encoding validate w) as (Hf & Hr & Hw).
  destruct (format_loop_changes true backup validate indent encoding
              (find_xml_files directory exclude_patterns w).1
              {| formatted_count := 0; error_count := 0; validation_errors := 0 |} w)
    as (Hr' & Hw' & H).
  split; [|split; congruence]. rewrite Hf. apply map_eq. intros q.
  destruct (decide (files (format_loop true backup validate indent encoding
                             (find_xml_files directory exclude_patterns w).1
                             {| formatted_count := 0; error_count := 0;
                                validation_errors := 0 |} w).2 !! q
                    = files w !! q)) as [E|E]; [done|].
  by destruct (H q E) as [? _].
Qed.

(** X5: in a real run with backups, once the validation has passed (or is
    off), the backup [path.bak] holds the bytes the file held before the
    iteration, whatever the formatting then does to the file. *)
Theorem backup_holds_original validate indent encoding path c w data :
  files w !! path = Some data ->
  path ++ ".bak" ∉ readonly w ->
  (validate = true ->
   exists content root,
     text_of "utf-8" w path = Some content /\ ET_fromstring content = inr root) ->
  files (format_one false true validate indent encoding path c w).2 !! (path ++ ".bak")
  = Some data.
Proof.
  intros Hf Hb Hv.
  assert (Hun : forall w', files w' = files w -> readonly w' = readonly w ->
    files (format_one false true false indent encoding path c w').2
      !! (path ++ ".bak") = Some data).
  { intros w' Ef Er. rewrite format_one_unvalidated. cbn [andb negb].
    rewrite create_backup_cases. rewrite Ef, Er, Hf.
    destruct (decide (path ++ ".bak" ∈ readonly w)); [done|]. cbv zeta. cbn [fst snd].
    set (w1 := {| files := _ |}).
    destruct (decide (files (format_xml_file path false indent encoding w1).2
                        !! (path ++ ".bak") = files w1 !! (path ++ ".bak"))) as [E|E].
    - rewrite E. subst w1. cbn [files]. by rewrite lookup_insert_eq.
    - apply format_xml_file_changes in E as [_ E]. by apply bak_neq in E. }
  destruct validate.
  - destruct (Hv eq_refl) as (content & root & Hc & Hroot). rewrite format_one_validated.
    rewrite validate_xml_structure_cases, Hc, Hroot. by apply Hun.
  - by apply Hun.
Qed.

(** X6: in a real run with backups, a file whose backup cannot be written
    (the file cannot be read, or [path.bak] cannot be opened for writing) is
    skipped: the storage is left as it is, the file is counted neither as
    formatted nor as a formatting error, and the last record of the log is
    the warning that the file is skipped. *)
Theorem failed_backup_skips_file validate indent encoding path c w :
  files w !! path = None \/ path ++ ".bak" ∈ readonly w ->
  let r := format_one false true validate indent encoding path c w in
  files r.2 = files w /\
  formatted_count r.1 = formatted_count c /\ error_count r.1 = error_count c /\
  exists records,
    log r.2 = log w ++ records
              ++ [record WARNING ("Skipping " ++ path ++ " - backup creation failed")]
    \/ log r.2 = log w ++ records
                 ++ [record WARNING ("Skipping " ++ path ++ " due to validation errors")].
Proof.
  intros H.
  assert (Hun : forall c w' records,
    files w' = files w -> readonly w' = readonly w -> log w' = log w ++ records ->
    let r := format_one false true false indent encoding path c w' in
    files r.2 = files w /\
    formatted_count r.1 = formatted_count c /\ error_count r.1 = error_count c /\
    exists records',
      log r.2 = log w ++ (records ++ records')
                ++ [record WARNING ("Skipping " ++ path ++ " - backup creation failed")]).
  { intros c' w' records Ef Er El. cbv zeta. rewrite format_one_unvalidated.
    cbn [andb negb]. rewrite create_backup_cases, Ef, Er.
    destruct (files w !! path) as [data|].
    - destruct H as [H|H]; [done|].
      destruct (decide (path ++ ".bak" ∈ readonly w)); [|done].
      do 3 (split; [done|]).
      exists [record ERROR ("Failed to create backup for " ++ path ++ ": "
                            ++ errno_EACCES (path ++ ".bak"))].
      cbn [log snd logged]. rewrite El. by repeat rewrite <- app_assoc.
    - do 3 (split; [done|]).
      exists [record ERROR ("Failed to create backup for " ++ path ++ ": "
                            ++ errno_ENOENT path)].
      cbn [log snd logged]. rewrite El. by repeat rewrite <- app_assoc. }
  cbv zeta. destruct validate.
  - rewrite format_one_validated.
    destruct (validate_xml_structure_effect path w) as [records E].
    destruct (validate_xml_structure path w) as [v w1] eqn:Ev. cbn [snd] in E. subst w1.
    destruct v.
    + destruct (Hun c (logged w records) records) as (H1 & H2 & H3 & records' & H4);
        [done..|].
      do 3 (split; [done|]). exists (records ++ records'). by left.
    + cbn [fst snd]. do 3 (split; [done|]). exists records. right.
      cbn [log logged]. by rewrite <- app_assoc.
  - destruct (Hun c w []) as (H1 & H2 & H3 & records' & H4);
      [done|done|by rewrite app_nil_r|].
    do 3 (split; [done|]). exists records'. by left.
Qed.

(** The counters after one iteration. *)
Lemma format_one_counters dry_run backup validate indent encoding path c w :
  let c' := (format_one dry_run backup validate indent encoding path c w).1 in
  formatted_count c <= formatted_count c' /\
  error_count c <= error_count c' /\
  validation_errors c <= validation_errors c' <= validation_errors c + 1 /\
  formatted_count c' + error_count c' <= formatted_count c + error_count c + 1 /\
  (validate = false -> validation_errors c' = validation_errors c) /\
  (dry_run = true \/ validate = false /\ backup = false ->
   formatted_count c' + error_count c' = formatted_count c + error_count c + 1).
Proof.
  assert (Hun : forall c w,
    let c' := (format_one dry_run backup false indent encoding path c w).1 in
    formatted_count c <= formatted_count c' /\
    error_count c <= error_count c' /\
    validation_errors c' = validation_errors c /\
    formatted_count c' + error_count c' <= formatted_count c + error_count c + 1 /\
    (dry_run = true \/ backup = false ->
     formatted_count c' + error_count c' = formatted_count c + error_count c + 1)).
  { clear. intros c w. cbv zeta. rewrite format_one_unvalidated.
    destruct (backup && negb dry_run) eqn:Eb.
    - apply andb_true_iff in Eb as [-> ->%negb_true_iff].
      destruct (create_backup path w) as [[b|] w1]; cbn [fst snd].
      + destruct (format_xml_file path false indent encoding w1).1; simpl; lia.
      + repeat split; try lia.
    - cbv zeta. cbn [fst].
      destruct (format_xml_file path dry_run indent encoding w).1; simpl; lia. }
  cbv zeta. destruct validate.
  - rewrite format_one_validated.
    destruct (validate_xml_structure path w) as [[|] w1].
    + destruct (Hun c w1) as (H1 & H2 & H3 & H4 & H5). cbv zeta in *.
      intuition (try congruence; lia).
    + destruct dry_run.
      * destruct (Hun (invalid c) w1) as (H1 & H2 & H3 & H4 & H5). cbv zeta in *.
        simpl in *. intuition (try congruence; lia).
      * simpl. intuition (try congruence; lia).
  - destruct (Hun c w) as (H1 & H2 & H3 & H4 & H5). cbv zeta in *.
    intuition (try congruence; lia).
Qed.

(** X7: the loop counts each file at most once as formatted or as a
    formatting error, and at most once as a validation error; the counters
    never decrease; when no file can be skipped (a dry run, or a run without
    validation and without backups) each file is counted once as formatted or
    as a formatting error. *)
Theorem every_file_is_counted_at_most_once dry_run backup validate indent encoding
    xml_files c w :
  let c' := (format_loop dry_run backup validate indent encoding xml_files c w).1 in
  formatted_count c <= formatted_count c' /\
  error_count c <= error_count c' /\
  validation_errors c <= validation_errors c' <= validation_errors c + length xml_files /\
  formatted_count c' + error_count c'
  <= formatted_count c + error_count c + length xml_files /\
  (validate = false -> validation_errors c' = validation_errors c) /\
  (dry_run = true \/ validate = false /\ backup = false ->
   formatted_count c' + error_count c'
   = formatted_count c + error_count c + length xml_files).
Proof.
  revert c w. induction xml_files as [|path rest IH]; intros c w.
  - simpl. repeat split; lia.
  - cbv zeta. rewrite format_loop_cons. cbv zeta.
    pose proof (format_one_counters dry_run backup validate indent encoding path c w)
      as H1. cbv zeta in H1.
    set (r1 := format_one dry_run backup validate indent encoding path c w) in *.
    pose proof (IH r1.1 r1.2) as H2. cbv zeta in H2.
    destruct H1 as (A1 & A2 & A3 & A4 & A5 & A6), H2 as (B1 & B2 & B3 & B4 & B5 & B6).
    simpl length. repeat split; try lia.
    + intros Hv. rewrite (B5 Hv), (A5 Hv). done.
    + intros Hs. rewrite (B6 Hs). pose proof (A6 Hs). lia.
Qed.

(** X8: a file that fails the validation (its UTF-8 reading fails or does
    not parse) is left as it is.  A real run counts it as a validation error
    and skips it; a dry run goes on to [format_xml_file] and counts the file
    a second time, by what [format_xml_file] returns; when the reading with
    the encoding of the run gives what the UTF-8 reading gave,
    [format_xml_file] fails too and the file is counted as a validation
    error and as a formatting error. *)
Theorem invalid_file_is_counted dry_run backup indent encoding path c w :
  (validate_xml_structure path w).1 = false ->
  let r := format_one dry_run backup true indent encoding path c w in
  let would := (format_xml_file path true indent encoding w).1 in
  files r.2 = files w /\
  r.1 = (if dry_run then counted (invalid c) would else invalid c) /\
  (text_of encoding w path = text_of "utf-8" w path -> would = false).
Proof.
  intros Hv. cbv zeta. rewrite format_one_validated.
  destruct (validate_xml_structure_effect path w) as [records E].
  destruct (validate_xml_structure path w) as [v w1] eqn:Ev. cbn [fst snd] in *.
  subst v w1. split; [|split].
  - destruct dry_run; [|done]. rewrite format_one_unvalidated, andb_false_r. cbv zeta.
    destruct (format_xml_file_effect path true indent encoding (logged w records))
      as (_ & _ & [[_ Ef]|(Hd & _)]); done.
  - destruct dry_run; [|done]. rewrite format_one_unvalidated, andb_false_r. cbv zeta.
    by destruct (format_xml_file_blind path true indent encoding (logged w records) w)
      as [-> _].
  - intros Ht. rewrite validate_xml_structure_cases in Ev.
    rewrite format_xml_file_cases, Ht.
    destruct (text_of "utf-8" w path) as [content|]; [|done].
    case_bool_decide; [done|]. by destruct (ET_fromstring content).
Qed.

Lemma format_one_up_to_date dry_run validate indent encoding path c w :
  up_to_date indent encoding w path ->
  (validate = true -> (validate_xml_structure path w).1 = true) ->
  let r := format_one dry_run false validate indent encoding path c w in
  same_store r.2 w /\
  r.1 = {| formatted_count := formatted_count c; error_count := error_count c + 1;
           validation_errors := validation_errors c |}.
Proof.
  intros (original & formatted & Et & Hb & [root Hr] & Hp & Hn) Hv.
  assert (Hun : forall w', same_store w' w ->
    let r := format_one dry_run false false indent encoding path c w' in
    same_store r.2 w /\
    r.1 = {| formatted_count := formatted_count c; error_count := error_count c + 1;
             validation_errors := validation_errors c |}).
  { intros w' (Ef & Er & Ew). cbv zeta. rewrite format_one_unvalidated. cbn [andb].
    cbv zeta. rewrite format_xml_file_cases.
    destruct (text_of_ext encoding w' w path) as [-> _]; [by rewrite Ef|].
    rewrite Et, bool_decide_eq_false_2 by done. rewrite Hr, Hp, Hn. done. }
  cbv zeta. destruct validate; [|by apply Hun].
  rewrite format_one_validated. specialize (Hv eq_refl).
  destruct (validate_xml_structure_effect path w) as [records E].
  destruct (validate_xml_structure path w) as [v w1]. cbn [fst snd] in *. subst v w1.
  by apply Hun.
Qed.

(** X9: a file that is formatted already is left as it is and counted as a
    formatting error: after the loop over such files, without backups and
    with a validation that passes (or none), the error counter has grown by
    their number and the storage is as it was. *)
Theorem up_to_date_files_count_as_errors dry_run validate indent encoding
    xml_files c w :
  Forall (up_to_date indent encoding w) xml_files ->
  (validate = true ->
   Forall (fun path => (validate_xml_structure path w).1 = true) xml_files) ->
  let r := format_loop dry_run false validate indent encoding xml_files c w in
  files r.2 = files w /\
  r.1 = {| formatted_count := formatted_count c;
           error_count := error_count c + length xml_files;
           validation_errors := validation_errors c |}.
Proof.
  intros H Hv. cbv zeta.
  assert (Hgen : forall c w', same_store w' w ->
    let r := format_loop dry_run false validate indent encoding xml_files c w' in
    files r.2 = files w /\
    r.1 = {| formatted_count := formatted_count c;
             error_count := error_count c + length xml_files;
             validation_errors := validation_errors c |}); [|by apply Hgen].
  clear c. induction H as [|path rest Hp _ IH]; intros c w' Hs.
  - cbv zeta. simpl. split; [by destruct Hs|]. destruct c. simpl. f_equal. lia.
  - cbv zeta. rewrite format_loop_cons. cbv zeta.
    assert (Hp' : up_to_date indent encoding w' path).
    { destruct Hp as (original & formatted & Et & Hrest).
      exists original, formatted. split; [|done].
      destruct (text_of_ext encoding w' w path) as [-> _]; [by destruct Hs as [-> _]|done]. }
    assert (Hv' : validate = true -> (validate_xml_structure path w').1 = true).
    { intros Htrue. specialize (Hv Htrue). apply Forall_cons in Hv as [Hv _].
      by destruct (validate_xml_structure_blind path w' w Hs) as [-> _]. }
    destruct (format_one_up_to_date dry_run validate indent encoding path c w' Hp' Hv')
      as (E1 & E3).
    destruct (IH (fun Htrue => Forall_inv_tail (Hv Htrue))
                 (format_one dry_run false validate indent encoding path c w').1
                 (format_one dry_run false validate indent encoding path c w').2)
      as [F1 F2].
    { destruct E1 as (? & ? & ?), Hs as (? & ? & ?). repeat split; congruence. }
    split; [done|]. rewrite F2, E3. simpl. f_equal. lia.
Qed.

(** What [format_one] makes of its file depends on the content of the file
    and on the paths that cannot be written, not on the other files. *)
Lemma format_xml_file_local path dry_run indent encoding w1 w2 :
  files w1 !! path = files w2 !! path -> readonly w1 = readonly w2 ->
  files (format_xml_file path dry_run indent encoding w1).2 !! path
  = files (format_xml_file path dry_run indent encoding w2).2 !! path.
Proof.
  intros Hf Hr. rewrite !format_xml_file_cases.
  destruct (text_of_ext encoding w1 w2 path Hf) as [-> ->]. rewrite Hr.
  destruct (text_of encoding w2 path) as [original|]; [|done].
  case_bool_decide; [done|]. destruct (ET_fromstring original); [done|].
  destruct (pretty_print_xml_try _ _ _ _) as [|formatted]; [done|].
  destruct (negb _); [done|]. destruct dry_run; [done|].
  destruct (decide (path ∈ readonly w2)); [done|].
  destruct (encode encoding formatted); cbn [snd files logged];
    by rewrite !lookup_insert_eq.
Qed.

Lemma format_one_local dry_run backup validate indent encoding path c1 c2 w1 w2 :
  files w1 !! path = files w2 !! path -> readonly w1 = readonly w2 ->
  files (format_one dry_run backup validate indent encoding path c1 w1).2 !! path
  = files (format_one dry_run backup validate indent encoding path c2 w2).2 !! path.
Proof.
  assert (Hun : forall c1 c2 w1 w2,
    files w1 !! path = files w2 !! path -> readonly w1 = readonly w2 ->
    files (format_one dry_run backup false indent encoding path c1 w1).2 !! path
    = files (format_one dry_run backup false indent encoding path c2 w2).2 !! path).
  { clear. intros c1 c2 w1 w2 Hf Hr. rewrite !format_one_unvalidated.
    destruct (backup && negb dry_run).
    - rewrite !create_backup_cases, Hr. rewrite Hf at 1.
      destruct (files w2 !! path) as [data|] eqn:E;
        [|cbn [snd files logged]; congruence].
      destruct (decide (_ ∈ readonly w2)); [cbn [snd files logged]; congruence|].
      cbv zeta. cbn [fst snd]. apply format_xml_file_local; [|done]. cbn [files].
      rewrite !lookup_insert_ne by apply bak_neq. congruence.
    - cbv zeta. cbn [snd]. by apply format_xml_file_local. }
  intros Hf Hr. destruct validate; [|by apply Hun].
  rewrite !format_one_validated, !validate_xml_structure_cases.
  destruct (text_of_ext "utf-8" w1 w2 path Hf) as [-> ->].
  destruct (text_of _ w2 path) as [content|].
  - destruct (ET_fromstring content); [|by apply Hun].
    destruct dry_run; [by apply Hun|done].
  - destruct dry_run; [by apply Hun|done].
Qed.

(** X10: the batch formats each file as if it were alone.  When the paths of
    the list are distinct and none is the backup path of another, the
    content of each listed file after the loop is its content after one
    iteration on it from the initial storage. *)
Theorem batch_formats_each_file_alone dry_run backup validate indent encoding
    xml_files c c0 w path :
  NoDup xml_files ->
  (forall a b, a ∈ xml_files -> b ∈ xml_files -> a <> b ++ ".bak") ->
  path ∈ xml_files ->
  files (format_loop dry_run backup validate indent encoding xml_files c w).2 !! path
  = files (format_one dry_run backup validate indent encoding path c0 w).2 !! path.
Proof.
  intros Hnd Hbak Hin.
  assert (Hgen : forall c w',
    files w' !! path = files w !! path -> readonly w' = readonly w ->
    files (format_loop dry_run backup validate indent encoding xml_files c w').2 !! path
    = files (format_one dry_run backup validate indent encoding path c0 w).2 !! path);
    [|by apply Hgen].
  clear c. induction xml_files as [|a rest IH]; intros c w' Ef Er.
  { by apply elem_of_nil in Hin. }
  apply NoDup_cons in Hnd as [Ha Hnd]. rewrite format_loop_cons. cbv zeta.
  destruct (format_one_changes dry_run backup validate indent encoding a c w')
    as (Hr1 & _ & H1).
  set (r1 := format_one dry_run backup validate indent encoding a c w') in *.
  destruct (decide (path = a)) as [->|Hne].
  - destruct (format_loop_changes dry_run backup validate indent encoding rest r1.1 r1.2)
      as (_ & _ & H2).
    destruct (decide (files (format_loop dry_run backup validate indent encoding rest
                               r1.1 r1.2).2 !! a = files r1.2 !! a)) as [E|E].
    + rewrite E. by apply format_one_local.
    + destruct (H2 a E) as [_ (p & Hp & [->|[_ Hq]])]; [done|].
      exfalso. apply (Hbak a p); [by left|by right|done].
  - apply elem_of_cons in Hin as [|Hin]; [done|].
    apply IH; [done| |done| |congruence].
    + intros x y Hx Hy. apply Hbak; by right.
    + rewrite <- Ef. destruct (decide (files r1.2 !! path = files w' !! path)) as [E|E];
        [done|].
      destruct (H1 path E) as [_ [|[_ Hq]]]; [done|].
      exfalso. apply (Hbak path a); [by right|by left|done].
Qed.

End BatchFacts.

(** ** The text [pretty_print_xml] returns *)

Section FormatterFacts.
Context {lib : XmlLibrary} {codecs : Codecs}.

Lemma split_prefix (x r : str) :
  LF ∉ x -> exists l ls, split LF (x ++ r) = (x ++ l) :: ls.
Proof.
  induction x as [|c x IH]; intros H.
  - simpl app. pose proof (split_nonempty LF r).
    destruct (split LF r) as [|l ls]; [done|]. by exists l, ls.
  - apply not_elem_of_cons in H as [Hc Hx]. destruct (IH Hx) as (l & ls & E).
    exists l, ls. simpl app. rewrite split_cons_other by done. by rewrite E.
Qed.

(** The removal of the blank lines keeps the start of a first line that is
    not blank. *)
Lemma cleaned_prefix (x r : str) :
  LF ∉ x -> ~ blank x ->
  exists t, join [LF] (non_empty_lines (split LF (x ++ r))) = x ++ t.
Proof.
  intros Hlf Hb. destruct (split_prefix x r Hlf) as (l & ls & ->).
  unfold non_empty_lines. rewrite filter_cons_True.
  - destruct (filter _ ls) as [|l' ls']; simpl.
    + by exists l.
    + exists (l ++ [LF] ++ join [LF] (l' :: ls')). by rewrite <- app_assoc.
  - intros Hs. apply strip_blank in Hs. by apply blank_app in Hs as [? _].
Qed.

Lemma restore_prefix secs (x r : str) :
  Forall (fun po => exists k, po.1 = placeholder k) secs -> "_"%char ∉ x ->
  restore secs (x ++ r) = x ++ restore secs r.
Proof.
  intros Hs Hx. revert r. induction Hs as [|po secs [k Hk] _ IH]; intros r; [done|].
  rewrite !restore_cons, Hk, replace_clear, IH; [done|apply placeholder_nonempty|].
  apply (clear_head _ "_"%char); [|done]. by destruct (placeholder_head k) as [t ->].
Qed.

Lemma rstrip_prefix (x r : str) :
  x <> [] -> rstrip x = x -> exists t, rstrip (x ++ r) = x ++ t.
Proof.
  intros Hne Hx. destruct (rstrip r) as [|c t] eqn:E.
  - apply rstrip_blank in E. rewrite rstrip_app_blank, Hx by done. exists []. by rewrite app_nil_r.
  - rewrite rstrip_app by (by rewrite E). by eexists.
Qed.


(** X11: whatever text [pretty_print_xml] returns begins with the XML
    declaration and ends with one line feed that no white space precedes;
    the text is never empty. *)
Theorem returned_text_is_declared_and_terminated element encoding indent
    preserve_cdata out :
  pretty_print_xml_try element encoding indent preserve_cdata = inr out ->
  (exists rest, out = "<?xml" ++ rest) /\
  (exists body, out = body ++ [LF] /\ rstrip body = body /\ body <> []).
Proof.
  unfold pretty_print_xml_try. intros H.
  destruct (if preserve_cdata then extract element else ([], element))
    as [secs rough] eqn:Ex.
  destruct (parseString rough) as [|dom]; [done|].
  destruct (toprettyxml dom indent encoding) as [|p] eqn:E2; [done|].
  injection H as <-.
  assert (Hs : Forall (fun po : str * str => exists k, po.1 = placeholder k) secs).
  { destruct preserve_cdata; [|injection Ex as <- _; constructor].
    apply Forall_forall. intros po Hpo.
    destruct (extract_section_shape element po) as (k & _ & Hk & _); [by rewrite Ex|].
    by exists k. }
  destruct (toprettyxml_declaration _ _ _ _ E2) as [rest ->].
  change ("<?xml " ++ rest) with ("<?xml" ++ (" " ++ rest)).
  destruct (cleaned_prefix "<?xml" (" " ++ rest)) as [t ->];
    [by apply not_elem_of_literal|by intros [? _]%blank_cons|].
  rewrite restore_prefix by (done || by apply not_elem_of_literal).
  destruct (rstrip_prefix "<?xml" (restore secs t)) as [t' E]; [done..|].
  split.
  - exists (t' ++ [LF]). by rewrite E, <- app_assoc.
  - eexists. split; [done|]. split; [apply rstrip_idemp|]. by rewrite E.
Qed.


(** X13: a text in which the pattern matches nowhere passes the vault as it
    is: nothing is extracted, and the preservation of the literal sections
    makes no difference to what [pretty_print_xml] returns. *)
Theorem text_without_section_skips_the_vault element encoding indent :
  no_section element ->
  extract element = ([], element) /\
  pretty_print_xml_try element encoding indent true
  = pretty_print_xml_try element encoding indent false.
Proof.
  intros H.
  assert (E : extract element = ([], element)).
  { unfold extract, finditer. by rewrite finditer_scan_no_section. }
  split; [done|]. unfold pretty_print_xml_try. by rewrite E.
Qed.

(** X14: when [format_xml_file] changes the content of its file, the run
    is no dry run, the old content has been read with the encoding of the
    run, the text [pretty_print_xml] returns for it differs from it by more
    than surrounding white space, and the new content is that text, encoded;
    or nothing, when that text cannot be encoded. *)
Theorem file_is_replaced_by_its_formatted_text path dry_run indent encoding w
    old new :
  files w !! path = Some old ->
  files (format_xml_file path dry_run indent encoding w).2 !! path = Some new ->
  new <> old ->
  dry_run = false /\
  exists original formatted,
    text_of encoding w path = Some original /\
    pretty_print_xml_try original encoding indent true = inr formatted /\
    strip formatted <> strip original /\
    (encode encoding formatted = inr new \/
     new = [] /\ exists e, encode encoding formatted = inl e).
Proof.
  intros Hold Hnew Hne.
  destruct (format_xml_file_effect path dry_run indent encoding w)
    as (_ & _ & [[_ E]|(Hd & _ & original & formatted & Et & Hp & Hn & E)]).
  { rewrite E in Hnew. congruence. }
  split; [done|]. exists original, formatted.
  split; [done|]. split; [done|]. split.
  { unfold needs_write in Hn. by apply bool_decide_eq_true in Hn. }
  destruct (encode encoding formatted) as [e|data]; destruct E as [_ E];
    rewrite E, lookup_insert_eq in Hnew; injection Hnew as <-.
  - right. split; [done|]. by exists e.
  - by left.
Qed.

(** X15: [validate_xml_structure] returns [True] exactly when the file can
    be read as UTF-8 and parses, whatever its root element and attributes; it leaves
    the storage as it is; for a file that is not named [addon.xml], and for
    an [addon.xml] whose root is [addon] with the four required attributes,
    it logs nothing; for an [addon.xml] with another root it logs the
    warning about the root first. *)
Theorem validation_fails_only_on_unreadable_or_malformed path w :
  let v := validate_xml_structure path w in
  same_store w v.2 /\
  (v.1 = true <->
   exists content root,
     text_of "utf-8" w path = Some content /\ ET_fromstring content = inr root) /\
  (forall content root,
     text_of "utf-8" w path = Some content -> ET_fromstring content = inr root ->
     (path_name path <> "addon.xml" -> log v.2 = log w) /\
     (path_name path = "addon.xml" -> tag root = "addon" ->
      (forall attr, attr ∈ required_attrs -> attr ∈ (attrib root).*1) ->
      log v.2 = log w) /\
     (path_name path = "addon.xml" -> tag root <> "addon" ->
      exists rest,
        log v.2 = log w ++ record WARNING
                             ("addon.xml should have 'addon' as root element in "
                              ++ path) :: rest)).
Proof.
  cbv zeta. rewrite validate_xml_structure_cases. split; [|split].
  - destruct (text_of _ w path); [|done]. by destruct (ET_fromstring _).
  - destruct (text_of _ w path) as [content|].
    + destruct (ET_fromstring content) as [e|root] eqn:E.
      * split; [done|]. intros (? & ? & [= <-] & ?). congruence.
      * split; [|done]. intros _. by exists content, root.
    + split; [done|]. by intros (? & ? & ? & ?).
  - intros content root -> ->. cbn [snd logged log]. unfold validation_warnings.
    split; [|split].
    + intros Hn. rewrite bool_decide_eq_false_2 by done. by rewrite app_nil_r.
    + intros Hn Ht Ha. rewrite bool_decide_eq_true_2 by done.
      assert (Hnil : missing_attrs root = []).
      { destruct (missing_attrs root) as [|a l] eqn:E; [done|].
        assert (Hin : a ∈ missing_attrs root) by (rewrite E; by left).
        unfold missing_attrs in Hin. apply list_elem_of_filter in Hin as [H1 H2].
        by destruct H1; apply Ha. }
      rewrite (bool_decide_eq_false_2 (tag root <> "addon")) by (by intros ?).
      rewrite Hnil, bool_decide_eq_false_2 by (by intros ?). by rewrite app_nil_r.
    + intros Hn Ht. rewrite bool_decide_eq_true_2 by done.
      rewrite (bool_decide_eq_true_2 (tag root <> "addon")) by done.
      by eexists.
Qed.

End FormatterFacts.

(** ** The tokens *)

Section TokenFacts.

Lemma digit_is_plain c :
  is_digit c -> isspace c = false /\ c ∉ ("<>&'" ++ [DQ] : str).
Proof.
  unfold is_digit, isspace. intros H. split.
  - cbv zeta. repeat (apply orb_false_iff; split); try apply andb_false_iff;
      rewrite ?Nat.leb_gt, ?Nat.eqb_neq; lia.
  - intros Hin. repeat (apply elem_of_cons in Hin as [->|Hin]);
      [vm_compute in H; lia..|by apply elem_of_nil in Hin].
Qed.

(** X16: the tokens are made of capital letters, digits and underscores:
    none holds white space or a character that XML escapes; and no token
    occurs inside the token of another index (the token of 1 is not part of
    the token of 10). *)
Theorem tokens_are_plain_and_apart :
  (forall i c, c ∈ placeholder i -> isspace c = false /\ c ∉ ("<>&'" ++ [DQ] : str)) /\
  (forall i j, occurs (placeholder i) (placeholder j) -> i = j).
Proof.
  split.
  - intros i c H. unfold placeholder in H. rewrite !elem_of_app in H.
    destruct H as [H|[H|H]].
    + unfold placeholder_prefix in H.
      repeat (apply elem_of_cons in H as [->|H]);
        [by split; [|apply not_elem_of_literal]..|by apply elem_of_nil in H].
    + apply digit_is_plain. pose proof (of_nat_digits i) as Hd.
      rewrite Forall_forall in Hd. by apply Hd.
    + repeat (apply elem_of_cons in H as [->|H]);
        [by split; [|apply not_elem_of_literal]..|by apply elem_of_nil in H].
  - intros i j H. destruct (decide (i = j)) as [|Hne]; [done|]. exfalso.
    assert (Hc : clear (placeholder i) (placeholder j) ([] ++ [])).
    { apply token_clear; [done| |by left]. intros Ho. by apply occurs_nil in Ho. }
    apply clear_not_occurs in Hc; [done|apply placeholder_nonempty].
Qed.

End TokenFacts.

(** ** The round trip of the literal sections *)

Section RoundTripFacts.
Context {lib : XmlLibrary}.

(** *** The extraction loop on sections that share a text *)


Lemma first_index_lookup m ms : m ∈ ms -> ms !! first_index m ms = Some m.
Proof.
  induction ms as [|m' ms IH]; intros H; [by apply elem_of_nil in H|].
  cbn [first_index]. destruct (decide (m' = m)) as [->|Hne]; [done|].
  apply elem_of_cons in H as [->|H]; [done|]. by apply IH.
Qed.

Lemma first_index_le m ms i : ms !! i = Some m -> first_index m ms <= i.
Proof.
  revert i. induction ms as [|m' ms IH]; intros i H; [done|].
  cbn [first_index]. destruct (decide (m' = m)) as [->|Hne]; [lia|].
  destruct i as [|i]; [by injection H|]. apply IH in H. lia.
Qed.

Lemma first_index_lt m ms : m ∈ ms -> first_index m ms < length ms.
Proof. intros H. by apply lookup_lt_Some with m, first_index_lookup. Qed.

Lemma unnested_lookup ms i j m m' x :
  unnested ms -> i < j -> ms !! i = Some m -> ms !! j = Some m' -> m' = x ++ m -> x = [].
Proof.
  revert i j. induction ms as [|a ms IH]; intros i j Hun Hij Hi Hj E; [done|].
  destruct Hun as [Ha Hun]. destruct j as [|j]; [lia|]. destruct i as [|i].
  - injection Hi as ->. cbn in Hj. apply list_elem_of_lookup_2 in Hj.
    rewrite Forall_forall in Ha. specialize (Ha m' Hj (ex_intro _ x E)).
    rewrite Ha in E. apply (f_equal length) in E. rewrite length_app in E.
    apply length_zero_iff_nil. lia.
  - apply (IH i j); [done|lia|done..].
Qed.

#[global] Instance unnested_dec ms : Decision (unnested ms).
Proof. induction ms; cbn [unnested]; apply _. Defined.

Lemma closer_in_body body r l c :
  clear cdata_close body (cdata_close ++ r) ->
  body ++ cdata_close = l ++ cdata_close ++ c -> c = [].
Proof.
  intros Hb E.
  apply (app_eq_app body cdata_close l (cdata_close ++ c)) in E as [l2 [[E3 E4]|[E3 E4]]].
  - destruct l2 as [|c1 l2].
    + rewrite app_nil_l in E4. by apply (app_inv_head cdata_close), symmetry; rewrite app_nil_r.
    + exfalso. apply (Hb l (c1 :: l2)); [done|done|].
      rewrite app_assoc, <- E4. rewrite <- app_assoc. by apply prefix_app_r.
  - apply (f_equal length) in E4. rewrite !length_app in E4.
    destruct c; [done|]. simpl in E4. lia.
Qed.

Lemma closer_at_end body r a c :
  clear cdata_close body (cdata_close ++ r) ->
  cdata_open ++ body ++ cdata_close = a ++ cdata_close ++ c -> c = [].
Proof.
  intros Hb E.
  apply (app_eq_app cdata_open (body ++ cdata_close) a (cdata_close ++ c))
    in E as [l [[E1 E2]|[E1 E2]]].
  - destruct l as [|c0 l].
    + apply (closer_in_body body r [] c); [done|]. by rewrite E2.
    + exfalso. assert (Hin : c0 ∈ cdata_open).
      { rewrite E1. apply elem_of_app. right. by left. }
      injection E2 as <- _. revert Hin. by apply not_elem_of_literal.
  - by apply (closer_in_body body r l c).
Qed.

(** A section that matches inside another section is its end. *)
Lemma section_inside body r1 body' r2 y z R :
  clear cdata_close body (cdata_close ++ r1) ->
  clear cdata_close body' (cdata_close ++ r2) ->
  cdata_open ++ body' ++ cdata_close = y ++ z -> z <> [] ->
  (cdata_open ++ body ++ cdata_close) `prefix_of` (z ++ R) ->
  z = cdata_open ++ body ++ cdata_close.
Proof.
  intros Hb Hb' E Hz [k Hk].
  apply (app_eq_app z R (cdata_open ++ body ++ cdata_close) k) in Hk
    as [l [[E1 E2]|[E1 E2]]].
  - rewrite E1 in E. rewrite E1.
    assert (l = []) as ->; [|by rewrite app_nil_r].
    apply (closer_at_end body' r2 (y ++ cdata_open ++ body)); [done|].
    rewrite E. by rewrite <- !app_assoc.
  - destruct l as [|c0 l]; [by rewrite app_nil_r in E1|]. exfalso.
    rewrite (app_assoc cdata_open body' cdata_close) in E. symmetry in E.
    apply (app_eq_app y z (cdata_open ++ body') cdata_close) in E
      as [l3 [[E3 E4]|[E3 E4]]].
    + destruct z as [|c1 z]; [done|].
      assert (Hc : c1 = "<"%char) by (by injection E1).
      assert (Hin : c1 ∈ cdata_close).
      { rewrite E4. apply elem_of_app. right. by left. }
      subst c1. revert Hin. by apply not_elem_of_literal.
    + assert (c0 :: l = []); [|done].
      apply (closer_at_end body r1 l3); [done|]. by rewrite E1, E4, <- !app_assoc.
Qed.

Lemma clear_opener_before_token gap r0 k r :
  clear cdata_open gap (cdata_open ++ r0) -> clear cdata_open gap (placeholder k ++ r).
Proof.
  intros H. destruct (placeholder_head k) as [t ->]. simpl app.
  apply (clear_context _ _ (cdata_open ++ r0)); [|done]. by apply not_elem_of_literal.
Qed.

(** Replacing the text of a section in a text in which some sections have
    given way to tokens: the sections with that text are replaced, and nothing
    else, unless the text ends a longer section. *)
Lemma replace_slots body r0 new (d : str -> bool) (n : str -> nat) s segs tail :
  clear cdata_close body (cdata_close ++ r0) ->
  cdata_scan s segs tail ->
  Forall (fun gm : str * str => d gm.2 = false ->
            forall y, gm.2 = y ++ cdata_open ++ body ++ cdata_close -> y = []) segs ->
  forall k,
  replace (cdata_open ++ body ++ cdata_close) new
    (rebuild (fun _ x => if d x then placeholder (n x) else x) k segs tail)
  = rebuild (fun _ x => if d x then placeholder (n x)
                        else if decide (x = cdata_open ++ body ++ cdata_close)
                             then new else x) k segs tail.
Proof.
  intros Hb Hs. induction Hs as [tail Hn|gap body' rest segs tail Hg Hb' Hs IH];
    intros Hun k.
  - cbn [rebuild]. apply replace_absent; [done|]. intros (a & b & ->).
    apply (Hn a body b). by rewrite <- !app_assoc.
  - apply Forall_cons in Hun as [Hx Hun]. cbn [rebuild snd] in *.
    set (m := cdata_open ++ body ++ cdata_close) in *.
    set (x := cdata_open ++ body' ++ cdata_close) in *.
    destruct (d x) eqn:Ed.
    + rewrite app_assoc, replace_clear, (IH Hun), <- app_assoc; [done..|].
      apply clear_app.
      * apply clear_longer. by apply (clear_opener_before_token _ (body' ++ cdata_close ++ rest)).
      * apply (clear_head _ "<"%char); [done|apply placeholder_no_lt].
    + assert (Hgap : forall r, clear m gap (x ++ r)).
      { intros r. apply clear_longer. unfold x. rewrite <- !app_assoc.
        by apply (clear_after_self _ _ (body' ++ cdata_close ++ rest)). }
      destruct (decide (x = m)) as [E|Hne].
      * rewrite replace_clear by (done || rewrite E; rewrite <- E; apply Hgap).
        rewrite E at 1. rewrite replace_match by done. by rewrite (IH Hun).
      * rewrite app_assoc, replace_clear, (IH Hun), <- app_assoc; [done..|].
        apply clear_app; [apply Hgap|].
        intros y z Hyz Hz Hp. apply Hne.
        assert (Ez : z = m).
        { eapply (section_inside body r0 body' rest y z);
            [exact Hb|exact Hb'|exact Hyz|exact Hz|exact Hp]. }
        subst z. rewrite Hyz. rewrite (Hx eq_refl y Hyz). done.
Qed.

Lemma rebuild_ext (f g : nat -> str -> str) k segs tail :
  Forall (fun gm : str * str => forall j, f j gm.2 = g j gm.2) segs ->
  rebuild f k segs tail = rebuild g k segs tail.
Proof.
  intros H. revert k. induction H as [|[gap x] segs Hx _ IH]; intros k; [done|].
  cbn [rebuild]. cbn [snd] in Hx. by rewrite IH, (Hx k).
Qed.

Lemma sections_in_table (segs : list (str * str)) :
  Forall (fun gm : str * str => gm.2 ∈ map snd segs) segs.
Proof. apply Forall_forall. intros gm Hgm. by apply list_elem_of_fmap_2. Qed.

(** The working text after [i] rounds of the extraction loop: the sections
    whose text is the text of one of the first [i] sections are tokens. *)
Lemma extract_round i m ms s segs tail :
  cdata_scan s segs tail -> ms = map snd segs -> unnested ms -> ms !! i = Some m ->
  replace m (placeholder i)
    (rebuild (fun _ x => if (first_index x ms <? i)%nat then placeholder (first_index x ms) else x)
       0 segs tail)
  = rebuild (fun _ x => if (first_index x ms <? S i)%nat then placeholder (first_index x ms)
                        else x) 0 segs tail.
Proof.
  intros Hs Hms Hun Hi.
  assert (Hshape : exists body r0,
    m = cdata_open ++ body ++ cdata_close /\ clear cdata_close body (cdata_close ++ r0)).
  { clear Hun. subst ms. rewrite list_lookup_fmap in Hi. revert i Hi.
    induction Hs as [|gap body rest segs tail _ Hb _ IH]; intros i Hi; [done|].
    destruct i as [|i]; [injection Hi as <-; by exists body, rest|by apply (IH i)]. }
  destruct Hshape as (body & r0 & -> & Hb).
  rewrite (replace_slots body r0 (placeholder i) (fun x => (first_index x ms <? i)%nat)
             (fun x => first_index x ms) s segs tail Hb Hs).
  - apply rebuild_ext. subst ms.
    eapply Forall_impl; [apply sections_in_table|]. intros [gap x] Hx _. cbn [snd] in *.
    destruct (first_index x (map snd segs) <? i)%nat eqn:E1.
    + apply Nat.ltb_lt in E1. by rewrite (proj2 (Nat.ltb_lt _ (S i))) by lia.
    + apply Nat.ltb_ge in E1. destruct (decide (x = _)) as [->|Hne].
      * apply first_index_le in Hi. rewrite (proj2 (Nat.ltb_lt _ (S i))) by lia.
        f_equal. lia.
      * rewrite (proj2 (Nat.ltb_ge _ (S i))); [done|].
        destruct (decide (first_index x (map snd segs) = i)) as [E|]; [|lia].
        apply first_index_lookup in Hx. rewrite E in Hx. congruence.
  - apply Forall_lookup. intros j [gap x] Hj Hd y Hy. cbn [snd] in *.
    apply Nat.ltb_ge in Hd.
    assert (Hxj : ms !! j = Some x) by (subst ms; by rewrite list_lookup_fmap, Hj).
    pose proof (first_index_le _ _ _ Hxj).
    destruct (decide (j = i)) as [->|Hne].
    + assert (Hxm : x = cdata_open ++ body ++ cdata_close) by congruence.
      rewrite Hxm in Hy. apply (f_equal length) in Hy. rewrite !length_app in Hy.
      apply length_zero_iff_nil. lia.
    + apply (unnested_lookup ms i j (cdata_open ++ body ++ cdata_close) x y); [done|lia|done..].
Qed.

Lemma extract_loop_shared s segs tail :
  cdata_scan s segs tail -> unnested (map snd segs) ->
  forall rest donep pos secs,
    segs = donep ++ rest ->
    extract_loop (length donep) (matches_of pos rest) secs
      (rebuild (fun _ x => if (first_index x (map snd segs) <? length donep)%nat
                           then placeholder (first_index x (map snd segs)) else x)
         0 segs tail)
    = (secs ++ section_table (length donep) (map snd rest),
       rebuild (fun _ x => if (first_index x (map snd segs) <? length segs)%nat
                           then placeholder (first_index x (map snd segs)) else x)
         0 segs tail).
Proof.
  intros Hs Hun rest. induction rest as [|[gap m] rest IH]; intros donep pos secs E.
  - rewrite app_nil_r in E. subst donep. cbn. by rewrite app_nil_r.
  - cbn [matches_of extract_loop group0 map snd section_table].
    rewrite (extract_round (length donep) m (map snd segs) s segs tail Hs eq_refl Hun).
    + specialize (IH (donep ++ [(gap, m)]) (pos + length gap + length m)
                    (secs ++ [(placeholder (length donep), m)])).
      rewrite length_app, Nat.add_1_r in IH. rewrite IH; [|by rewrite <- app_assoc].
      by rewrite <- app_assoc.
    + rewrite E, map_app, lookup_app_r by (by rewrite length_map).
      by rewrite length_map, Nat.sub_diag.
Qed.

(** The extraction on a document in which no section ends a longer, later
    one: the sections are numbered in their order, and each section gives
    way to the token of the first section with its text. *)
Lemma extract_shared s segs tail :
  cdata_scan s segs tail -> unnested (map snd segs) ->
  extract s = (section_table 0 (map snd segs),
               rebuild (fun _ m => token_of (map snd segs) m) 0 segs tail).
Proof.
  intros Hs Hun. unfold extract, token_of. rewrite (finditer_spec _ _ _ Hs).
  pose proof (extract_loop_shared s segs tail Hs Hun segs [] 0 [] eq_refl) as H.
  cbn [length app] in H.
  assert (E0 : rebuild (fun _ x => if (first_index x (map snd segs) <? 0)%nat
                          then placeholder (first_index x (map snd segs)) else x)
                 0 segs tail = s).
  { rewrite (cdata_scan_text _ _ _ Hs 0). apply rebuild_ext.
    apply Forall_forall. by intros. }
  rewrite E0 in H. rewrite H. f_equal. apply rebuild_ext.
  eapply Forall_impl; [apply sections_in_table|]. intros [gap x] Hx _. cbn [snd] in *.
  apply first_index_lt, Nat.ltb_lt in Hx. rewrite length_map in Hx. by rewrite Hx.
Qed.


(** *** The restoring loop *)

(** A text in which the sections of the first [i] texts are back has, before
    its first token, a text of the restored text. *)
Lemma restored_shape i ms segs tail k :
  exists x r b,
    rebuild (fun _ m => if (first_index m ms <? i)%nat then m
                        else placeholder (first_index m ms)) k segs tail = x ++ r
    /\ token_or_end r /\ rebuild (fun _ m => m) k segs tail = x ++ b.
Proof.
  revert k. induction segs as [|[u m] segs IH]; intros k; cbn [rebuild].
  - exists tail, [], []. split; [by rewrite app_nil_r|]. split; [by left|by rewrite app_nil_r].
  - destruct (first_index m ms <? i)%nat.
    + destruct (IH (S k)) as (x & r & b & -> & Hr & ->).
      exists (u ++ m ++ x), r, b. by rewrite <- !app_assoc.
    + eexists u, _, _. split; [done|]. split; [|done]. right. by eexists _, _.
Qed.

(** One round of the restoring loop: token [i] gives way to section [i]
    wherever it stands, and nothing else changes. *)
Lemma restore_round i new ms segs tail :
  (forall x, x ∈ ms -> first_index x ms = i -> x = new) ->
  Forall (fun gm : str * str => gm.2 ∈ ms) segs ->
  forall k pre,
  word_free (pre ++ rebuild (fun _ m => m) k segs tail) ->
  replace (placeholder i) new
    (pre ++ rebuild (fun _ m => if (first_index m ms <? i)%nat then m
                                else placeholder (first_index m ms)) k segs tail)
  = pre ++ rebuild (fun _ m => if (first_index m ms <? S i)%nat then m
                               else placeholder (first_index m ms)) k segs tail.
Proof.
  intros Hnew Hin. induction Hin as [|[u m] segs Hm _ IH]; intros k pre Hw;
    cbn [rebuild snd] in *.
  - apply replace_absent; [apply placeholder_nonempty|]. by apply word_free_no_placeholder.
  - assert (Hrest : word_free ([] ++ rebuild (fun _ m => m) (S k) segs tail)).
    { apply (word_free_sub (pre ++ u ++ m) _ []). by rewrite app_nil_r, <- !app_assoc. }
    assert (Hpu : word_free (pre ++ u)).
    { apply (word_free_sub [] _ (m ++ rebuild (fun _ m => m) (S k) segs tail)).
      by rewrite app_nil_l, <- app_assoc. }
    pose proof (IH (S k) [] Hrest) as IH0. cbn [app] in IH0.
    destruct (first_index m ms <? i)%nat eqn:E1.
    + apply Nat.ltb_lt in E1. rewrite (proj2 (Nat.ltb_lt _ (S i))) by lia.
      specialize (IH (S k) (pre ++ u ++ m)). rewrite <- !app_assoc in IH. by apply IH.
    + apply Nat.ltb_ge in E1. destruct (decide (first_index m ms = i)) as [E|Hne].
      * rewrite (proj2 (Nat.ltb_lt _ (S i))) by lia. rewrite E, (Hnew m Hm E).
        rewrite app_assoc, replace_clear, replace_match, IH0
          by (apply placeholder_nonempty || (apply gap_clear; [done|right; by eexists _, _])).
        by rewrite <- app_assoc.
      * rewrite (proj2 (Nat.ltb_ge _ (S i))) by lia.
        rewrite (app_assoc u), (app_assoc pre), replace_clear; [|apply placeholder_nonempty|].
        { rewrite IH0. by rewrite <- !app_assoc. }
        rewrite app_assoc. apply clear_app.
        -- apply gap_clear; [done|]. right. by eexists _, _.
        -- destruct (restored_shape i ms segs tail (S k)) as (x & r & b & -> & Hr & Eb).
           apply token_clear; [done| |done]. rewrite Eb in Hrest.
           by apply (word_free_sub [] x b).
Qed.

Lemma restore_shared_loop ms segs tail :
  Forall (fun gm : str * str => gm.2 ∈ ms) segs ->
  word_free (rebuild (fun _ m => m) 0 segs tail) ->
  forall rest donep,
    ms = donep ++ rest ->
    restore (section_table (length donep) rest)
      (rebuild (fun _ m => if (first_index m ms <? length donep)%nat then m
                           else placeholder (first_index m ms)) 0 segs tail)
    = rebuild (fun _ m => if (first_index m ms <? length ms)%nat then m
                          else placeholder (first_index m ms)) 0 segs tail.
Proof.
  intros Hin Hw rest. induction rest as [|m rest IH]; intros donep E.
  - rewrite app_nil_r in E. by subst donep.
  - cbn [section_table]. rewrite restore_cons. cbn [fst snd].
    assert (Hnew : forall x, x ∈ ms -> first_index x ms = length donep -> x = m).
    { intros x Hx Ex. apply first_index_lookup in Hx. rewrite Ex, E in Hx.
      rewrite lookup_app_r, Nat.sub_diag in Hx by done. by injection Hx. }
    pose proof (restore_round (length donep) m ms segs tail Hnew Hin 0 [] Hw) as H.
    cbn [app] in H. rewrite H.
    specialize (IH (donep ++ [m])). rewrite length_app, Nat.add_1_r in IH.
    apply IH. by rewrite <- app_assoc.
Qed.


(** Restoring into a text that holds, for each section, the token of the
    first section with its text puts every section back, provided the
    restored text does not hold the sentinel word. *)
Lemma restore_shared ms segs tail :
  Forall (fun gm : str * str => gm.2 ∈ ms) segs ->
  word_free (rebuild (fun _ m => m) 0 segs tail) ->
  restore (section_table 0 ms)
    (rebuild (fun _ m => token_of ms m) 0 segs tail)
  = rebuild (fun _ m => m) 0 segs tail.
Proof.
  intros Hin Hw. unfold token_of.
  pose proof (restore_shared_loop ms segs tail Hin Hw ms [] eq_refl) as H.
  cbn [length] in H.
  rewrite (rebuild_ext (fun _ m => placeholder (first_index m ms))
             (fun _ m => if (first_index m ms <? 0)%nat then m
                         else placeholder (first_index m ms))) by (apply Forall_forall; by intros).
  rewrite H. apply rebuild_ext. eapply Forall_impl; [exact Hin|].
  intros [gap x] Hx _. cbn [snd] in *.
  apply first_index_lt, Nat.ltb_lt in Hx. by rewrite Hx.
Qed.

(** *** The removal of the blank lines *)

Lemma split_snoc (s : str) : exists init la, split LF s = init ++ [la].
Proof.
  destruct (exists_last (split_nonempty LF s)) as (init & la & E). by exists init, la.
Qed.

Lemma split_app (a b : str) init la fb tb :
  split LF a = init ++ [la] -> split LF b = fb :: tb ->
  split LF (a ++ b) = init ++ (la ++ fb) :: tb.
Proof.
  revert init la. induction a as [|c a IH]; intros init la Ha Hb.
  - cbn [split] in Ha. destruct init as [|? [|? ?]]; [|done..]. by injection Ha as <-.
  - destruct (split_snoc a) as (init' & la' & Ea). specialize (IH init' la' Ea Hb).
    cbn [app]. destruct (decide (c = LF)) as [->|Hc].
    + rewrite split_cons_sep in Ha |- *. rewrite Ea in Ha. rewrite IH.
      change ([] :: init' ++ [la']) with (([] :: init') ++ [la']) in Ha.
      apply app_inj_tail in Ha as [<- <-]. done.
    + rewrite split_cons_other in Ha |- * by done. rewrite Ea in Ha. rewrite IH.
      destruct init' as [|h i']; simpl in Ha |- *.
      * destruct init as [|? [|? ?]]; [|done..]. by injection Ha as <-.
      * change ((c :: h) :: i' ++ [la']) with (((c :: h) :: i') ++ [la']) in Ha.
        apply app_inj_tail in Ha as [<- <-]. done.
Qed.

Lemma join_cons sep p q ps : join sep (p :: q :: ps) = p ++ sep ++ join sep (q :: ps).
Proof. done. Qed.

(** The lines joined around one of them. *)
Lemma join_middle (A B : list str) (u v : str) :
  join [LF] (A ++ (u ++ v) :: B) = join [LF] (A ++ [u]) ++ join [LF] (v :: B).
Proof.
  induction A as [|a A IH].
  - cbn [app]. destruct B as [|b B]; [done|]. rewrite !join_cons. cbn [join].
    by rewrite <- app_assoc.
  - cbn [app]. destruct A as [|a' A].
    + cbn [app] in *. rewrite !join_cons, IH. cbn [join]. by rewrite <- !app_assoc.
    + cbn [app] in *. rewrite !join_cons, IH. by rewrite <- !app_assoc.
Qed.

Lemma join_head (B : list str) (t v : str) :
  join [LF] ((t ++ v) :: B) = t ++ join [LF] (v :: B).
Proof. exact (join_middle [] B t v). Qed.

Lemma join_middle_cons (h : str) (A B : list str) (u v : str) :
  join [LF] (h :: A ++ (u ++ v) :: B) = join [LF] (h :: A ++ [u]) ++ join [LF] (v :: B).
Proof. exact (join_middle (h :: A) B u v). Qed.

Lemma join_split (s : str) : join [LF] (split LF s) = s.
Proof.
  induction s as [|c s IH]; [done|]. destruct (decide (c = LF)) as [->|Hc].
  - rewrite split_cons_sep. pose proof (split_nonempty LF s).
    destruct (split LF s) as [|l ls]; [done|]. rewrite join_cons. by rewrite IH.
  - rewrite split_cons_other by done. pose proof (split_nonempty LF s).
    destruct (split LF s) as [|l [|l' ls]]; [done|..]; cbn [head tail default from_option id].
    + cbn [join] in *. by rewrite IH.
    + rewrite join_cons. rewrite join_cons in IH. by rewrite <- IH.
Qed.

Lemma elem_of_join (l : str) ls : l ∈ ls -> occurs l (join [LF] ls).
Proof.
  induction ls as [|a [|b ls] IH]; intros H.
  - by apply elem_of_nil in H.
  - apply list_elem_of_singleton in H as ->. exists [], []. by rewrite app_nil_r.
  - rewrite join_cons. apply elem_of_cons in H as [->|H].
    + by exists [], ([LF] ++ join [LF] (b :: ls)).
    + apply occurs_suffix, occurs_suffix. by apply IH.
Qed.

Lemma occurs_join (p : str) ls :
  LF ∉ p -> occurs p (join [LF] ls) -> p = [] \/ exists l, l ∈ ls /\ occurs p l.
Proof.
  intros Hp. induction ls as [|a [|b ls] IH]; intros H.
  - left. by apply occurs_nil.
  - right. exists a. split; [by left|done].
  - rewrite join_cons in H. apply occurs_app_cut in H as [H|H]; [|..|done].
    + right. exists a. split; [by left|done].
    + destruct (IH H) as [|(l & Hl & Ho)]; [by left|].
      right. exists l. split; [by right|done].
Qed.

(** A text without line feed that occurs in joined lines of a text occurs
    in the text. *)
Lemma occurs_lines (p x : str) ls :
  LF ∉ p -> p <> [] -> ls ⊆ split LF x -> occurs p (join [LF] ls) -> occurs p x.
Proof.
  intros Hp Hne Hsub H. destruct (occurs_join p ls Hp H) as [|(l & Hl & Ho)]; [done|].
  apply (occurs_trans _ l); [done|]. rewrite <- (join_split x). by apply elem_of_join, Hsub.
Qed.

Lemma non_empty_lines_subseteq ls : non_empty_lines ls ⊆ ls.
Proof. intros l. unfold non_empty_lines. rewrite list_elem_of_filter. tauto. Qed.

Lemma removelast_subseteq (ls : list str) : removelast ls ⊆ ls.
Proof.
  destruct ls as [|a ls]; [done|].
  destruct (exists_last (l:=a :: ls)) as (init & la & ->); [done|].
  rewrite removelast_last. intros l Hl. apply elem_of_app. by left.
Qed.

Lemma tail_subseteq (ls : list str) : tail ls ⊆ ls.
Proof. destruct ls as [|a ls]; [done|]. intros l Hl. by right. Qed.

Lemma last_elem (ls : list str) : ls <> [] -> default [] (last ls) ∈ ls.
Proof.
  intros H. destruct (exists_last H) as (init & la & ->).
  rewrite last_snoc. apply elem_of_app. right. by left.
Qed.

Lemma occurs_tidy_until p x : LF ∉ p -> p <> [] -> occurs p (tidy_until x) -> occurs p x.
Proof.
  intros Hp Hne. apply occurs_lines; [done..|]. intros l [Hl|Hl]%elem_of_app.
  - by apply removelast_subseteq, non_empty_lines_subseteq.
  - apply list_elem_of_singleton in Hl as ->. apply last_elem, split_nonempty.
Qed.

Lemma occurs_tidy_after p x : LF ∉ p -> p <> [] -> occurs p (tidy_after x) -> occurs p x.
Proof.
  intros Hp Hne. apply occurs_lines; [done..|]. intros l [->|Hl]%elem_of_cons.
  - unfold first_line. pose proof (split_nonempty LF x).
    destruct (split LF x); [done|]. by left.
  - by apply tail_subseteq, non_empty_lines_subseteq.
Qed.

Lemma occurs_tidy_gap p x : LF ∉ p -> p <> [] -> occurs p (tidy_gap x) -> occurs p x.
Proof.
  intros Hp Hne. unfold tidy_gap. destruct (split LF x) as [|l [|l' ls]] eqn:E; [done..|].
  apply occurs_lines; [done..|]. rewrite E. intros a [->|[Hl|Hl]%elem_of_app]%elem_of_cons.
  - by left.
  - right. by apply removelast_subseteq, non_empty_lines_subseteq.
  - right. apply list_elem_of_singleton in Hl as ->. by apply last_elem.
Qed.

Lemma occurs_cleaned p x :
  LF ∉ p -> p <> [] -> occurs p (join [LF] (non_empty_lines (split LF x))) -> occurs p x.
Proof. intros Hp Hne. apply occurs_lines; [done..|]. apply non_empty_lines_subseteq. Qed.

Lemma non_empty_lines_app A B :
  non_empty_lines (A ++ B) = non_empty_lines A ++ non_empty_lines B.
Proof. apply filter_app. Qed.

Lemma non_empty_lines_visible l ls :
  ~ blank l -> non_empty_lines (l :: ls) = l :: non_empty_lines ls.
Proof.
  intros H. unfold non_empty_lines. rewrite filter_cons_True; [done|].
  by rewrite <- strip_blank.
Qed.

Lemma split_visible t r : LF ∉ t -> split LF (t ++ r) = (t ++ first_line r) :: tail (split LF r).
Proof.
  intros Ht. unfold first_line. pose proof (split_nonempty LF r).
  destruct (split LF r) as [|fr tr] eqn:E; [done|].
  by rewrite (split_app t r [] t fr tr) by (done || by rewrite split_line).
Qed.

(** The removal of the blank lines around a visible text on one line. *)
Lemma cleaned_around x t r :
  LF ∉ t -> ~ blank t ->
  join [LF] (non_empty_lines (split LF (x ++ t ++ r))) = tidy_until x ++ t ++ tidy_after r.
Proof.
  intros Ht Hb. destruct (split_snoc x) as (init & la & Ex).
  rewrite (split_app x (t ++ r) init la _ _ Ex (split_visible t r Ht)).
  rewrite non_empty_lines_app, non_empty_lines_visible.
  - unfold tidy_until, tidy_after, last_line. rewrite Ex, removelast_last, last_snoc.
    change (default [] (Some la)) with la.
    by rewrite join_middle, join_head.
  - rewrite !blank_app. tauto.
Qed.

Lemma tidy_after_around x t r :
  LF ∉ t -> ~ blank t -> tidy_after (x ++ t ++ r) = tidy_gap x ++ t ++ tidy_after r.
Proof.
  intros Ht Hb. destruct (split_snoc x) as (init & la & Ex).
  unfold tidy_after at 1, first_line, tidy_gap.
  rewrite (split_app x (t ++ r) init la _ _ Ex (split_visible t r Ht)), Ex.
  assert (Hv : ~ blank (la ++ t ++ first_line r)) by (rewrite !blank_app; tauto).
  destruct init as [|h [|h' i']]; cbn [app head tail default from_option id].
  - rewrite !join_head.
    assert (x = la) as ->; [|done]. rewrite <- (join_split x), Ex. done.
  - rewrite non_empty_lines_visible by done. cbn [removelast last default from_option id].
    change (non_empty_lines []) with (@nil str).
    etrans; [apply (join_middle_cons h [] _ la (t ++ first_line r))|].
    rewrite join_head. done.
  - change (h' :: i' ++ (la ++ t ++ first_line r) :: tail (split LF r))
      with ((h' :: i') ++ (la ++ t ++ first_line r) :: tail (split LF r)).
    rewrite non_empty_lines_app, (non_empty_lines_visible (la ++ t ++ first_line r)) by done.
    change (h' :: i' ++ [la]) with ((h' :: i') ++ [la]).
    rewrite removelast_last, last_snoc. change (default [] (Some la)) with la.
    rewrite join_middle_cons, join_head. done.
Qed.

Lemma tidy_after_rebuild tok k segs tail :
  Forall (fun gm : str * str => forall j, (LF ∉ tok j gm.2) /\ ~ blank (tok j gm.2)) segs ->
  tidy_after (rebuild tok k segs tail)
  = rebuild tok k (map (fun gm : str * str => (tidy_gap gm.1, gm.2)) segs)
      (tidy_after tail).
Proof.
  intros H. revert k. induction H as [|[gap m] segs Hm _ IH]; intros k; [done|].
  cbn [rebuild map fst snd] in *. destruct (Hm k) as [H1 H2].
  by rewrite tidy_after_around, IH.
Qed.

(** The removal of the blank lines of a text that holds tokens keeps the
    tokens and tidies the texts around them. *)
Lemma cleaned_rebuild tok k printed printed_tail :
  Forall (fun gm : str * str => forall j, (LF ∉ tok j gm.2) /\ ~ blank (tok j gm.2)) printed ->
  join [LF] (non_empty_lines (split LF (rebuild tok k printed printed_tail)))
  = rebuild tok k (tidy_pieces printed printed_tail).1 (tidy_pieces printed printed_tail).2.
Proof.
  intros H. destruct H as [|[gap m] segs Hm Hs]; [done|].
  cbn [rebuild tidy_pieces fst snd] in *. destruct (Hm k) as [H1 H2].
  by rewrite cleaned_around, tidy_after_rebuild.
Qed.

Lemma tidy_pieces_sections printed printed_tail :
  map snd (tidy_pieces printed printed_tail).1 = map snd printed.
Proof.
  destruct printed as [|[gap m] segs]; [done|]. cbn [tidy_pieces fst map snd]. f_equal.
  rewrite <- list_fmap_compose. by apply list_fmap_ext.
Qed.

Lemma tidy_pieces_free p printed printed_tail :
  LF ∉ p -> p <> [] ->
  Forall (fun gm : str * str => ~ occurs p gm.1) printed -> ~ occurs p printed_tail ->
  Forall (fun gm : str * str => ~ occurs p gm.1) (tidy_pieces printed printed_tail).1
  /\ ~ occurs p (tidy_pieces printed printed_tail).2.
Proof.
  intros Hp Hne Hs Ht. destruct Hs as [|[gap m] segs Hg Hs]; cbn [tidy_pieces fst snd] in *.
  - split; [constructor|]. intros H. by apply Ht, (occurs_cleaned p).
  - split; [|intros H; by apply Ht, (occurs_tidy_after p)].
    constructor; [intros H; by apply Hg, (occurs_tidy_until p)|].
    apply Forall_fmap. eapply Forall_impl; [exact Hs|].
    intros [g x] Hx H. cbn [fst] in *. by apply Hx, (occurs_tidy_gap p).
Qed.

(** The sections of a document without the sentinel word, between texts
    without it, make a text without it. *)
Lemma word_free_rebuild s segs tail :
  cdata_scan s segs tail -> word_free s ->
  forall segs' tail',
    map snd segs' = map snd segs ->
    Forall (fun gm : str * str => word_free gm.1) segs' -> word_free tail' ->
    word_free (rebuild (fun _ m => m) 0 segs' tail').
Proof.
  intros Hs. generalize 0.
  induction Hs as [tail Hn|gap body rest segs tail Hg Hb Hs IH];
    intros k Hw [|[gap' m'] segs'] tail' Hm Hgaps Ht; try done.
  cbn [map snd] in Hm.
  assert (Hm1 : m' = cdata_open ++ body ++ cdata_close) by congruence.
  assert (Hm2 : map snd segs' = map snd segs) by congruence.
  apply Forall_cons in Hgaps as [Hg' Hgaps']. cbn [rebuild fst] in *. subst m'.
  assert (Hrest : word_free rest).
  { apply (word_free_sub (gap ++ cdata_open ++ body ++ cdata_close) rest []).
    by rewrite app_nil_r, <- !app_assoc. }
  assert (Hbody : word_free ("![CDATA[" ++ body ++ "]]")).
  { apply (word_free_sub (gap ++ "<") _ (">" ++ rest)). revert Hw.
    rewrite <- !app_assoc. done. }
  specialize (IH (S k) Hrest segs' tail' Hm2 Hgaps' Ht).
  assert (E : gap' ++ (cdata_open ++ body ++ cdata_close)
                 ++ rebuild (fun _ m => m) (S k) segs' tail'
               = gap' ++ "<"%char :: ("![CDATA[" ++ body ++ "]]")
                    ++ ">"%char :: rebuild (fun _ m => m) (S k) segs' tail').
  { rewrite <- !app_assoc. done. }
  rewrite E. intros Ho.
  apply occurs_app_cut in Ho as [Ho|Ho]; [done| |by apply not_elem_of_literal].
  apply occurs_app_cut in Ho as [Ho|Ho]; [done|done|by apply not_elem_of_literal].
Qed.

(** *** The round trip *)

Lemma token_of_visible ms m : (LF ∉ token_of ms m) /\ ~ blank (token_of ms m).
Proof.
  split; [apply placeholder_no_LF|]. unfold token_of.
  destruct (placeholder_head (first_index m ms)) as [t ->]. by intros [? _]%blank_cons.
Qed.

Lemma token_of_trimmed ms m : token_of ms m <> [] /\ rstrip (token_of ms m) = token_of ms m.
Proof.
  split; [apply placeholder_nonempty|]. unfold token_of, placeholder.
  rewrite !app_assoc. by rewrite rstrip_app.
Qed.

(** [rstrip] removes nothing of what stands for a section when that is
    trimmed: it trims the text after the last one. *)
Lemma rstrip_rebuild_any (token : nat -> str -> str) k segs tail :
  Forall (fun gm : str * str =>
            forall j, token j gm.2 <> [] /\ rstrip (token j gm.2) = token j gm.2) segs ->
  rstrip (rebuild token k segs tail) = rebuild token k segs (rstrip tail).
Proof.
  intros Hs. revert k. induction Hs as [|[gap m] segs Hm _ IH]; intros k; [done|].
  cbn [rebuild snd] in *. destruct (Hm k) as [Hne Hr]. rewrite <- (IH (S k)).
  destruct (rstrip (rebuild token (S k) segs tail)) as [|c r] eqn:E.
  - apply rstrip_blank in E. rewrite !app_assoc, rstrip_app_blank by done.
    rewrite app_nil_r, rstrip_app; by rewrite Hr.
  - rewrite !app_assoc, rstrip_app; by rewrite E.
Qed.




(** The text returned for a document that meets the conditions of the round
    trip: the sections of the document between the tidied texts of the
    printed text, trimmed and ended by a line feed. *)
Lemma pretty_print_xml_shared document encoding indent segs tail dom pretty_xml
    printed printed_tail :
  cdata_scan document segs tail -> unnested (map snd segs) -> word_free document ->
  parseString (extract document).2 = inr dom ->
  toprettyxml dom indent encoding = inr pretty_xml ->
  tokens_printed (map snd segs) pretty_xml printed printed_tail ->
  let pieces := tidy_pieces printed printed_tail in
  let out := rebuild (fun _ m => m) 0 pieces.1 (rstrip pieces.2 ++ [LF]) in
  pretty_print_xml_try document encoding indent true = inr out /\
  cdata_scan out pieces.1 (rstrip pieces.2 ++ [LF]) /\
  map snd pieces.1 = map snd segs /\
  rstrip (join [LF] (non_empty_lines (split LF pretty_xml))) ++ [LF]
  = rebuild (fun _ m => token_of (map snd segs) m) 0 pieces.1 (rstrip pieces.2 ++ [LF]) /\
  restore (section_table 0 (map snd segs))
    (rstrip (join [LF] (non_empty_lines (split LF pretty_xml))) ++ [LF]) = out /\
  word_free out.
Proof.
  intros Hs Hun Hw E1 E2 (Ep & Hm & Hgaps & Ht & Hto). cbv zeta.
  set (pieces := tidy_pieces printed printed_tail).
  assert (Hpm : map snd pieces.1 = map snd segs).
  { unfold pieces. by rewrite tidy_pieces_sections. }
  assert (Hvis : Forall (fun gm : str * str =>
             forall j : nat, (LF ∉ token_of (map snd segs) gm.2)
                             /\ ~ blank (token_of (map snd segs) gm.2)) printed).
  { apply Forall_forall. intros gm _ _. apply token_of_visible. }
  assert (Hclean : join [LF] (non_empty_lines (split LF pretty_xml))
                   = rebuild (fun _ m => token_of (map snd segs) m) 0 pieces.1 pieces.2).
  { rewrite Ep. by apply (cleaned_rebuild (fun _ m => token_of (map snd segs) m)). }
  destruct (tidy_pieces_free sentinel_word printed printed_tail) as [Hwg Hwt];
    [by apply not_elem_of_literal|done| |done|].
  { eapply Forall_impl; [exact Hgaps|]. by intros gm [? _]. }
  destruct (tidy_pieces_free cdata_open printed printed_tail) as [Hog Hot];
    [by apply not_elem_of_literal|done| |done|].
  { eapply Forall_impl; [exact Hgaps|]. by intros gm [_ ?]. }
  fold pieces in Hwg, Hwt, Hog, Hot.
  assert (Hin : Forall (fun gm : str * str => gm.2 ∈ map snd segs) pieces.1).
  { rewrite <- Hpm. apply sections_in_table. }
  assert (Hfree : forall t, word_free t -> word_free (rebuild (fun _ m => m) 0 pieces.1 t)).
  { intros t Hwt'. by apply (word_free_rebuild document segs tail). }
  assert (Hrestore : forall t, word_free t ->
     restore (section_table 0 (map snd segs))
       (rebuild (fun _ m => token_of (map snd segs) m) 0 pieces.1 t)
     = rebuild (fun _ m => m) 0 pieces.1 t).
  { intros t Hwt'. apply restore_shared; [done|]. by apply Hfree. }
  assert (Htrim : Forall (fun m => m <> [] /\ rstrip m = m) (map snd pieces.1)).
  { rewrite Hpm. by apply (cdata_scan_trimmed document segs tail). }
  assert (Hend : word_free (rstrip pieces.2 ++ [LF])).
  { intros Ho. apply occurs_app_cut in Ho as [Ho|Ho]; [| |by apply not_elem_of_literal].
    - apply Hwt. destruct (rstrip_decompose pieces.2) as (r & Hr & _). rewrite Hr.
      by apply occurs_app_l.
    - by apply occurs_nil in Ho. }
  assert (Htidy : rstrip (join [LF] (non_empty_lines (split LF pretty_xml))) ++ [LF]
            = rebuild (fun _ m => token_of (map snd segs) m) 0 pieces.1
                (rstrip pieces.2 ++ [LF])).
  { rewrite Hclean, rstrip_rebuild_any, rebuild_app_tail; [done|].
    apply Forall_forall. intros gm _ _. apply token_of_trimmed. }
  split; [|split; [|split; [done|split; [done|split]]]].
  - unfold pretty_print_xml_try. rewrite (extract_shared _ _ _ Hs Hun) in E1 |- *.
    cbn [snd] in E1. rewrite E1, E2. cbv zeta. rewrite Hclean, Hrestore by done.
    by rewrite rstrip_rebuild, rebuild_app_tail.
  - apply (cdata_scan_regap document segs tail); [done..|]. by apply rstrip_no_opener.
  - rewrite Htidy. by apply Hrestore.
  - by apply Hfree.
Qed.

(** C1 (amended): for a document that does not hold the word
    [CDATA_PLACEHOLDER], in which no section is the end of a longer, later
    section, and whose working text the library parses and prints with the
    token of each section in its place, in order, between texts that hold
    neither the word nor the opener, [pretty_print_xml] returns a text whose
    sections are the sections of the document, byte for byte, in the same
    order and of the same number: it is the printed text, its blank lines
    removed, with each section in the place of its token, trimmed and ended
    by a line feed.  Sections with the same text share the token of the
    first of them and are all put back. *)
Theorem sections_survive_formatting document encoding indent segs tail dom pretty_xml
    printed printed_tail :
  cdata_scan document segs tail ->
  unnested (map snd segs) ->
  word_free document ->
  parseString (extract document).2 = inr dom ->
  toprettyxml dom indent encoding = inr pretty_xml ->
  tokens_printed (map snd segs) pretty_xml printed printed_tail ->
  let pieces := tidy_pieces printed printed_tail in
  let out := with_sections pieces.1 (rstrip pieces.2 ++ [LF]) in
  pretty_print_xml_try document encoding indent true = inr out /\
  cdata_scan out pieces.1 (rstrip pieces.2 ++ [LF]) /\
  map snd pieces.1 = map snd segs /\
  map group0 (finditer out) = map group0 (finditer document) /\
  map group0 (finditer document) = map snd segs /\
  length (finditer out) = length (finditer document).
Proof.
  intros Hs Hun Hw E1 E2 Hp.
  destruct (pretty_print_xml_shared _ _ _ _ _ _ _ _ _ Hs Hun Hw E1 E2 Hp)
    as (E & Hout & Hm & _).
  cbv zeta. split; [exact E|]. split; [exact Hout|]. split; [exact Hm|].
  assert (F1 : map group0 (finditer document) = map snd segs).
  { by rewrite (finditer_spec _ _ _ Hs), matches_of_group0. }
  rewrite (finditer_spec _ _ _ Hout), matches_of_group0, Hm.
  split; [done|]. split; [done|].
  by rewrite <- (length_map group0), matches_of_group0, Hm, <- F1, length_map.
Qed.


End RoundTripFacts.

(** ** Concrete runs on the model of the libraries *)

(** A file that holds a space and a line feed is skipped. *)
Lemma blank_file_is_skipped_witness :
  let w := disk [("a.xml" : str, " " ++ [LF])] in
  let r := format_xml_file "a.xml" false four_spaces utf8 w in
  r.1 = false /\ files r.2 = files w /\
  r.2 = logged w [record INFO ("Skipping empty file: " ++ "a.xml")].
Proof.
  apply (blank_file_is_skipped "a.xml" false four_spaces utf8 _ (" " ++ [LF]));
    reflexivity.
Defined.

(** A dry run on a file that the real run rewrites. *)
Lemma dry_run_never_writes_witness :
  let w := disk [("a.xml" : str, "<a><b>x</b></a>" : str)] in
  (format_xml_file "a.xml" true four_spaces utf8 w).1 = true /\
  files (format_xml_file "a.xml" true four_spaces utf8 w).2 = files w /\
  files (format_xml_file "a.xml" false four_spaces utf8 w).2
  = <["a.xml" : str := xml_declaration ++ "<a>" ++ [LF] ++ "    <b>x</b>" ++ [LF]
                       ++ "</a>" ++ [LF]]> (files w).
Proof.
  cbv zeta.
  pose proof (dry_run_never_writes "a.xml" four_spaces utf8
                (disk [("a.xml" : str, "<a><b>x</b></a>" : str)])) as H.
  cbv zeta in H. destruct H as (H1 & _ & _ & H4).
  split; [vm_compute; reflexivity|]. split; [exact H1|].
  vm_compute. reflexivity.
Defined.

(** A batch of two files, the first with an unclosed tag. *)
Lemma malformed_file_fails_alone_witness :
  let w := disk [("a.xml" : str, "<a>" : str); ("b.xml" : str, "<b><c/></b>" : str)] in
  let r := format_xml_file "a.xml" false four_spaces utf8 w in
  let one := format_one false false true four_spaces utf8 "a.xml" no_counters w in
  let loop := format_loop false false true four_spaces utf8 in
  r.1 = false /\ files r.2 = files w /\
  (exists msg, msg <> [] /\ occurs "no element found" msg
               /\ r.2 = logged w [record ERROR msg]) /\
  formatted_count one.1 = 0 /\
  files one.2 !! ("a.xml" : str) = Some ("<a>" : str) /\
  (false = false -> files one.2 = files w) /\
  loop ["a.xml" : str; "b.xml" : str] no_counters w = loop ["b.xml" : str] one.1 one.2 /\
  (false = false ->
   files (loop ["a.xml" : str; "b.xml" : str] no_counters w).2
   = files (loop ["b.xml" : str] no_counters w).2).
Proof.
  apply (malformed_file_fails_alone "a.xml" false false true four_spaces utf8
           _ "<a>" "<a>" "no element found" ["b.xml" : str] no_counters).
  - reflexivity.
  - reflexivity.
  - intros H. vm_compute in H. discriminate H.
  - vm_compute. reflexivity.
Defined.

(** C4 as stated fails on an empty file: the document does not parse, yet the
    run logs no error and no reason, only that the file is skipped. *)
Lemma empty_file_gives_no_reason :
  let w := disk [("a.xml" : str, [] : str)] in
  let r := format_xml_file "a.xml" false four_spaces utf8 w in
  ET_fromstring [] = inl ("no element found" : str) /\
  r.1 = false /\
  log r.2 = [record INFO "Skipping empty file: a.xml"] /\
  ~ exists rec, rec ∈ log r.2 /\ levelname rec = ERROR.
Proof.
  cbv zeta. split; [reflexivity|]. split; [reflexivity|]. split; [reflexivity|].
  intros (rec & Hin & Hlv).
  assert (E : log (format_xml_file "a.xml" false four_spaces utf8
                     (disk [("a.xml" : str, [] : str)])).2
              = [record INFO "Skipping empty file: a.xml"]) by reflexivity.
  rewrite E in Hin. apply list_elem_of_singleton in Hin. subst rec. discriminate Hlv.
Qed.

(** The validation of a manifest without [version] and [provider-name]. *)
Lemma missing_attributes_are_advisory_witness :
  let w := disk [("addon.xml" : str, manifest_two_missing)] in
  let v := validate_xml_structure "addon.xml" w in
  v.1 = true /\ files v.2 = files w /\
  v.2 = logged w [record WARNING
                    ("Missing required attributes in addon.xml: "
                     ++ "['version', 'provider-name']")] /\
  (format_one false false true four_spaces utf8 "addon.xml" no_counters w).1
  = (format_one false false false four_spaces utf8 "addon.xml" no_counters w).1.
Proof.
  cbv zeta.
  pose proof (missing_attributes_are_advisory "addon.xml" false false four_spaces utf8
                (disk [("addon.xml" : str, manifest_two_missing)])
                manifest_two_missing
                {| tag := "addon";
                   attrib := [("id" : str, "x" : str); ("name" : str, "n" : str)] |}
                no_counters) as H.
  cbv zeta in H. destruct H as (H1 & H2 & _ & _ & H5 & _).
  - reflexivity.
  - reflexivity.
  - vm_compute. reflexivity.
  - intros E. vm_compute in E. discriminate E.
  - split; [exact H1|]. split; [exact H2|]. split; [vm_compute; reflexivity | exact H5].
Defined.

(** C8 fails on a manifest whose second literal section ends with the text
    of the first.  The document parses and the validation passes with its
    warning; the extraction loop then replaces the text of the first section
    wherever it occurs, also at the end of the second section, which is left
    without closer: the working text does not parse and the file is not
    formatted. *)
Lemma validated_manifest_fails_to_format :
  let w := disk [("addon.xml" : str, manifest_nested_opener)] in
  ET_fromstring manifest_nested_opener = inr {| tag := "addon"; attrib := [] |} /\
  validate_xml_structure "addon.xml" w
  = (true, logged w [record WARNING
                       ("Missing required attributes in addon.xml: "
                        ++ "['id', 'name', 'version', 'provider-name']")]) /\
  map group0 (finditer manifest_nested_opener)
  = ["<![CDATA[a]]>" : str; "<![CDATA[<![CDATA[a]]>" : str] /\
  (extract manifest_nested_opener).2
  = "<addon>__CDATA_PLACEHOLDER_0__<![CDATA[__CDATA_PLACEHOLDER_0__</addon>" /\
  pretty_print_xml_try manifest_nested_opener utf8 four_spaces true
  = inl ("unclosed CDATA section" : str) /\
  format_xml_file "addon.xml" false four_spaces utf8 w
  = (false, logged w [record ERROR "Error in pretty printing: unclosed CDATA section";
                      record ERROR (ballot_x ++ " Could not format addon.xml")]).
Proof. cbv zeta. repeat split; vm_compute; reflexivity. Qed.

(** *** The vault on concrete documents *)

(** The scan of [two_sections]. *)
Lemma two_sections_scan : cdata_scan two_sections two_sections_segs "</a>".
Proof.
  apply (scan_section "<a>" "x" "<b/><![CDATA[y]]></a>"
           [("<b/>" : str, "<![CDATA[y]]>" : str)] "</a>");
    [by apply clearb_clear..|].
  apply (scan_section "<b/>" "y" "</a>" [] "</a>"); [by apply clearb_clear..|].
  apply scan_done. by apply no_section_absent.
Qed.

Lemma two_sections_no_repeat : no_repeat two_sections_segs "</a>".
Proof. repeat split; by apply contains_false. Qed.

(** The tokens of [two_sections]. *)
Lemma tokens_are_unique_without_the_sentinel_word_witness :
  extract two_sections
  = (section_table 0 (map snd two_sections_segs),
     with_tokens 0 two_sections_segs "</a>") /\
  (forall i original, map snd two_sections_segs !! i = Some original ->
     section_table 0 (map snd two_sections_segs) !! i
     = Some (placeholder i, original) /\
     ~ occurs (placeholder i) two_sections /\
     count (placeholder i) (with_tokens 0 two_sections_segs "</a>") = 1) /\
  (forall segs' tail',
     map snd segs' = map snd two_sections_segs ->
     word_free (with_sections segs' tail') ->
     restore (section_table 0 (map snd two_sections_segs)) (with_tokens 0 segs' tail')
     = with_sections segs' tail' /\
     restore_counts (section_table 0 (map snd two_sections_segs))
       (with_tokens 0 segs' tail')
     = replicate (length two_sections_segs) 1).
Proof.
  apply (tokens_are_unique_without_the_sentinel_word two_sections
           two_sections_segs "</a>").
  - exact two_sections_scan.
  - exact two_sections_no_repeat.
  - apply contains_false. vm_compute. reflexivity.
Defined.

(** C3 as stated fails on a document that holds the text of a token: the
    token generated for its one section occurs in the document, twice in the
    working text, and the restoring loop replaces it twice. *)
Lemma generated_token_occurs_in_document :
  (extract token_in_document).1 = [(placeholder 0, "<![CDATA[x]]>" : str)] /\
  occurs (placeholder 0) token_in_document /\
  (extract token_in_document).2
  = "<a>__CDATA_PLACEHOLDER_0____CDATA_PLACEHOLDER_0__</a>" /\
  count (placeholder 0) (extract token_in_document).2 = 2 /\
  restore_counts (extract token_in_document).1 (extract token_in_document).2 = [2] /\
  restore (extract token_in_document).1 (extract token_in_document).2
  = "<a><![CDATA[x]]><![CDATA[x]]></a>".
Proof.
  split; [vm_compute; reflexivity|]. split; [by apply contains_occurs|].
  repeat split; vm_compute; reflexivity.
Qed.

(** Two sections with the same text: the first token stands for both in the
    working text and the second token is absent from it. *)
Lemma equal_sections_share_a_token :
  let document : str := "<a><![CDATA[x]]><![CDATA[x]]></a>" in
  (extract document).1
  = [(placeholder 0, "<![CDATA[x]]>" : str); (placeholder 1, "<![CDATA[x]]>" : str)] /\
  (extract document).2 = "<a>__CDATA_PLACEHOLDER_0____CDATA_PLACEHOLDER_0__</a>" /\
  count (placeholder 0) (extract document).2 = 2 /\
  count (placeholder 1) (extract document).2 = 0.
Proof. cbv zeta. repeat split; vm_compute; reflexivity. Qed.

(** *** The round trip on concrete documents *)

(** Proves that a closed printed text holds the tokens as [tokens_printed]
    asks. *)
Ltac tokens_carried :=
  split; [vm_compute; reflexivity|]; split; [reflexivity|];
  split; [repeat constructor; apply contains_false; vm_compute; reflexivity|];
  split; apply contains_false; vm_compute; reflexivity.

(** The scan of [twin_sections]. *)
Lemma twin_sections_scan : cdata_scan twin_sections twin_sections_segs "</a>".
Proof.
  apply (scan_section "<a>" "x" "<b/><![CDATA[x]]></a>"
           [("<b/>" : str, "<![CDATA[x]]>" : str)] "</a>");
    [by apply clearb_clear..|].
  apply (scan_section "<b/>" "x" "</a>" [] "</a>"); [by apply clearb_clear..|].
  apply scan_done. by apply no_section_absent.
Qed.

(** The round trip of [twin_sections]: one token stands for both sections,
    and both are put back. *)
Lemma sections_survive_formatting_witness :
  let pieces := tidy_pieces twin_sections_printed root_end in
  let out := with_sections pieces.1 (rstrip pieces.2 ++ [LF]) in
  pretty_print_xml_try twin_sections utf8 four_spaces true = inr out /\
  cdata_scan out pieces.1 (rstrip pieces.2 ++ [LF]) /\
  map snd pieces.1 = map snd twin_sections_segs /\
  map group0 (finditer out) = map group0 (finditer twin_sections) /\
  map group0 (finditer twin_sections) = map snd twin_sections_segs /\
  length (finditer out) = length (finditer twin_sections).
Proof.
  eapply (sections_survive_formatting twin_sections utf8 four_spaces twin_sections_segs
            "</a>" _ _ twin_sections_printed root_end).
  - exact twin_sections_scan.
  - apply (bool_decide_unpack _). vm_compute. reflexivity.
  - apply contains_false. vm_compute. reflexivity.
  - vm_compute. reflexivity.
  - vm_compute. reflexivity.
  - tokens_carried.
Defined.

(** The text returned for [twin_sections]. *)
Lemma twin_sections_round_trip :
  (extract twin_sections).2 = "<a>__CDATA_PLACEHOLDER_0__<b/>__CDATA_PLACEHOLDER_0__</a>" /\
  (let pieces := tidy_pieces twin_sections_printed root_end in
   with_sections pieces.1 (rstrip pieces.2 ++ [LF]) = twin_sections_formatted) /\
  pretty_print_xml_try twin_sections utf8 four_spaces true = inr twin_sections_formatted /\
  map group0 (finditer twin_sections_formatted)
  = ["<![CDATA[x]]>" : str; "<![CDATA[x]]>" : str].
Proof. repeat split; vm_compute; reflexivity. Qed.

(** The second section of [manifest_nested_opener] ends with the text of
    the first: the round trip says nothing of such a document, and
    [pretty_print_xml] returns no text for it. *)
Lemma nested_sections_are_left_out :
  map group0 (finditer manifest_nested_opener)
  = ["<![CDATA[a]]>" : str; "<![CDATA[<![CDATA[a]]>" : str] /\
  ~ unnested (map group0 (finditer manifest_nested_opener)) /\
  pretty_print_xml_try manifest_nested_opener utf8 four_spaces true
  = inl ("unclosed CDATA section" : str).
Proof.
  split; [vm_compute; reflexivity|]. split; [|vm_compute; reflexivity].
  apply (bool_decide_eq_false_1 _). vm_compute. reflexivity.
Qed.


(** On the second pass the library prints blank lines that it did not print
    on the first; the lines that are not blank are the same, and the text
    returned is the text of the first pass. *)
Lemma two_sections_second_pass :
  two_sections_pretty_again <> two_sections_pretty /\
  join [LF] (non_empty_lines (split LF two_sections_pretty_again))
  = join [LF] (non_empty_lines (split LF two_sections_pretty)) /\
  pretty_print_xml_try two_sections utf8 four_spaces true = inr two_sections_formatted /\
  pretty_print_xml_try two_sections_formatted utf8 four_spaces true
  = inr two_sections_formatted /\
  needs_write two_sections_formatted two_sections_formatted = false.
Proof.
  split; [intros E; vm_compute in E; discriminate E|].
  repeat split; vm_compute; reflexivity.
Qed.

(** C1 as stated fails on a well-formed document that holds the text of a
    token: it has one literal section, the returned text has two. *)
Lemma colliding_document_doubles_its_section :
  ET_fromstring token_in_document = inr {| tag := "a"; attrib := [] |} /\
  map group0 (finditer token_in_document) = ["<![CDATA[x]]>" : str] /\
  exists out,
    pretty_print_xml_try token_in_document utf8 four_spaces true = inr out /\
    out = xml_declaration ++ "<a><![CDATA[x]]><![CDATA[x]]></a>" ++ [LF] /\
    map group0 (finditer out) = ["<![CDATA[x]]>" : str; "<![CDATA[x]]>" : str].
Proof.
  split; [vm_compute; reflexivity|]. split; [vm_compute; reflexivity|].
  eexists. split; [vm_compute; reflexivity|]. split; vm_compute; reflexivity.
Qed.


(** The library stage alone can change a text on the second pass: the
    printer writes the carriage return of a character reference as it is,
    and the parser reads a carriage return as a line feed. *)
Lemma second_pass_changes_carriage_return :
  let first : str := xml_declaration ++ "<a>x" ++ [CR] ++ "y</a>" ++ [LF] in
  let second : str := xml_declaration ++ "<a>x" ++ [LF] ++ "y</a>" ++ [LF] in
  pretty_print_xml_try "<a>x&#13;y</a>" utf8 four_spaces true = inr first /\
  pretty_print_xml_try first utf8 four_spaces true = inr second /\
  needs_write first second = true.
Proof. cbv zeta. repeat split; vm_compute; reflexivity. Qed.

(** *** The scenarios of the specification *)

(** [<a><b>x</b></a>] with the default configuration: the root on its line,
    the child one unit under it with its text, no blank line, one line feed
    at the end. *)
Lemma nested_element_scenario :
  pretty_print_xml_try nested_element utf8 four_spaces true
  = inr nested_element_formatted /\
  split LF nested_element_formatted
  = [removelast xml_declaration; "<a>" : str; "    <b>x</b>" : str; "</a>" : str; []].
Proof. split; vm_compute; reflexivity. Qed.


(** The literal section of the note is in the returned text as it is in the
    document. *)
Lemma raw_note_scenario :
  pretty_print_xml_try raw_note utf8 four_spaces true
  = inr (xml_declaration ++ raw_note ++ [LF]) /\
  map group0 (finditer raw_note)
  = ["<![CDATA[<raw text=" ++ [DQ] ++ "&" ++ [DQ] ++ ">]]>"] /\
  map group0 (finditer (xml_declaration ++ raw_note ++ [LF]))
  = map group0 (finditer raw_note).
Proof. repeat split; vm_compute; reflexivity. Qed.

(** *** The pattern on concrete texts *)

(** The matches of [two_sections]. *)
Lemma finditer_matches_every_section_witness :
  exists segs tail,
    cdata_scan two_sections segs tail /\
    finditer two_sections = matches_of 0 segs /\
    in_order 0 (finditer two_sections) /\
    Forall (fun m => take (m_end m - m_start m) (drop (m_start m) two_sections)
                     = group0 m
                     /\ count cdata_close (group0 m) = 1) (finditer two_sections) /\
    (forall pre x,
       two_sections = pre ++ cdata_open ++ x ->
       ~ occurs cdata_close (cdata_open ++ x) ->
       finditer two_sections = finditer pre /\
       extract two_sections = ((extract pre).1, (extract pre).2 ++ cdata_open ++ x)).
Proof. exact (finditer_matches_every_section two_sections). Defined.

(** Two sections side by side are two matches; the first ends at the first
    closer. *)
Lemma adjacent_sections_are_two_matches :
  finditer "<![CDATA[a]]><![CDATA[b]]>"
  = [{| m_start := 0; m_end := 13; group0 := "<![CDATA[a]]>" |};
     {| m_start := 13; m_end := 26; group0 := "<![CDATA[b]]>" |}].
Proof. vm_compute. reflexivity. Qed.

(** A section may hold line feeds. *)
Lemma section_spans_lines :
  map group0 (finditer ("<a><![CDATA[x" ++ [LF] ++ "y]]></a>"))
  = ["<![CDATA[x" ++ [LF] ++ "y]]>"].
Proof. vm_compute. reflexivity. Qed.

(** An opener without closer is no match and stays in the working text. *)
Lemma unterminated_opener_stays :
  extract "<a><![CDATA[x]]><![CDATA[y</a>"
  = ([(placeholder 0, "<![CDATA[x]]>" : str)],
     "<a>__CDATA_PLACEHOLDER_0__<![CDATA[y</a>" : str).
Proof. vm_compute. reflexivity. Qed.

(** ** Concrete runs of the discovery and of the batch *)

(** The discovery in [addon_tree] with the pattern [old/]. *)
Lemma find_xml_files_in_addon_tree :
  find_xml_files "addon" ["old/" : str] addon_tree
  = (["addon/a.xml" : str; "addon/b.xml" : str],
     logged addon_tree
       [record INFO "Excluding: addon/old/c.xml (matches pattern: old/)";
        record INFO "Found 2 XML files in addon"]).
Proof. vm_compute. reflexivity. Qed.

(** With an empty pattern nothing is found in [addon_tree]. *)
Lemma empty_pattern_excludes_every_file_witness :
  (find_xml_files "addon" ["old/" : str; [] : str] addon_tree).1 = [].
Proof.
  apply (empty_pattern_excludes_every_file "addon" ["old/" : str; [] : str] addon_tree).
  apply elem_of_cons. right. apply elem_of_cons. by left.
Defined.

(** The backup of a file that the run rewrites. *)
Lemma backup_holds_original_witness :
  let w := disk [("a.xml" : str, nested_element)] in
  let r := format_one false true true four_spaces utf8 "a.xml" no_counters w in
  files r.2 !! ("a.xml" ++ ".bak" : str) = Some nested_element.
Proof.
  apply (backup_holds_original true four_spaces utf8 "a.xml" no_counters
           (disk [("a.xml" : str, nested_element)]) nested_element).
  - reflexivity.
  - apply not_elem_of_empty.
  - intros _. exists nested_element. eexists. split; vm_compute; reflexivity.
Defined.

(** A file that is not there cannot be backed up and is skipped. *)
Lemma failed_backup_skips_file_witness :
  let w := disk [("b.xml" : str, nested_element)] in
  let r := format_one false true false four_spaces utf8 "a.xml" no_counters w in
  files r.2 = files w /\
  formatted_count r.1 = formatted_count no_counters /\
  error_count r.1 = error_count no_counters /\
  exists records,
    log r.2 = log w ++ records
              ++ [record WARNING ("Skipping " ++ "a.xml" ++ " - backup creation failed")]
    \/ log r.2 = log w ++ records
                 ++ [record WARNING ("Skipping " ++ "a.xml" ++ " due to validation errors")].
Proof.
  apply (failed_backup_skips_file false four_spaces utf8 "a.xml" no_counters
           (disk [("b.xml" : str, nested_element)])).
  left. reflexivity.
Defined.

(** A file with an unclosed tag in a dry run: counted twice. *)
Lemma invalid_file_is_counted_witness :
  let w := disk [("a.xml" : str, "<a>" : str)] in
  let r := format_one true false true four_spaces utf8 "a.xml" no_counters w in
  let would := (format_xml_file "a.xml" true four_spaces utf8 w).1 in
  files r.2 = files w /\
  r.1 = counted (invalid no_counters) would /\
  (text_of utf8 w "a.xml" = text_of "utf-8" w "a.xml" -> would = false).
Proof.
  apply (invalid_file_is_counted true false four_spaces utf8 "a.xml" no_counters
           (disk [("a.xml" : str, "<a>" : str)])).
  vm_compute. reflexivity.
Defined.

(** A Latin-1 file in a dry run with the encoding [latin-1]: the validation
    reads it as UTF-8 and fails, the formatting reads it as Latin-1 and
    succeeds, and the file is counted as a validation error and as
    formatted. *)
Lemma latin1_file_fails_validation_alone :
  let w := disk [("a.xml" : str, "<a><b>" ++ ["233"%char] ++ "</b></a>")] in
  validate_xml_structure "a.xml" w
  = (false, logged w [record ERROR
                        ("Validation error in a.xml: 'utf-8' codec can't decode byte "
                         ++ "0xe9 in position 6: invalid continuation byte")]) /\
  (format_xml_file "a.xml" true four_spaces "latin-1" w).1 = true /\
  (format_one true false true four_spaces "latin-1" "a.xml" no_counters w).1
  = {| formatted_count := 1; error_count := 0; validation_errors := 1 |}.
Proof. cbv zeta. repeat split; vm_compute; reflexivity. Qed.

(** Two files that are formatted already: two formatting errors. *)
Lemma up_to_date_files_count_as_errors_witness :
  let w := disk [("a.xml" : str, nested_element_formatted);
                 ("b.xml" : str, two_sections_formatted)] in
  let r := format_loop false false true four_spaces utf8
             ["a.xml" : str; "b.xml" : str] no_counters w in
  files r.2 = files w /\
  r.1 = {| formatted_count := 0; error_count := 2; validation_errors := 0 |}.
Proof.
  apply (up_to_date_files_count_as_errors false true four_spaces utf8
           ["a.xml" : str; "b.xml" : str] no_counters
           (disk [("a.xml" : str, nested_element_formatted);
                  ("b.xml" : str, two_sections_formatted)])).
  - repeat constructor.
    + exists nested_element_formatted, nested_element_formatted.
      split; [vm_compute; reflexivity|].
      split; [intros E; vm_compute in E; discriminate E|].
      split; [eexists; vm_compute; reflexivity|]. split; vm_compute; reflexivity.
    + exists two_sections_formatted, two_sections_formatted.
      split; [vm_compute; reflexivity|].
      split; [intros E; vm_compute in E; discriminate E|].
      split; [eexists; vm_compute; reflexivity|]. split; vm_compute; reflexivity.
  - intros _. repeat constructor; vm_compute; reflexivity.
Defined.

(** In a batch of two files the second is formatted as if it were alone. *)
Lemma batch_formats_each_file_alone_witness :
  let w := disk [("a.xml" : str, "<a>" : str); ("b.xml" : str, nested_element)] in
  files (format_loop false true true four_spaces utf8 ["a.xml" : str; "b.xml" : str]
           no_counters w).2 !! ("b.xml" : str)
  = files (format_one false true true four_spaces utf8 "b.xml" no_counters w).2
      !! ("b.xml" : str).
Proof.
  apply (batch_formats_each_file_alone false true true four_spaces utf8
           ["a.xml" : str; "b.xml" : str] no_counters no_counters
           (disk [("a.xml" : str, "<a>" : str); ("b.xml" : str, nested_element)])
           "b.xml").
  - apply (bool_decide_unpack _). vm_compute. reflexivity.
  - intros a b Ha Hb.
    repeat (apply elem_of_cons in Ha as [->|Ha]); try (by apply elem_of_nil in Ha);
    repeat (apply elem_of_cons in Hb as [->|Hb]); try (by apply elem_of_nil in Hb);
    intros E; vm_compute in E; discriminate E.
  - apply elem_of_cons. right. apply elem_of_cons. by left.
Defined.

(** The text returned for [nested_element]. *)
Lemma returned_text_is_declared_and_terminated_witness :
  (exists rest, nested_element_formatted = "<?xml" ++ rest) /\
  (exists body, nested_element_formatted = body ++ [LF] /\ rstrip body = body
                /\ body <> []).
Proof.
  apply (returned_text_is_declared_and_terminated nested_element utf8 four_spaces true
           nested_element_formatted).
  vm_compute. reflexivity.
Defined.


(** With preservation the literal section keeps its blank line. *)
Lemma preserved_section_keeps_its_blank_line :
  pretty_print_xml_try spaced_section utf8 four_spaces true
  = inr (xml_declaration ++ spaced_section ++ [LF]).
Proof. vm_compute. reflexivity. Qed.

(** [nested_element] has no literal section. *)
Lemma text_without_section_skips_the_vault_witness :
  extract nested_element = ([], nested_element) /\
  pretty_print_xml_try nested_element utf8 four_spaces true
  = pretty_print_xml_try nested_element utf8 four_spaces false.
Proof.
  apply (text_without_section_skips_the_vault nested_element utf8 four_spaces).
  apply no_section_absent. vm_compute. reflexivity.
Defined.

(** The file that holds [nested_element] is replaced by its formatted
    text. *)
Lemma file_is_replaced_by_its_formatted_text_witness :
  false = false /\
  exists original formatted,
    text_of utf8 (disk [("a.xml" : str, nested_element)]) "a.xml" = Some original /\
    pretty_print_xml_try original utf8 four_spaces true = inr formatted /\
    strip formatted <> strip original /\
    (encode utf8 formatted = inr nested_element_formatted \/
     nested_element_formatted = [] /\ exists e, encode utf8 formatted = inl e).
Proof.
  apply (file_is_replaced_by_its_formatted_text "a.xml" false four_spaces utf8
           (disk [("a.xml" : str, nested_element)]) nested_element
           nested_element_formatted).
  - reflexivity.
  - vm_compute. reflexivity.
  - intros E. vm_compute in E. discriminate E.
Defined.
